(** * Income-tax tracker: classification, field extraction and tax engine

    A shallow embedding of the core of [src/App.jsx]: the bank-alert
    classifier ([isUserReceiver], [isUserSender], [isDebitTransaction],
    [isCreditTransaction], [handleAddTransaction]), the field extractor
    ([extractAmount], [extractDate], [extractDescription], [extractBank],
    [parseSMS], [acceptCredit]) and the progressive tax computation
    ([calculateTax], [taxBreakdown]), followed by [handleDelete],
    [saveUserName], the summary values, the text taken from an OCR response
    and the quoting of the export.

    Conventions of the embedding.
    - A JavaScript string is a [string]; the model is exact on ASCII text.
      A character outside ASCII appears as the bytes of its UTF-8 encoding
      and is treated as a caseless character that is neither a space nor a
      word character; [Js.length] and [Js.slice0] count such a character as
      the code does, in UTF-16 code units.
    - A JavaScript number is an exact rational ([Q]); [Infinity] only occurs
      as the limit of a bracket and has its own constructor.  No rounding is
      modelled.
    - [new RegExp(source, 'i')] is [RegExp.compile]: a parser of the pattern
      source followed by a backtracking matcher.  The parser has three
      results: a syntax tree, [SyntaxError] (the constructor throws), and
      [Unmodelled] for pattern syntax outside the fragment covered here.
    - React state is passed explicitly ([AppState]); the ambient services a
      handler reads (clock, UUID source, storage) are the record [Ambient]. *)

From Stdlib Require Import String Ascii List Bool Arith PeanoNat NArith Lia.
From Stdlib Require Import QArith Qminmax Lqa.
Import ListNotations.

Open Scope string_scope.
Open Scope nat_scope.

(** ** Completion of a computation that may throw *)

Inductive completion (A : Type) : Type :=
| Ok (a : A)
| SyntaxError
| Unmodelled.

Arguments Ok {A} a.
Arguments SyntaxError {A}.
Arguments Unmodelled {A}.

Definition bind {A B} (c : completion A) (f : A -> completion B) : completion B :=
  match c with
  | Ok a => f a
  | SyntaxError => SyntaxError
  | Unmodelled => Unmodelled
  end.

Notation "x <- c ;; k" := (bind c (fun x => k))
  (at level 61, c at next level, right associativity).

(** ** JavaScript string primitives *)

Module Js.

Definition code (c : ascii) : nat := nat_of_ascii c.

Definition between (lo hi : nat) (c : ascii) : bool :=
  (lo <=? code c) && (code c <=? hi).

Definition is_upper (c : ascii) : bool := between 65 90 c.
Definition is_lower (c : ascii) : bool := between 97 122 c.
Definition is_digit (c : ascii) : bool := between 48 57 c.

(** [\w]: letters, digits and the underscore. *)
Definition is_word (c : ascii) : bool :=
  is_upper c || is_lower c || is_digit c || (code c =? 95).

(** White space and line terminators: tab, LF, VT, FF, CR, space. *)
Definition is_space (c : ascii) : bool :=
  between 9 13 c || (code c =? 32).

Definition is_line_terminator (c : ascii) : bool :=
  (code c =? 10) || (code c =? 13).

Definition lower_char (c : ascii) : ascii :=
  if is_upper c then ascii_of_nat (code c + 32) else c.

Definition upper_char (c : ascii) : ascii :=
  if is_lower c then ascii_of_nat (code c - 32) else c.

Fixpoint map (f : ascii -> ascii) (s : string) : string :=
  match s with
  | EmptyString => EmptyString
  | String c s' => String (f c) (map f s')
  end.

(** [s.toLowerCase()] *)
Definition toLowerCase (s : string) : string := map lower_char s.

Fixpoint rev_onto (s acc : string) : string :=
  match s with
  | EmptyString => acc
  | String c s' => rev_onto s' (String c acc)
  end.

Definition rev (s : string) : string := rev_onto s EmptyString.

Fixpoint trimStart (s : string) : string :=
  match s with
  | EmptyString => EmptyString
  | String c s' => if is_space c then trimStart s' else s
  end.

(** [s.trim()] *)
Definition trim (s : string) : string := rev (trimStart (rev (trimStart s))).

(** Truthiness of a string: only the empty string is falsy. *)
Definition truthy (s : string) : bool :=
  match s with
  | EmptyString => false
  | String _ _ => true
  end.

Fixpoint startsWith (p s : string) : bool :=
  match p, s with
  | EmptyString, _ => true
  | String a p', String b s' => Ascii.eqb a b && startsWith p' s'
  | String _ _, EmptyString => false
  end.

(** [s.includes(p)] *)
Fixpoint includes (s p : string) : bool :=
  startsWith p s ||
  match s with
  | EmptyString => false
  | String _ s' => includes s' p
  end.

(** [s.replace(/c/g, by)] for a one-character pattern. *)
Fixpoint replaceAll (c : ascii) (by_ : string) (s : string) : string :=
  match s with
  | EmptyString => EmptyString
  | String a s' =>
      if Ascii.eqb a c then by_ ++ replaceAll c by_ s'
      else String a (replaceAll c by_ s')
  end.

Fixpoint take (n : nat) (s : string) : string :=
  match n, s with
  | S n', String c s' => String c (take n' s')
  | _, _ => EmptyString
  end.

(** The number of UTF-16 code units of the character a byte begins: none
    for a continuation byte, two for the first byte of a four-byte
    character. *)
Definition units (c : ascii) : nat :=
  if code c <? 128 then 1
  else if code c <? 192 then 0
  else if code c <? 240 then 1
  else 2.

(** [s.length] *)
Fixpoint length (s : string) : nat :=
  match s with
  | EmptyString => 0
  | String c s' => units c + length s'
  end.

(** The first half of a four-byte character that begins with the bytes
    [b1 b2 b3]: the high surrogate of its pair, in the three-byte form of a
    lone code unit. *)
Definition high_surrogate (b1 b2 b3 : ascii) : string :=
  let top := (code b1 mod 8) * 256 + (code b2 mod 64) * 4 + (code b3 mod 64) / 16 in
  let h := 216 * 256 + (top - 64) in
  String (ascii_of_nat 237)
    (String (ascii_of_nat (128 + (h / 64) mod 64))
       (String (ascii_of_nat (128 + h mod 64)) EmptyString)).

(** [s.slice(0, n)]: the first [n] code units.  A cut through the middle of
    a four-byte character keeps the first of its two code units. *)
Fixpoint slice0 (n : nat) (s : string) : string :=
  match s with
  | EmptyString => EmptyString
  | String c s' =>
      if units c <=? n then String c (slice0 (n - units c) s')
      else if n =? 1 then
        match s' with
        | String b2 (String b3 _) => high_surrogate c b2 b3
        | _ => EmptyString
        end
      else EmptyString
  end.

(** [s.split(sep)[0]] for a one-character separator. *)
Fixpoint beforeFirst (sep : ascii) (s : string) : string :=
  match s with
  | EmptyString => EmptyString
  | String c s' => if Ascii.eqb c sep then EmptyString else String c (beforeFirst sep s')
  end.

End Js.

(** ** Regular expressions: syntax tree, [new RegExp], [test] and [exec] *)

Module RegExp.

Inductive cclass := Digit | Space | Word.

Inductive citem :=
| CChar (c : ascii)
| CRange (lo hi : ascii)
| CClass (neg : bool) (k : cclass).

Inductive assertion := Bol | Eol | WordB | NotWordB.

Inductive regex :=
| Eps
| Lit (c : ascii)
| Dot
| CharSet (neg : bool) (items : list citem)
| Seq (r1 r2 : regex)
| Alt (r1 r2 : regex)
| Repeat (min : nat) (max : option nat) (greedy : bool) (r : regex)
| Group (n : nat) (r : regex)
| Assert (a : assertion).

(** *** Parsing a pattern source

    The parser reads the source one character at a time.  Its state holds
    the enclosing groups ([stack]), the alternatives and terms of the
    group being read, whether the last term can take a quantifier
    ([quant]) and what the next character means ([mode]). *)

Record frame := {
  f_alts : list regex;      (* finished alternatives, last first *)
  f_terms : list regex;     (* terms of the current alternative, last first *)
  f_group : option nat      (* [Some n]: capturing group n; [None]: (?: ) or top level *)
}.

Inductive qstatus := NoAtom | AtomReady | Quantified.

Inductive rstate := RNone | RHave (c : ascii) | RDash (c : ascii).

Inductive mode :=
| MNormal
| MEscape
| MGroupOpen
| MGroupQ
| MClassStart
| MClass (neg : bool) (items : list citem) (r : rstate)
| MClassEscape (neg : bool) (items : list citem) (r : rstate)
| MBraceMin (n : option nat)
| MBraceMax (lo : nat) (n : option nat).

Record pstate := {
  stack : list frame;
  cur : frame;
  quant : qstatus;
  ngroups : nat;
  pmode : mode
}.

Definition init : pstate :=
  {| stack := []; cur := {| f_alts := []; f_terms := []; f_group := None |};
     quant := NoAtom; ngroups := 0; pmode := MNormal |}.

Definition mk_alt (terms : list regex) : regex :=
  match terms with
  | [] => Eps
  | t :: ts => fold_left (fun acc x => Seq x acc) ts t
  end.

Definition mk_disj (f : frame) : regex :=
  fold_left (fun acc x => Alt x acc) (f_alts f) (mk_alt (f_terms f)).

Definition with_terms (f : frame) (ts : list regex) : frame :=
  {| f_alts := f_alts f; f_terms := ts; f_group := f_group f |}.

Definition set_mode (m : mode) (st : pstate) : pstate :=
  {| stack := stack st; cur := cur st; quant := quant st;
     ngroups := ngroups st; pmode := m |}.

(** A new atom (a term that may be quantified). *)
Definition push_atom (r : regex) (st : pstate) : pstate :=
  {| stack := stack st; cur := with_terms (cur st) (r :: f_terms (cur st));
     quant := AtomReady; ngroups := ngroups st; pmode := MNormal |}.

(** A new assertion (a term that cannot be quantified). *)
Definition push_assert (a : assertion) (st : pstate) : pstate :=
  {| stack := stack st; cur := with_terms (cur st) (Assert a :: f_terms (cur st));
     quant := NoAtom; ngroups := ngroups st; pmode := MNormal |}.

Definition map_top (f : regex -> regex) (ts : list regex) : list regex :=
  match ts with
  | [] => []
  | t :: ts' => f t :: ts'
  end.

(** [*], [+], [?] and [{n,m}] apply to the last atom; with nothing to
    repeat the pattern is rejected. *)
Definition quantify (mn : nat) (mx : option nat) (st : pstate) : completion pstate :=
  match quant st with
  | AtomReady =>
      Ok {| stack := stack st;
            cur := with_terms (cur st) (map_top (Repeat mn mx true) (f_terms (cur st)));
            quant := Quantified; ngroups := ngroups st; pmode := MNormal |}
  | _ => SyntaxError
  end.

Definition make_lazy (r : regex) : regex :=
  match r with
  | Repeat mn mx _ r' => Repeat mn mx false r'
  | _ => r
  end.

(** [?]: a quantifier after an atom, the lazy mark after a quantifier. *)
Definition question (st : pstate) : completion pstate :=
  match quant st with
  | AtomReady => quantify 0 (Some 1) st
  | Quantified =>
      Ok {| stack := stack st;
            cur := with_terms (cur st) (map_top make_lazy (f_terms (cur st)));
            quant := NoAtom; ngroups := ngroups st; pmode := MNormal |}
  | NoAtom => SyntaxError
  end.

Definition open_group (capturing : bool) (st : pstate) : pstate :=
  let n := if capturing then S (ngroups st) else ngroups st in
  {| stack := cur st :: stack st;
     cur := {| f_alts := []; f_terms := [];
               f_group := if capturing then Some n else None |};
     quant := NoAtom; ngroups := n; pmode := MNormal |}.

Definition close_group (st : pstate) : completion pstate :=
  match stack st with
  | [] => SyntaxError
  | parent :: rest =>
      let body := mk_disj (cur st) in
      let g := match f_group (cur st) with Some n => Group n body | None => body end in
      Ok {| stack := rest; cur := with_terms parent (g :: f_terms parent);
            quant := AtomReady; ngroups := ngroups st; pmode := MNormal |}
  end.

Definition next_alternative (st : pstate) : pstate :=
  {| stack := stack st;
     cur := {| f_alts := mk_alt (f_terms (cur st)) :: f_alts (cur st);
               f_terms := []; f_group := f_group (cur st) |};
     quant := NoAtom; ngroups := ngroups st; pmode := MNormal |}.

Definition digit_value (c : ascii) : nat := Js.code c - 48.

Definition step_normal (c : ascii) (st : pstate) : completion pstate :=
  if Ascii.eqb c "\" then Ok (set_mode MEscape st)
  else if Ascii.eqb c "(" then Ok (set_mode MGroupOpen st)
  else if Ascii.eqb c ")" then close_group st
  else if Ascii.eqb c "|" then Ok (next_alternative st)
  else if Ascii.eqb c "*" then quantify 0 None st
  else if Ascii.eqb c "+" then quantify 1 None st
  else if Ascii.eqb c "?" then question st
  else if Ascii.eqb c "[" then Ok (set_mode MClassStart st)
  else if Ascii.eqb c "." then Ok (push_atom Dot st)
  else if Ascii.eqb c "^" then Ok (push_assert Bol st)
  else if Ascii.eqb c "$" then Ok (push_assert Eol st)
  else if Ascii.eqb c "{" then
    match quant st with
    | AtomReady => Ok (set_mode (MBraceMin None) st)
    | _ => Unmodelled
    end
  else Ok (push_atom (Lit c) st).

Definition control_escape (c : ascii) : option ascii :=
  if Ascii.eqb c "t" then Some (ascii_of_nat 9)
  else if Ascii.eqb c "n" then Some (ascii_of_nat 10)
  else if Ascii.eqb c "v" then Some (ascii_of_nat 11)
  else if Ascii.eqb c "f" then Some (ascii_of_nat 12)
  else if Ascii.eqb c "r" then Some (ascii_of_nat 13)
  else None.

Definition class_escape (c : ascii) : option citem :=
  if Ascii.eqb c "d" then Some (CClass false Digit)
  else if Ascii.eqb c "D" then Some (CClass true Digit)
  else if Ascii.eqb c "s" then Some (CClass false Space)
  else if Ascii.eqb c "S" then Some (CClass true Space)
  else if Ascii.eqb c "w" then Some (CClass false Word)
  else if Ascii.eqb c "W" then Some (CClass true Word)
  else None.

(** Escapes whose meaning needs more of the source than one character
    (back references, [\c], [\x], [\u], [\k]) are outside the fragment. *)
Definition unmodelled_escape (c : ascii) : bool :=
  Js.is_digit c || Ascii.eqb c "c" || Ascii.eqb c "x" || Ascii.eqb c "u"
  || Ascii.eqb c "k".

Definition step_escape (c : ascii) (st : pstate) : completion pstate :=
  if Ascii.eqb c "b" then Ok (push_assert WordB st)
  else if Ascii.eqb c "B" then Ok (push_assert NotWordB st)
  else if unmodelled_escape c then Unmodelled
  else match class_escape c with
       | Some i => Ok (push_atom (CharSet false [i]) st)
       | None =>
           match control_escape c with
           | Some a => Ok (push_atom (Lit a) st)
           | None => Ok (push_atom (Lit c) st)
           end
       end.

Definition step_group_q (c : ascii) (st : pstate) : completion pstate :=
  if Ascii.eqb c ":" then Ok (open_group false st)
  else if Ascii.eqb c "=" || Ascii.eqb c "!" || Ascii.eqb c "<" then Unmodelled
  else SyntaxError.

(** Items of a character class, with the pending end points of a range. *)
Definition flush (items : list citem) (r : rstate) : list citem :=
  match r with
  | RNone => items
  | RHave a => CChar a :: items
  | RDash a => CChar "-" :: CChar a :: items
  end.

Definition class_char (neg : bool) (items : list citem) (r : rstate) (c : ascii)
  : completion mode :=
  match r with
  | RDash lo =>
      if Js.code lo <=? Js.code c
      then Ok (MClass neg (CRange lo c :: items) RNone)
      else SyntaxError
  | _ => Ok (MClass neg (flush items r) (RHave c))
  end.

Definition step_class (neg : bool) (items : list citem) (r : rstate) (c : ascii)
  (st : pstate) : completion pstate :=
  if Ascii.eqb c "]" then Ok (push_atom (CharSet neg (rev (flush items r))) st)
  else if Ascii.eqb c "\" then Ok (set_mode (MClassEscape neg items r) st)
  else if Ascii.eqb c "-" then
    match r with
    | RHave lo => Ok (set_mode (MClass neg items (RDash lo)) st)
    | _ => m <- class_char neg items r c ;; Ok (set_mode m st)
    end
  else m <- class_char neg items r c ;; Ok (set_mode m st).

Definition step_class_escape (neg : bool) (items : list citem) (r : rstate)
  (c : ascii) (st : pstate) : completion pstate :=
  if unmodelled_escape c then Unmodelled
  else match class_escape c with
       | Some i => Ok (set_mode (MClass neg (i :: flush items r) RNone) st)
       | None =>
           let a := if Ascii.eqb c "b" then ascii_of_nat 8
                    else match control_escape c with Some a => a | None => c end in
           m <- class_char neg items r a ;; Ok (set_mode m st)
       end.

Definition add_digit (n : option nat) (c : ascii) : option nat :=
  Some (10 * match n with Some k => k | None => 0 end + digit_value c).

Definition step_brace_min (n : option nat) (c : ascii) (st : pstate)
  : completion pstate :=
  if Js.is_digit c then Ok (set_mode (MBraceMin (add_digit n c)) st)
  else match n with
       | None => Unmodelled
       | Some lo =>
           if Ascii.eqb c "}" then quantify lo (Some lo) st
           else if Ascii.eqb c "," then Ok (set_mode (MBraceMax lo None) st)
           else Unmodelled
       end.

Definition step_brace_max (lo : nat) (n : option nat) (c : ascii) (st : pstate)
  : completion pstate :=
  if Js.is_digit c then Ok (set_mode (MBraceMax lo (add_digit n c)) st)
  else if Ascii.eqb c "}" then
    match n with
    | None => quantify lo None st
    | Some hi => if lo <=? hi then quantify lo (Some hi) st else SyntaxError
    end
  else Unmodelled.

Definition step (c : ascii) (st : pstate) : completion pstate :=
  match pmode st with
  | MNormal => step_normal c st
  | MEscape => step_escape c st
  | MGroupOpen =>
      if Ascii.eqb c "?" then Ok (set_mode MGroupQ st)
      else step_normal c (open_group true st)
  | MGroupQ => step_group_q c st
  | MClassStart =>
      if Ascii.eqb c "^" then Ok (set_mode (MClass true [] RNone) st)
      else step_class false [] RNone c st
  | MClass neg items r => step_class neg items r c st
  | MClassEscape neg items r => step_class_escape neg items r c st
  | MBraceMin n => step_brace_min n c st
  | MBraceMax lo n => step_brace_max lo n c st
  end.

Fixpoint run (src : string) (st : pstate) : completion pstate :=
  match src with
  | EmptyString => Ok st
  | String c src' => st' <- step c st ;; run src' st'
  end.

(** At the end of the source every group and class must be closed. *)
Definition finish (st : pstate) : completion regex :=
  match pmode st with
  | MNormal =>
      match stack st with
      | [] => Ok (mk_disj (cur st))
      | _ :: _ => SyntaxError
      end
  | MBraceMin _ | MBraceMax _ _ => Unmodelled
  | _ => SyntaxError
  end.

Definition parse (src : string) : completion regex :=
  st <- run src init ;; finish st.

(** *** Matching

    A backtracking matcher in continuation-passing style, after the
    matcher of the language definition: the first alternative and the
    longest (greedy) or shortest (lazy) repetition are tried first, and
    the first success wins. *)

Record mstate := {
  m_prev : option ascii;          (* the character before the position *)
  m_rest : string;                (* the input from the position on *)
  m_pos : nat;                    (* the position *)
  m_caps : list (nat * string)    (* captures of the groups matched so far *)
}.

Definition canonicalize (ignoreCase : bool) (c : ascii) : ascii :=
  if ignoreCase then Js.upper_char c else c.

Definition same_char (ic : bool) (a b : ascii) : bool :=
  Ascii.eqb (canonicalize ic a) (canonicalize ic b).

Definition in_range (lo hi c : ascii) : bool :=
  (Js.code lo <=? Js.code c) && (Js.code c <=? Js.code hi).

Definition in_class (k : cclass) (c : ascii) : bool :=
  match k with
  | Digit => Js.is_digit c
  | Space => Js.is_space c
  | Word => Js.is_word c
  end.

Definition in_item (ic : bool) (c : ascii) (i : citem) : bool :=
  match i with
  | CChar a => same_char ic c a
  | CRange lo hi =>
      in_range lo hi c ||
      (ic && (in_range lo hi (Js.upper_char c) || in_range lo hi (Js.lower_char c)))
  | CClass neg k => xorb neg (in_class k c)
  end.

Definition accepts (ic : bool) (r : regex) (c : ascii) : bool :=
  match r with
  | Lit a => same_char ic c a
  | Dot => negb (Js.is_line_terminator c)
  | CharSet neg items => xorb neg (existsb (in_item ic c) items)
  | _ => false
  end.

Definition is_word_opt (c : option ascii) : bool :=
  match c with
  | Some a => Js.is_word a
  | None => false
  end.

Definition next_char (s : mstate) : option ascii :=
  match m_rest s with
  | EmptyString => None
  | String c _ => Some c
  end.

Definition holds (a : assertion) (s : mstate) : bool :=
  match a with
  | Bol => match m_prev s with None => true | Some _ => false end
  | Eol => match next_char s with None => true | Some _ => false end
  | WordB => xorb (is_word_opt (m_prev s)) (is_word_opt (next_char s))
  | NotWordB => negb (xorb (is_word_opt (m_prev s)) (is_word_opt (next_char s)))
  end.

Fixpoint groups (r : regex) : list nat :=
  match r with
  | Seq r1 r2 | Alt r1 r2 => groups r1 ++ groups r2
  | Repeat _ _ _ r1 => groups r1
  | Group n r1 => n :: groups r1
  | _ => []
  end%list.

Definition clear_caps (gs : list nat) (s : mstate) : mstate :=
  {| m_prev := m_prev s; m_rest := m_rest s; m_pos := m_pos s;
     m_caps := filter (fun p => negb (existsb (Nat.eqb (fst p)) gs)) (m_caps s) |}.

Definition set_cap (n : nat) (from to : mstate) : mstate :=
  {| m_prev := m_prev to; m_rest := m_rest to; m_pos := m_pos to;
     m_caps := (n, Js.take (m_pos to - m_pos from) (m_rest from))
               :: filter (fun p => negb (fst p =? n)) (m_caps to) |}.

Definition cont := mstate -> option mstate.

Definition orelse (a : option mstate) (b : unit -> option mstate) : option mstate :=
  match a with
  | Some x => Some x
  | None => b tt
  end.

Definition one_char (ic : bool) (r : regex) (k : cont) (s : mstate) : option mstate :=
  match m_rest s with
  | EmptyString => None
  | String c rest =>
      if accepts ic r c
      then k {| m_prev := Some c; m_rest := rest; m_pos := S (m_pos s);
                m_caps := m_caps s |}
      else None
  end.

Definition max_is_zero (mx : option nat) : bool :=
  match mx with
  | Some 0 => true
  | _ => false
  end.

(** The repetition loop.  [body] matches one iteration.  An iteration that
    consumes nothing once the minimum is reached is rejected, so the number
    of iterations is at most [min] plus the length of the input. *)
Fixpoint repeat_loop (body : cont -> cont) (fuel mn : nat) (mx : option nat)
  (greedy : bool) (k : cont) (s : mstate) : option mstate :=
  match fuel with
  | 0 => None
  | S fuel' =>
      if max_is_zero mx then k s
      else
        let again (s1 : mstate) :=
          if (mn =? 0) && (m_pos s1 =? m_pos s) then None
          else repeat_loop body fuel' (pred mn) (option_map pred mx) greedy k s1 in
        if 0 <? mn then body again s
        else if greedy then orelse (body again s) (fun _ => k s)
        else orelse (k s) (fun _ => body again s)
  end.

Fixpoint matcher (ic : bool) (r : regex) (k : cont) (s : mstate) : option mstate :=
  match r with
  | Eps => k s
  | Lit _ | Dot | CharSet _ _ => one_char ic r k s
  | Seq r1 r2 => matcher ic r1 (fun s1 => matcher ic r2 k s1) s
  | Alt r1 r2 => orelse (matcher ic r1 k s) (fun _ => matcher ic r2 k s)
  | Repeat mn mx greedy r1 =>
      repeat_loop (fun k1 s1 => matcher ic r1 k1 (clear_caps (groups r1) s1))
                  (S (mn + String.length (m_rest s))) mn mx greedy k s
  | Group n r1 => matcher ic r1 (fun s1 => k (set_cap n s s1)) s
  | Assert a => if holds a s then k s else None
  end.

(** The result of a successful match: where it starts, what it covers and
    what its groups captured. *)
Record match_result := {
  index : nat;
  matched : string;
  captures : list (nat * string)
}.

Fixpoint scan (ic : bool) (r : regex) (prev : option ascii) (rest : string) (pos : nat)
  : option match_result :=
  let s := {| m_prev := prev; m_rest := rest; m_pos := pos; m_caps := [] |} in
  match matcher ic r Some s with
  | Some e =>
      Some {| index := pos; matched := Js.take (m_pos e - pos) rest;
              captures := m_caps e |}
  | None =>
      match rest with
      | EmptyString => None
      | String c rest' => scan ic r (Some c) rest' (S pos)
      end
  end.

(** A regular-expression object without the [g] and [y] flags. *)
Record t := {
  ast : regex;
  ignoreCase : bool
}.

(** [new RegExp(source, flags)] for [flags] either empty or ['i']. *)
Definition compile (source : string) (ignore_case : bool) : completion t :=
  r <- parse source ;; Ok {| ast := r; ignoreCase := ignore_case |}.

(** [re.exec(text)] and [text.match(re)] *)
Definition exec (re : t) (text : string) : option match_result :=
  scan (ignoreCase re) (ast re) None text 0.

(** [re.test(text)] *)
Definition test (re : t) (text : string) : bool :=
  match exec re text with
  | Some _ => true
  | None => false
  end.

(** [m[n]]: [None] is [undefined], for a group that took no part. *)
Definition capture (n : nat) (m : match_result) : option string :=
  option_map snd (find (fun p => fst p =? n) (captures m)).

End RegExp.

(** ** Numbers *)

(** [parseFloat(s)] on a string of digits and dots (every argument the
    program passes is one): the longest prefix of the form [digits],
    [digits.digits], [digits.] or [.digits]; [None] is [NaN]. *)
Module Number.

Fixpoint digits (s : string) (acc : N) (count : nat) : N * nat * string :=
  match s with
  | String c s' =>
      if Js.is_digit c
      then digits s' (10 * acc + N.of_nat (Js.code c - 48))%N (S count)
      else (acc, count, s)
  | EmptyString => (acc, count, s)
  end.

Definition decimal (int : N) (frac : N) (places : nat) : Q :=
  Qmake (Z.of_N (int * 10 ^ N.of_nat places + frac))
        (Z.to_pos (Z.of_N (10 ^ N.of_nat places))).

Definition parseFloat (s : string) : option Q :=
  let '(int, n_int, rest) := digits s 0%N 0 in
  match rest with
  | String "." rest' =>
      let '(frac, n_frac, _) := digits rest' 0%N 0 in
      if (n_int =? 0) && (n_frac =? 0) then None
      else Some (decimal int frac n_frac)
  | _ => if n_int =? 0 then None else Some (decimal int 0%N 0)
  end.

(** [x || 0] for a number [x]: [NaN] and [0] are falsy. *)
Definition or_zero (x : option Q) : Q :=
  match x with
  | Some q => q
  | None => 0%Q
  end.

End Number.

(** ** Configuration (lines 4-49) *)

Inductive bound :=
| Finite (q : Q)
| Infinity.

Record TaxBracket := {
  limit : bound;
  rate : Q
}.

Definition TAX_BRACKETS : list TaxBracket := [
  {| limit := Finite 800000; rate := 0 |};
  {| limit := Finite 3000000; rate := 0.15 |};
  {| limit := Finite 12000000; rate := 0.18 |};
  {| limit := Finite 25000000; rate := 0.21 |};
  {| limit := Finite 50000000; rate := 0.23 |};
  {| limit := Infinity; rate := 0.25 |}
]%Q.

Definition CRITICAL_DEBIT_KEYWORDS : list string := ["debit"; "dr"].

Definition DEBIT_KEYWORDS : list string := [
  "debited"; "withdrawal"; "withdraw"; "transferred"; "transfer from your";
  "payment to"; "paid to"; "sent to"; "deducted"; "charged"; "purchase";
  "atm withdrawal"; "pos purchase"; "bill payment"
].

Definition CREDIT_KEYWORDS : list string := [
  "credited"; "credit"; "received"; "deposit"; "transfer from";
  "payment from"; "salary"; "refund"; "reversal"
].

Definition BANK_NAMES : list string := [
  "GTBank"; "Access"; "Zenith"; "First Bank"; "UBA"; "Stanbic"; "Kuda";
  "Fidelity"; "Wema"; "Union"
].

(** ** The classifier (lines 208-250) *)

(** An array literal of [new RegExp(...)] expressions: the patterns are
    constructed in order, and the first one that throws ends the evaluation. *)
Fixpoint compile_all (sources : list string) : completion (list RegExp.t) :=
  match sources with
  | [] => Ok []
  | src :: rest =>
      re <- RegExp.compile src true ;;
      res <- compile_all rest ;;
      Ok (re :: res)
  end.

Definition receiver_sources (name : string) : list string := [
  "\bto\s+" ++ name ++ "\b";
  "\bcredited\s+to\s+" ++ name ++ "\b";
  "\bbeneficiary[:\s]+" ++ name ++ "\b";
  "\breceiver[:\s]+" ++ name ++ "\b";
  "\brecipient[:\s]+" ++ name ++ "\b";
  "\bpayment\s+to\s+" ++ name ++ "\b"
].

Definition sender_sources (name : string) : list string := [
  "\bfrom\s+" ++ name ++ "\b";
  "\bsender[:\s]+" ++ name ++ "\b";
  "\bby\s+" ++ name ++ "\b";
  "\btransfer\s+from\s+" ++ name ++ "\b"
].

Definition isUserReceiver (userName text : string) : completion bool :=
  if negb (Js.truthy userName) then Ok false
  else
    let name := Js.toLowerCase (Js.trim userName) in
    patterns <- compile_all (receiver_sources name) ;;
    Ok (existsb (fun pattern => RegExp.test pattern text) patterns).

Definition isUserSender (userName text : string) : completion bool :=
  if negb (Js.truthy userName) then Ok false
  else
    let name := Js.toLowerCase (Js.trim userName) in
    patterns <- compile_all (sender_sources name) ;;
    Ok (existsb (fun pattern => RegExp.test pattern text) patterns).

(** The [for] loop over [CRITICAL_DEBIT_KEYWORDS] with its early [return true]. *)
Fixpoint critical_loop (keywords : list string) (text : string) : completion bool :=
  match keywords with
  | [] => Ok false
  | keyword :: rest =>
      regex <- RegExp.compile ("\b" ++ keyword ++ "\b") true ;;
      if RegExp.test regex text then Ok true else critical_loop rest text
  end.

Definition isDebitTransaction (text : string) : completion bool :=
  hit <- critical_loop CRITICAL_DEBIT_KEYWORDS text ;;
  if hit then Ok true
  else
    let lower := Js.toLowerCase text in
    Ok (existsb (fun keyword => Js.includes lower keyword) DEBIT_KEYWORDS).

Definition isCreditTransaction (text : string) : bool :=
  let lower := Js.toLowerCase text in
  existsb (fun keyword => Js.includes lower keyword) CREDIT_KEYWORDS.

(** ** The field extractor (lines 252-307) *)

(** A regular-expression literal of the program.  The literals used below
    all parse (see [literals_parse]); the fallback is a pattern that matches
    nothing. *)
Definition literal (source : string) (ignore_case : bool) : RegExp.t :=
  match RegExp.compile source ignore_case with
  | Ok re => re
  | _ => {| RegExp.ast := RegExp.CharSet false []; RegExp.ignoreCase := ignore_case |}
  end.

Definition amount_patterns : list RegExp.t := [
  literal "(?:NGN|₦|N)\s*([0-9,.]+)" true;
  literal "credited\s+with\s+([0-9,.]+)" true;
  literal "received\s+([0-9,.]+)" true
].

(** [match?.[1]] as a condition: the match exists and its first group is a
    non-empty string. *)
Definition truthy_capture (m : option RegExp.match_result) : option string :=
  match m with
  | Some r =>
      match RegExp.capture 1 r with
      | Some s => if Js.truthy s then Some s else None
      | None => None
      end
  | None => None
  end.

Fixpoint extractAmount_loop (patterns : list RegExp.t) (text : string) : Q :=
  match patterns with
  | [] => 0%Q
  | pattern :: rest =>
      match truthy_capture (RegExp.exec pattern text) with
      | Some g => Number.or_zero (Number.parseFloat (Js.replaceAll "," EmptyString g))
      | None => extractAmount_loop rest text
      end
  end.

Definition extractAmount (text : string) : Q :=
  extractAmount_loop amount_patterns text.

(** What a handler reads from its surroundings: the clock
    ([new Date().toISOString()]), [crypto.randomUUID()] and whether the write
    to storage succeeds. *)
Record Ambient := {
  now_iso : string;
  randomUUID : string;
  storage_ok : bool
}.

Definition date_pattern : RegExp.t :=
  literal "(\d{4}-\d{2}-\d{2}|\d{2}\/\d{2}\/\d{4}|\d{2}-\d{2}-\d{4})" false.

Definition extractDate (amb : Ambient) (text : string) : string :=
  match truthy_capture (RegExp.exec date_pattern text) with
  | Some g => Js.replaceAll "/" "-" g
  | None => Js.beforeFirst "T" (now_iso amb)
  end.

Definition description_pattern : RegExp.t :=
  literal "(?:from|narration|desc|description)[:\s]+([^\.\n]+)" true.

Definition extractDescription (text : string) : string :=
  match truthy_capture (RegExp.exec description_pattern text) with
  | Some g => Js.trim g
  | None =>
      Js.trim (Js.slice0 60 text) ++ (if 60 <? Js.length text then "..." else EmptyString)
  end.

Fixpoint extractBank_loop (banks : list string) (text : string) : string :=
  match banks with
  | [] => "Unknown"
  | bank :: rest =>
      if Js.includes (Js.toLowerCase text) (Js.toLowerCase bank) then bank
      else extractBank_loop rest text
  end.

Definition extractBank (text : string) : string :=
  extractBank_loop BANK_NAMES text.

Record Transaction := {
  id : string;
  date : string;
  amount : Q;
  description : string;
  bank : string;
  rawSMS : string
}.

Definition parseSMS (amb : Ambient) (text : string) : Transaction :=
  {| id := randomUUID amb;
     date := extractDate amb text;
     amount := extractAmount text;
     description := extractDescription text;
     bank := extractBank text;
     rawSMS := text |}.

(** ** Adding a transaction (lines 130-140, 309-356) *)

(** The React state the handlers read and write.  A handler sees the state
    of the render it was created in and its setters produce the next state;
    the timers that clear the banners later are not part of the model. *)
Record AppState := {
  smsText : string;
  transactions : list Transaction;
  userName : string;
  selectedImage : option string;
  showDebitPopup : bool;
  error : string;
  success : string;
  stored : option (list Transaction)   (* what was last written to storage *)
}.

Definition flashError (message : string) (st : AppState) : AppState :=
  {| smsText := smsText st; transactions := transactions st;
     userName := userName st; selectedImage := selectedImage st;
     showDebitPopup := showDebitPopup st; error := message;
     success := success st; stored := stored st |}.

Definition flashSuccess (message : string) (st : AppState) : AppState :=
  {| smsText := smsText st; transactions := transactions st;
     userName := userName st; selectedImage := selectedImage st;
     showDebitPopup := showDebitPopup st; error := error st;
     success := message; stored := stored st |}.

Definition setShowDebitPopup (b : bool) (st : AppState) : AppState :=
  {| smsText := smsText st; transactions := transactions st;
     userName := userName st; selectedImage := selectedImage st;
     showDebitPopup := b; error := error st;
     success := success st; stored := stored st |}.

Definition setTransactions (next : list Transaction) (st : AppState) : AppState :=
  {| smsText := smsText st; transactions := next;
     userName := userName st; selectedImage := selectedImage st;
     showDebitPopup := showDebitPopup st; error := error st;
     success := success st; stored := stored st |}.

Definition setSmsText (text : string) (st : AppState) : AppState :=
  {| smsText := text; transactions := transactions st;
     userName := userName st; selectedImage := selectedImage st;
     showDebitPopup := showDebitPopup st; error := error st;
     success := success st; stored := stored st |}.

Definition setSelectedImage (img : option string) (st : AppState) : AppState :=
  {| smsText := smsText st; transactions := transactions st;
     userName := userName st; selectedImage := img;
     showDebitPopup := showDebitPopup st; error := error st;
     success := success st; stored := stored st |}.

Definition write_storage (next : list Transaction) (st : AppState) : AppState :=
  {| smsText := smsText st; transactions := transactions st;
     userName := userName st; selectedImage := selectedImage st;
     showDebitPopup := showDebitPopup st; error := error st;
     success := success st; stored := Some next |}.

(** [await persistTransactions(next)] followed by [rest]: when the write
    fails the function ends there with a rejected promise, which no caller
    observes. *)
Definition persistTransactions_then (amb : Ambient) (next : list Transaction)
  (rest : AppState -> AppState) (st : AppState) : AppState :=
  if storage_ok amb then rest (write_storage next st) else st.

Definition acceptCredit (amb : Ambient) (st : AppState) : AppState :=
  let newTransaction := parseSMS amb (smsText st) in
  if Qle_bool (amount newTransaction) 0 then
    flashError "Could not extract a valid amount from the SMS." st
  else
    let next := newTransaction :: transactions st in
    persistTransactions_then amb next
      (fun st1 =>
         flashSuccess "Income transaction added successfully"
           (setSelectedImage None (setSmsText EmptyString st1)))
      (setTransactions next st).

Definition handleAddTransaction (amb : Ambient) (st : AppState) : completion AppState :=
  if negb (Js.truthy (Js.trim (smsText st))) then
    Ok (flashError "Please enter SMS text or use OCR." st)
  else
    receiver <- isUserReceiver (userName st) (smsText st) ;;
    if receiver then Ok (acceptCredit amb st)
    else
      sender <- isUserSender (userName st) (smsText st) ;;
      debit <- (if sender then Ok true else isDebitTransaction (smsText st)) ;;
      if debit then
        Ok (flashError "Debit detected! Only credit income alerts are accepted."
              (setShowDebitPopup true st))
      else if negb (isCreditTransaction (smsText st)) then
        Ok (flashError "Unable to confirm this is a credit alert." st)
      else Ok (acceptCredit amb st).

Definition handleDelete (amb : Ambient) (id_ : string) (st : AppState) : AppState :=
  let next := filter (fun t => negb (String.eqb (id t) id_)) (transactions st) in
  persistTransactions_then amb next
    (fun st1 => flashSuccess "Transaction deleted" st1)
    (setTransactions next st).

(** The decision [handleAddTransaction] takes before it extracts anything:
    which of its four exits the text and the profile name lead to. *)
Inductive Decision :=
| Accepted
| RejectedDebit (reason : string)
| RejectedAmbiguous (reason : string).

Definition classify (userName text : string) : completion Decision :=
  if negb (Js.truthy (Js.trim text)) then
    Ok (RejectedAmbiguous "Please enter SMS text or use OCR.")
  else
    receiver <- isUserReceiver userName text ;;
    if receiver then Ok Accepted
    else
      sender <- isUserSender userName text ;;
      debit <- (if sender then Ok true else isDebitTransaction text) ;;
      if debit then
        Ok (RejectedDebit "Debit detected! Only credit income alerts are accepted.")
      else if negb (isCreditTransaction text) then
        Ok (RejectedAmbiguous "Unable to confirm this is a credit alert.")
      else Ok Accepted.

(** What [handleAddTransaction] does once the decision is taken. *)
Definition dispatch (amb : Ambient) (st : AppState) (d : Decision) : AppState :=
  match d with
  | Accepted => acceptCredit amb st
  | RejectedDebit reason => flashError reason (setShowDebitPopup true st)
  | RejectedAmbiguous reason => flashError reason st
  end.

(** ** The tax engine (lines 374-410) *)

Section TaxEngine.

Local Open Scope Q_scope.

(** The [for] loop of [calculateTax]: [income <= bracket.limit] always
    holds for the unbounded bracket. *)
Fixpoint calculateTax_loop (brackets : list TaxBracket)
  (income tax previousLimit : Q) : Q :=
  match brackets with
  | [] => tax
  | bracket :: rest =>
      match limit bracket with
      | Infinity => tax + (income - previousLimit) * rate bracket
      | Finite l =>
          if Qle_bool income l
          then tax + (income - previousLimit) * rate bracket
          else calculateTax_loop rest income
                 (tax + (l - previousLimit) * rate bracket) l
      end
  end.

Definition calculateTax (income : Q) : Q :=
  calculateTax_loop TAX_BRACKETS income 0 0.

Definition totalIncome (transactions : list Transaction) : Q :=
  fold_left (fun sum t => sum + amount t) transactions 0.

Definition annualTax (transactions : list Transaction) : Q :=
  calculateTax (totalIncome transactions).

Definition netIncome (transactions : list Transaction) : Q :=
  totalIncome transactions - annualTax transactions.

Definition effectiveRate (transactions : list Transaction) : Q :=
  if Qlt_le_dec 0 (totalIncome transactions)
  then annualTax transactions / totalIncome transactions * 100
  else 0.

Record BreakdownRow := {
  row_limit : bound;
  row_rate : Q;
  taxable : Q;
  tax : Q
}.

(** [bracket.limit === Infinity ? remaining
     : Math.max(Math.min(bracket.limit - previousLimit, remaining), 0)];
    after an unbounded bracket the difference is minus infinity and the
    result is 0. *)
Definition bracketCap (bracket : TaxBracket) (previousLimit : bound)
  (remaining : Q) : Q :=
  match limit bracket, previousLimit with
  | Infinity, _ => remaining
  | Finite l, Finite p => Qmax (Qmin (l - p) remaining) 0
  | Finite _, Infinity => 0
  end.

(** The callback of [TAX_BRACKETS.map], with the two variables it
    updates passed along. *)
Fixpoint taxBreakdown_loop (brackets : list TaxBracket) (remaining : Q)
  (previousLimit : bound) : list BreakdownRow :=
  match brackets with
  | [] => []
  | bracket :: rest =>
      let cap := bracketCap bracket previousLimit remaining in
      let taxable_ := Qmax (Qmin remaining cap) 0 in
      {| row_limit := limit bracket; row_rate := rate bracket;
         taxable := taxable_; tax := taxable_ * rate bracket |}
      :: taxBreakdown_loop rest (remaining - taxable_) (limit bracket)
  end.

Definition taxBreakdown (totalIncome : Q) : list BreakdownRow :=
  taxBreakdown_loop TAX_BRACKETS totalIncome (Finite 0).

Definition sumQ (l : list Q) : Q := fold_right Qplus 0 l.

End TaxEngine.

Import RegExp.

(** ** Auxiliary definitions: the control state of the parser *)

Definition agree {A B} (R : A -> B -> Prop) (x : completion A) (y : completion B) : Prop :=
  match x, y with
  | Ok a, Ok b => R a b
  | SyntaxError, SyntaxError => True
  | Unmodelled, Unmodelled => True
  | _, _ => False
  end.

Definition ctl (st : pstate) : mode * qstatus * nat :=
  (pmode st, quant st, length (stack st)).

(** A template prefix leaves the parser at top level, in normal mode, just
    after a quantifier. *)
Definition after_prefix (prefix : string) : Prop :=
  exists st, run prefix init = Ok st /\ ctl st = (MNormal, Quantified, 0).

Definition status {A} (x : completion A) : completion unit :=
  match x with
  | Ok _ => Ok tt
  | SyntaxError => SyntaxError
  | Unmodelled => Unmodelled
  end.

(** ** Auxiliary definitions: progress of the matcher *)

(** A lower bound on the number of characters a match of [r] consumes. *)
Fixpoint minlen (r : regex) : nat :=
  match r with
  | Eps | Assert _ => 0
  | Lit _ | Dot | CharSet _ _ => 1
  | Seq r1 r2 => minlen r1 + minlen r2
  | Alt r1 r2 => Nat.min (minlen r1) (minlen r2)
  | Repeat mn mx _ r1 =>
      if max_is_zero mx then 0 else if mn =? 0 then 0 else minlen r1
  | Group _ r1 => minlen r1
  end.

(** [s'] is [s] moved forward by at least [n] characters of the same input. *)
Definition advanced (n : nat) (s s' : mstate) : Prop :=
  m_pos s + n <= m_pos s'
  /\ m_pos s' + String.length (m_rest s') = m_pos s + String.length (m_rest s).

(** A pattern that ends with the capturing group [n], whose body consumes at
    least one character. *)
Fixpoint captures_last (n : nat) (r : regex) : bool :=
  match r with
  | Seq _ r2 => captures_last n r2
  | Group k r1 => (k =? n) && (1 <=? minlen r1)
  | _ => false
  end.

(** ** The decision order as a rule list *)

(** The seven rules of the decision, as the specification words them.  Each
    rule is a test of the text and the profile name that is true or false,
    and the first rule that applies decides. *)
Record rule := {
  applies : bool;
  decision : Decision
}.

Fixpoint first_match (rules : list rule) (otherwise : Decision) : Decision :=
  match rules with
  | [] => otherwise
  | r :: rest => if applies r then decision r else first_match rest otherwise
  end.

Fixpoint whitespace_only (s : string) : bool :=
  match s with
  | EmptyString => true
  | String c s' => Js.is_space c && whitespace_only s'
  end.

(** The characters of [s], each one standing for itself, followed by
    [rest]: a name or a word put into a pattern as a literal. *)
Fixpoint lits (s : string) (rest : RegExp.regex) : RegExp.regex :=
  match s with
  | EmptyString => rest
  | String c s' => RegExp.Seq (RegExp.Lit c) (lits s' rest)
  end.

(** One or more white-space characters; one or more colons or white-space
    characters. *)
Definition spaces : RegExp.regex :=
  RegExp.Repeat 1 None true (RegExp.CharSet false [RegExp.CClass false RegExp.Space]).

Definition colons_or_spaces : RegExp.regex :=
  RegExp.Repeat 1 None true
    (RegExp.CharSet false [RegExp.CChar ":"; RegExp.CClass false RegExp.Space]).

Definition boundary : RegExp.regex := RegExp.Assert RegExp.WordB.

(** The phrases "WORD NAME", "WORD WORD NAME" and "LABEL: NAME", each one
    between two word boundaries. *)
Definition word_name (w name : string) : RegExp.regex :=
  RegExp.Seq boundary (lits w (RegExp.Seq spaces (lits name boundary))).

Definition two_words_name (w1 w2 name : string) : RegExp.regex :=
  RegExp.Seq boundary
    (lits w1 (RegExp.Seq spaces (lits w2 (RegExp.Seq spaces (lits name boundary))))).

Definition label_name (label name : string) : RegExp.regex :=
  RegExp.Seq boundary (lits label (RegExp.Seq colons_or_spaces (lits name boundary))).

Definition receiver_phrases (name : string) : list RegExp.regex := [
  word_name "to" name;
  two_words_name "credited" "to" name;
  label_name "beneficiary" name;
  label_name "receiver" name;
  label_name "recipient" name;
  two_words_name "payment" "to" name
].

Definition sender_phrases (name : string) : list RegExp.regex := [
  word_name "from" name;
  label_name "sender" name;
  word_name "by" name;
  two_words_name "transfer" "from" name
].

(** The phrase occurs somewhere in the text, letter case ignored. *)
Definition occurs (phrase : RegExp.regex) (text : string) : bool :=
  RegExp.test {| RegExp.ast := phrase; RegExp.ignoreCase := true |} text.

(** A profile is present when its name is not the empty string; NAME is
    the name without the white space around it, taken as a literal. *)
Definition receiver_phrase_match (userName text : string) : bool :=
  Js.truthy userName
  && existsb (fun phrase => occurs phrase text) (receiver_phrases (Js.trim userName)).

Definition sender_phrase_match (userName text : string) : bool :=
  Js.truthy userName
  && existsb (fun phrase => occurs phrase text) (sender_phrases (Js.trim userName)).

(** A critical debit term stands in the text as a whole word. *)
Definition whole_word (w text : string) : bool :=
  occurs (RegExp.Seq boundary (lits w boundary)) text.

Definition has_critical_debit_term (text : string) : bool :=
  existsb (fun w => whole_word w text) ["debit"; "dr"].

Definition has_debit_keyword (text : string) : bool :=
  existsb (fun keyword => Js.includes (Js.toLowerCase text) keyword) DEBIT_KEYWORDS.

Definition has_credit_keyword (text : string) : bool :=
  existsb (fun keyword => Js.includes (Js.toLowerCase text) keyword) CREDIT_KEYWORDS.

Definition reason_empty := "Please enter SMS text or use OCR.".
Definition reason_debit := "Debit detected! Only credit income alerts are accepted.".
Definition reason_unconfirmed := "Unable to confirm this is a credit alert.".
Definition reason_amount := "Could not extract a valid amount from the SMS.".

Definition decision_rules (userName text : string) : list rule := [
  {| applies := whitespace_only text; decision := RejectedAmbiguous reason_empty |};
  {| applies := receiver_phrase_match userName text; decision := Accepted |};
  {| applies := has_critical_debit_term text; decision := RejectedDebit reason_debit |};
  {| applies := sender_phrase_match userName text; decision := RejectedDebit reason_debit |};
  {| applies := has_debit_keyword text; decision := RejectedDebit reason_debit |};
  {| applies := negb (has_credit_keyword text);
     decision := RejectedAmbiguous reason_unconfirmed |}
].

Definition classify_by_rules (userName text : string) : Decision :=
  first_match (decision_rules userName text) Accepted.

(** ** Auxiliary definitions: bracket tables *)

Definition unbounded (b : TaxBracket) : bool :=
  match limit b with
  | Infinity => true
  | Finite _ => false
  end.

(** A bracket table in the order the loops expect: the finite limits do not
    decrease, starting from [prev]. *)
Fixpoint ascending (prev : Q) (brackets : list TaxBracket) : Prop :=
  match brackets with
  | [] => True
  | b :: rest =>
      match limit b with
      | Finite l => (prev <= l)%Q /\ ascending l rest
      | Infinity => rest = []
      end
  end.

Definition rates_within (lo hi : Q) (brackets : list TaxBracket) : Prop :=
  Forall (fun b => (lo <= rate b)%Q /\ (rate b <= hi)%Q) brackets.

(** The part of [income] that lies inside each bracket of an ascending
    table. *)
Fixpoint slices (brackets : list TaxBracket) (income prev : Q) : list Q :=
  match brackets with
  | [] => []
  | b :: rest =>
      match limit b with
      | Finite l => Qmax (Qmin income l - prev) 0 :: slices rest income l
      | Infinity => [Qmax (income - prev) 0]
      end
  end.

(** ** Auxiliary definitions: extraction and the ledger *)



(** A profile name whose patterns can be constructed: no name at all, or a
    name with which the first receiver pattern is well formed. *)
Definition well_formed_name (userName : string) : Prop :=
  userName = EmptyString
  \/ exists re,
       RegExp.compile ("\bto\s+" ++ Js.toLowerCase (Js.trim userName) ++ "\b") true = Ok re.

Definition all_positive (l : list Transaction) : Prop :=
  Forall (fun t => (0 < amount t)%Q) l.

Definition clock_a : Ambient :=
  {| now_iso := "2026-11-03T23:59:59.000Z"; randomUUID := "id-1"; storage_ok := true |}.

Definition clock_b : Ambient :=
  {| now_iso := "2026-11-04T00:00:01.000Z"; randomUUID := "id-1"; storage_ok := true |}.

Definition state_of (name text : string) : AppState :=
  {| smsText := text; transactions := []; userName := name;
     selectedImage := None; showDebitPopup := false;
     error := EmptyString; success := EmptyString; stored := None |}.

(** The list in memory is the one last written to storage. *)
Definition in_sync (st : AppState) : Prop :=
  stored st = Some (transactions st).

Definition malformed_name_blank_text : AppState :=
  state_of "John (Jr" "   ".

Definition mary_credit : AppState :=
  state_of EmptyString "You have received a credit of N5,000 from Mary".

(** The characters that mean something in a pattern when they stand outside
    a class and are not preceded by a backslash. *)
Definition syntax_char (c : ascii) : bool :=
  existsb (Ascii.eqb c) ["\"; "("; ")"; "|"; "*"; "+"; "?"; "["; "."; "^"; "$"; "{"]%char.

Fixpoint plain (s : string) : bool :=
  match s with
  | EmptyString => true
  | String c s' => negb (syntax_char c) && plain s'
  end.

(** [w] is what the matcher has read between the states [s] and [s']. *)
Definition span (s s' : mstate) (w : string) : Prop :=
  m_rest s = w ++ m_rest s' /\ m_pos s' = m_pos s + String.length w.

(** The words made of iterations of [L], as the repetition loop counts
    them: it stops when the maximum is 0 or, with the minimum reached, at
    any point. *)
Inductive reps (L : string -> Prop) : nat -> option nat -> string -> Prop :=
| reps_stop mn mx :
    mn = 0 \/ max_is_zero mx = true -> reps L mn mx EmptyString
| reps_more mn mx w1 w2 :
    max_is_zero mx = false -> L w1 ->
    reps L (pred mn) (option_map pred mx) w2 ->
    reps L mn mx (w1 ++ w2).

(** The words a pattern can match, assertions and captures left aside. *)
Fixpoint lang (ic : bool) (r : regex) (w : string) : Prop :=
  match r with
  | Eps | Assert _ => w = EmptyString
  | Lit _ | Dot | CharSet _ _ => exists c, w = String c EmptyString /\ accepts ic r c = true
  | Seq r1 r2 => exists w1 w2, w = w1 ++ w2 /\ lang ic r1 w1 /\ lang ic r2 w2
  | Alt r1 r2 => lang ic r1 w \/ lang ic r2 w
  | Repeat mn mx _ r1 => reps (lang ic r1) mn mx w
  | Group _ r1 => lang ic r1 w
  end.

(** A pattern that ends with the capturing group [n]: the body of that
    group. *)
Fixpoint last_group (n : nat) (r : regex) : option regex :=
  match r with
  | Seq _ r2 => last_group n r2
  | Group k r1 => if k =? n then Some r1 else None
  | _ => None
  end.

Fixpoint all_chars (p : ascii -> bool) (s : string) : bool :=
  match s with
  | EmptyString => true
  | String c s' => p c && all_chars p s'
  end.

Definition not_dot_or_newline (c : ascii) : bool :=
  negb (Ascii.eqb c "." || Ascii.eqb c (ascii_of_nat 10)).

Definition dated_text : string := "Paid 12/03/2024 NGN5,000".

(** An alert of 59 code units (61 bytes: the naira sign has three). *)
Definition naira_alert : string :=
  "Credit alert: ₦5,000.00 paid in to account 0123456789 today".

(** The syntax trees of the two literals, computed once. *)
Definition date_ast : regex := Eval vm_compute in RegExp.ast date_pattern.

Definition description_ast : regex := Eval vm_compute in RegExp.ast description_pattern.

(** The body of the group of the date pattern: its three alternatives. *)
Definition date_group : regex :=
  Eval vm_compute in
    match last_group 1 date_ast with Some body => body | None => Eps end.

(** Two matcher states at the same position of two inputs that differ only
    in letter case. *)
Definition same_but_case (s s' : mstate) : Prop :=
  m_prev s' = option_map Js.lower_char (m_prev s)
  /\ m_rest s' = Js.toLowerCase (m_rest s)
  /\ m_pos s' = m_pos s.

Definition succeeds (x : option mstate) : bool :=
  match x with
  | Some _ => true
  | None => false
  end.

(** Two continuations that succeed together on such states. *)
Definition agree_on_case (k k' : cont) : Prop :=
  forall s s', same_but_case s s' -> succeeds (k s) = succeeds (k' s').

(** *** The text of an OCR response (lines 193-200) *)

Record ContentBlock := {
  block_type : string;
  block_text : string
}.

Definition line_feed : string := String (ascii_of_nat 10) EmptyString.

(** [list.join(sep)] *)
Fixpoint join (sep : string) (l : list string) : string :=
  match l with
  | [] => EmptyString
  | [x] => x
  | x :: rest => x ++ sep ++ join sep rest
  end.

(** [(data.content || []).filter(...).map(...).join('\n')]; [None] is a
    response without [content]. *)
Definition extractedText (content : option (list ContentBlock)) : string :=
  join line_feed
    (map block_text
       (filter (fun block => String.eqb (block_type block) "text")
          (match content with Some blocks => blocks | None => [] end))).

(** The end of [handleImageUpload] once the response has arrived. *)
Definition receiveExtractedText (content : option (list ContentBlock)) (st : AppState)
  : AppState :=
  flashSuccess "Text extracted from image. Review and add transaction."
    (setSmsText (extractedText content) st).

(** *** The rows of the export (lines 359-364) *)

Definition double_quote : ascii := ascii_of_nat 34.

(** The description between two quotes, each quote of its own doubled by
    the [replace] call of the template. *)
Definition quoted (description : string) : string :=
  String double_quote
    (Js.replaceAll double_quote (String double_quote (String double_quote EmptyString))
       description
     ++ String double_quote EmptyString).

Section CsvExport.

(** How a number is printed in a template literal. *)
Variable show_number : Q -> string.

Definition csv_row (t : Transaction) : string :=
  date t ++ "," ++ show_number (amount t) ++ "," ++ quoted (description t) ++ ","
  ++ bank t.

Definition csv (transactions : list Transaction) : string :=
  "Date,Amount,Description,Bank" ++ line_feed ++ join line_feed (map csv_row transactions).

End CsvExport.

(** Two continuations that agree on every state [s] can be followed by. *)
Definition agree_from (s : mstate) (k k' : cont) : Prop :=
  forall s1, advanced 0 s s1 -> k s1 = k' s1.

(** *** Saving the profile name (lines 118-128) *)

(** The state of the name dialog. *)
Record NameDialog := {
  tempName : string;
  showNameInput : bool
}.

Definition setUserName (name : string) (st : AppState) : AppState :=
  {| smsText := smsText st; transactions := transactions st;
     userName := name; selectedImage := selectedImage st;
     showDebitPopup := showDebitPopup st; error := error st;
     success := success st; stored := stored st |}.

(** [failure] is the message of the error thrown by a write that fails. *)
Definition saveUserName (amb : Ambient) (failure : string) (dialog : NameDialog)
  (st : AppState) : AppState * NameDialog :=
  if storage_ok amb then
    (flashSuccess "Name saved successfully" (setUserName (Js.trim (tempName dialog)) st),
     {| tempName := tempName dialog; showNameInput := false |})
  else
    (flashError ("Failed to save name: " ++ failure) st, dialog).

Definition padded_name : NameDialog :=
  {| tempName := "  John Doe "; showNameInput := true |}.

(** Two patterns the matcher cannot tell apart. *)
Definition same_matches (r r' : regex) : Prop :=
  forall k s, matcher true r k s = matcher true r' k s.

Definition as_pattern (phrase : regex) : RegExp.t :=
  {| ast := phrase; ignoreCase := true |}.

(** * Well-formedness of the name patterns *)

Ltac split_ifs :=
  repeat match goal with
    | |- context [if ?b then _ else _] => destruct b
    | |- context [match ?x with Some _ => _ | None => _ end] => destruct x
    end.

Lemma step_agree c st1 st2 :
  ctl st1 = ctl st2 -> agree (fun a b => ctl a = ctl b) (step c st1) (step c st2).
Proof.
  destruct st1 as [k1 c1 q1 n1 m1], st2 as [k2 c2 q2 n2 m2].
  unfold ctl; simpl; intros H; injection H as Hm Hq Hk; subst m2 q2.
  unfold step; simpl.
  destruct m1; simpl.
  all: unfold step_normal, step_escape, step_group_q, step_class, step_class_escape,
         step_brace_min, step_brace_max, close_group, quantify, question, class_char, bind; simpl.
  all: split_ifs; simpl; unfold ctl; simpl; try rewrite Hk; try reflexivity; try exact I.
  all: try (destruct q1; simpl; unfold ctl; simpl; try rewrite Hk; try reflexivity; try exact I).
  all: try (destruct k1, k2; simpl in *; try discriminate; unfold ctl; simpl; try (injection Hk as Hk; rewrite Hk); try reflexivity; try exact I).
  all: try (destruct r; simpl; split_ifs; simpl; unfold ctl; simpl; try rewrite Hk; try reflexivity; try exact I).
Qed.

Lemma agree_bind {A B A' B'} (R : A -> B -> Prop) (R' : A' -> B' -> Prop)
  (x : completion A) (y : completion B) f g :
  agree R x y -> (forall a b, R a b -> agree R' (f a) (g b)) ->
  agree R' (bind x f) (bind y g).
Proof.
  destruct x, y; simpl; intros H Hf; try contradiction; auto.
Qed.

Lemma run_agree src : forall st1 st2,
  ctl st1 = ctl st2 -> agree (fun a b => ctl a = ctl b) (run src st1) (run src st2).
Proof.
  induction src as [|c src IH]; intros st1 st2 H; simpl.
  - exact H.
  - eapply agree_bind; [apply step_agree, H | exact IH].
Qed.

Lemma finish_agree st1 st2 :
  ctl st1 = ctl st2 -> agree (fun _ _ => True) (finish st1) (finish st2).
Proof.
  destruct st1 as [k1 c1 q1 n1 m1], st2 as [k2 c2 q2 n2 m2].
  unfold ctl, finish; simpl; intros H; injection H as Hm Hq Hk; subst m2 q2.
  destruct m1; simpl; auto.
  destruct k1, k2; simpl in *; try discriminate; auto.
Qed.

Lemma run_app a : forall b st, run (a ++ b) st = (st' <- run a st ;; run b st').
Proof.
  induction a as [|c a IH]; intros b st; simpl.
  - reflexivity.
  - destruct (step c st); simpl; auto.
Qed.


Lemma template_agree p1 p2 rest :
  after_prefix p1 -> after_prefix p2 ->
  agree (fun _ _ => True) (compile (p1 ++ rest) true) (compile (p2 ++ rest) true).
Proof.
  intros (s1 & H1 & C1) (s2 & H2 & C2).
  unfold compile, parse. rewrite !run_app, H1, H2. simpl.
  assert (H : agree (fun a b => ctl a = ctl b) (run rest s1) (run rest s2))
    by (apply run_agree; congruence).
  destruct (run rest s1), (run rest s2); simpl in *; try contradiction; auto.
  pose proof (finish_agree _ _ H) as F.
  destruct (finish a), (finish a0); simpl in *; auto.
Qed.


Lemma agree_status {A B} (x : completion A) (y : completion B) :
  agree (fun _ _ => True) x y -> status x = status y.
Proof. destruct x, y; simpl; intros H; try contradiction; reflexivity. Qed.

Lemma template_status p1 p2 rest :
  after_prefix p1 -> after_prefix p2 ->
  status (compile (p1 ++ rest) true) = status (compile (p2 ++ rest) true).
Proof. intros; apply agree_status, template_agree; assumption. Qed.

Lemma compile_all_status l x :
  l <> [] -> (forall s, In s l -> status (compile s true) = x) ->
  status (compile_all l) = x.
Proof.
  induction l as [|s l IH]; intros Hne H; [congruence|].
  simpl. pose proof (H s (or_introl eq_refl)) as Hs.
  destruct (compile s true) as [re| |]; simpl in *; try assumption.
  destruct l as [|s' l'].
  - simpl. assumption.
  - assert (IH' : status (compile_all (s' :: l')) = x).
    { apply IH; [discriminate | intros; apply H; right; assumption]. }
    destruct (compile_all (s' :: l')); simpl in *; assumption.
Qed.

Ltac prefix_ok := eexists; split; [vm_compute; reflexivity | reflexivity].

Ltac template :=
  match goal with
  | |- status (compile (?p ++ ?rest) true) = status (compile (?q ++ ?rest) true) =>
      apply (template_status p q rest); prefix_ok
  end.

Lemma receiver_sources_status name :
  status (compile_all (receiver_sources name)) =
  status (compile ("\bto\s+" ++ name ++ "\b") true).
Proof.
  apply compile_all_status; [discriminate|].
  intros s Hs; unfold receiver_sources in Hs; cbn [In] in Hs.
  repeat (destruct Hs as [<-|Hs]; [template|]).
  contradiction.
Qed.

Lemma sender_sources_status name :
  status (compile_all (sender_sources name)) =
  status (compile ("\bto\s+" ++ name ++ "\b") true).
Proof.
  apply compile_all_status; [discriminate|].
  intros s Hs; unfold sender_sources in Hs; cbn [In] in Hs.
  repeat (destruct Hs as [<-|Hs]; [template|]).
  contradiction.
Qed.

Lemma status_bind_ok {A B} (x : completion A) (f : A -> B) :
  status (a <- x ;; Ok (f a)) = status x.
Proof. destruct x; reflexivity. Qed.

(** The receiver and the sender patterns of a name are well formed together:
    [isUserSender] throws exactly when [isUserReceiver] does. *)
Lemma sender_status userName text :
  status (isUserSender userName text) = status (isUserReceiver userName text).
Proof.
  unfold isUserSender, isUserReceiver.
  destruct (negb (Js.truthy userName)); [reflexivity|].
  rewrite !status_bind_ok, receiver_sources_status, sender_sources_status.
  reflexivity.
Qed.

Lemma critical_loop_total keywords text :
  Forall (fun k => exists re, compile ("\b" ++ k ++ "\b") true = Ok re) keywords ->
  exists b, critical_loop keywords text = Ok b.
Proof.
  induction 1 as [|k l (re & Hre) _ IH]; cbn [critical_loop].
  - eauto.
  - rewrite Hre; cbn [bind]. destruct (test re text); eauto.
Qed.

Lemma isDebitTransaction_total text : exists b, isDebitTransaction text = Ok b.
Proof.
  unfold isDebitTransaction.
  destruct (critical_loop_total CRITICAL_DEBIT_KEYWORDS text) as (b & Hb).
  - repeat constructor; eexists; vm_compute; reflexivity.
  - rewrite Hb; simpl. destruct b; eauto.
Qed.

(** * Progress of the matcher and captured groups *)

Lemma advanced_trans a b s1 s2 s3 :
  advanced a s1 s2 -> advanced b s2 s3 -> advanced (a + b) s1 s3.
Proof. unfold advanced; intros [? ?] [? ?]; split; lia. Qed.

Lemma advanced_weaken a b s1 s2 : b <= a -> advanced a s1 s2 -> advanced b s1 s2.
Proof. unfold advanced; intros ? [? ?]; split; lia. Qed.

Lemma advanced_refl s : advanced 0 s s.
Proof. unfold advanced; split; lia. Qed.

Lemma repeat_loop_progress (body : cont -> cont) (d : nat) :
  (forall k s e, body k s = Some e -> exists s', k s' = Some e /\ advanced d s s') ->
  forall fuel mn mx greedy k s e,
    repeat_loop body fuel mn mx greedy k s = Some e ->
    exists s', k s' = Some e
               /\ advanced (if max_is_zero mx then 0 else if mn =? 0 then 0 else d) s s'.
Proof.
  intros Hbody. induction fuel as [|fuel IH]; intros mn mx greedy k s e H; simpl in H.
  - discriminate.
  - destruct (max_is_zero mx) eqn:Z.
    + exists s. split; [exact H|]. apply advanced_refl.
    + assert (Hiter : forall again_result,
                 body (fun s1 =>
                         if (mn =? 0) && (m_pos s1 =? m_pos s) then None
                         else repeat_loop body fuel (pred mn) (option_map pred mx) greedy k s1) s
                 = Some again_result ->
                 exists s', k s' = Some again_result /\ advanced d s s').
      { intros x Hx. apply Hbody in Hx. destruct Hx as (s1 & Hs1 & A1).
        destruct ((mn =? 0) && (m_pos s1 =? m_pos s)); [discriminate|].
        apply IH in Hs1. destruct Hs1 as (s' & Hk & A2).
        exists s'. split; [exact Hk|].
        eapply advanced_weaken; [|exact (advanced_trans _ _ _ _ _ A1 A2)]. lia. }
      destruct (0 <? mn) eqn:M.
      * apply Hiter in H. destruct H as (s' & Hk & A). exists s'. split; [exact Hk|].
        destruct (mn =? 0); [eapply advanced_weaken; [|exact A]; lia | exact A].
      * apply Nat.ltb_ge in M. assert (mn = 0) by lia. subst mn. simpl.
        destruct greedy; unfold orelse in H.
        -- destruct (body _ s) as [x|] eqn:B.
           ++ injection H as <-. destruct (Hiter x eq_refl) as (s' & Hk & A).
              exists s'. split; [exact Hk|]. eapply advanced_weaken; [|exact A]. lia.
           ++ exists s. split; [exact H|]. apply advanced_refl.
        -- destruct (k s) eqn:K.
           ++ injection H as <-. exists s. split; [exact K|]. apply advanced_refl.
           ++ apply Hiter in H. destruct H as (s' & Hk & A).
              exists s'. split; [exact Hk|]. eapply advanced_weaken; [|exact A]. lia.
Qed.

(** A successful match has called its continuation, at a position at least
    [minlen r] characters further on. *)
Lemma matcher_progress ic r : forall k s e,
  matcher ic r k s = Some e ->
  exists s', k s' = Some e /\ advanced (minlen r) s s'.
Proof.
  assert (One : forall r0 k s e, one_char ic r0 k s = Some e ->
                exists s', k s' = Some e /\ advanced 1 s s').
  { intros r0 k s e H. unfold one_char in H.
    destruct (m_rest s) as [|c rest] eqn:R; [discriminate|].
    destruct (accepts ic r0 c); [|discriminate].
    eexists; split; [exact H|]. unfold advanced; simpl. rewrite R; simpl. split; lia. }
  induction r as [| | | |r1 IH1 r2 IH2|r1 IH1 r2 IH2|mn mx g r1 IH1|n r1 IH1|a];
    intros k s e H; cbn [matcher] in H.
  - exists s. split; [exact H|]. apply advanced_refl.
  - apply One in H. exact H.
  - apply One in H. exact H.
  - apply One in H. exact H.
  - apply IH1 in H. destruct H as (s1 & H & A1).
    apply IH2 in H. destruct H as (s2 & H & A2).
    exists s2. split; [exact H|]. exact (advanced_trans _ _ _ _ _ A1 A2).
  - unfold orelse in H. destruct (matcher ic r1 k s) eqn:M.
    + injection H as <-. apply IH1 in M. destruct M as (s' & Hk & A).
      exists s'. split; [exact Hk|]. eapply advanced_weaken; [|exact A]. simpl. lia.
    + apply IH2 in H. destruct H as (s' & Hk & A).
      exists s'. split; [exact Hk|]. eapply advanced_weaken; [|exact A]. simpl. lia.
  - eapply repeat_loop_progress in H; [exact H|].
    intros k1 s1 e1 H1. apply IH1 in H1. destruct H1 as (s' & Hk & A).
    exists s'. split; [exact Hk|]. exact A.
  - apply IH1 in H. destruct H as (s1 & Hk & A).
    exists (set_cap n s s1). split; [exact Hk|]. exact A.
  - destruct (holds a s); [|discriminate]. exists s. split; [exact H|]. apply advanced_refl.
Qed.

Lemma take_truthy n s : 1 <= n -> 1 <= String.length s -> Js.truthy (Js.take n s) = true.
Proof.
  destruct n as [|n]; [lia|]. destruct s as [|c s]; simpl; [lia|]. reflexivity.
Qed.

Lemma captures_last_match ic n r : captures_last n r = true ->
  forall s e, matcher ic r Some s = Some e ->
  exists g, find (fun p => fst p =? n) (m_caps e) = Some (n, g) /\ Js.truthy g = true.
Proof.
  induction r as [| | | |r1 _ r2 IH2| | |k r1 _|]; cbn [captures_last matcher];
    intros C s e H; try discriminate.
  - apply matcher_progress in H. destruct H as (s1 & H & _). exact (IH2 C s1 e H).
  - apply andb_prop in C. destruct C as [Kn L].
    apply Nat.eqb_eq in Kn. subst k. apply Nat.leb_le in L.
    apply matcher_progress in H. destruct H as (s1 & H & [A1 A2]).
    injection H as <-. simpl. rewrite Nat.eqb_refl.
    eexists; split; [reflexivity|]. apply take_truthy; lia.
Qed.

Lemma scan_match ic r : forall rest prev pos m,
  scan ic r prev rest pos = Some m ->
  exists s e, matcher ic r Some s = Some e /\ captures m = m_caps e.
Proof.
  induction rest as [|c rest IH]; intros prev pos m H; simpl in H.
  - destruct (matcher ic r Some _) eqn:M; [|discriminate].
    injection H as <-. eauto.
  - destruct (matcher ic r Some _) eqn:M.
    + injection H as <-. eauto.
    + exact (IH _ _ _ H).
Qed.

(** When a pattern ends with its first group, [match?.[1]] is truthy for
    every match. *)
Lemma truthy_capture_match re text m :
  captures_last 1 (ast re) = true -> exec re text = Some m ->
  exists g, truthy_capture (Some m) = Some g /\ capture 1 m = Some g.
Proof.
  intros C H. unfold exec in H. apply scan_match in H. destruct H as (s & e & M & Ce).
  destruct (captures_last_match _ _ _ C s e M) as (g & F & T).
  exists g. unfold truthy_capture, capture. rewrite Ce, F. simpl. rewrite T. auto.
Qed.

(** * The decision order *)

Lemma trimStart_empty s : Js.trimStart s = EmptyString <-> whitespace_only s = true.
Proof.
  induction s as [|c s IH]; simpl.
  - tauto.
  - destruct (Js.is_space c); simpl; [exact IH | split; discriminate].
Qed.

Lemma whitespace_only_rev_onto s : forall acc,
  whitespace_only (Js.rev_onto s acc) = whitespace_only s && whitespace_only acc.
Proof.
  induction s as [|c s IH]; intros acc; simpl.
  - reflexivity.
  - rewrite IH; simpl.
    destruct (Js.is_space c), (whitespace_only s), (whitespace_only acc); reflexivity.
Qed.

Lemma whitespace_only_trimStart s :
  whitespace_only (Js.trimStart s) = whitespace_only s.
Proof.
  induction s as [|c s IH]; simpl; [reflexivity|].
  destruct (Js.is_space c) eqn:E; simpl; [exact IH | rewrite E; reflexivity].
Qed.

Lemma rev_empty s : Js.rev s = EmptyString -> s = EmptyString.
Proof.
  unfold Js.rev. destruct s as [|c s]; [reflexivity|]. simpl.
  intros H.
  assert (L : forall u acc,
             String.length (Js.rev_onto u acc) = String.length u + String.length acc).
  { induction u as [|a u IHu]; intros acc; simpl; [reflexivity|]. rewrite IHu; simpl; lia. }
  pose proof (L s (String c EmptyString)) as Hl. rewrite H in Hl. simpl in Hl. lia.
Qed.

(** [!text.trim()] holds exactly for the empty and the whitespace-only texts. *)
Lemma blank_whitespace_only text :
  negb (Js.truthy (Js.trim text)) = whitespace_only text.
Proof.
  unfold Js.trim.
  destruct (whitespace_only text) eqn:W.
  - apply trimStart_empty in W. rewrite W. reflexivity.
  - destruct (Js.rev (Js.trimStart (Js.rev (Js.trimStart text)))) eqn:E; [|reflexivity].
    apply rev_empty in E. apply trimStart_empty in E.
    unfold Js.rev in E. rewrite whitespace_only_rev_onto, whitespace_only_trimStart, W in E.
    discriminate.
Qed.

Lemma status_ok {A} (x : completion A) : status x = Ok tt -> exists a, x = Ok a.
Proof. destruct x; simpl; intros H; try discriminate; eauto. Qed.

Lemma handleAddTransaction_dispatch amb st :
  handleAddTransaction amb st =
  (d <- classify (userName st) (smsText st) ;; Ok (dispatch amb st d)).
Proof.
  unfold handleAddTransaction, classify.
  destruct (negb (Js.truthy (Js.trim (smsText st)))); [reflexivity|].
  destruct (isUserReceiver (userName st) (smsText st)) as [[|]| |]; cbn [bind]; try reflexivity.
  destruct (isUserSender (userName st) (smsText st)) as [[|]| |]; cbn [bind]; try reflexivity.
  destruct (isDebitTransaction (smsText st)) as [[|]| |]; cbn [bind]; try reflexivity.
  destruct (negb (isCreditTransaction (smsText st))); reflexivity.
Qed.

(** * Extraction, rejections and the ledger *)

Lemma well_formed_receiver userName text :
  well_formed_name userName -> exists b, isUserReceiver userName text = Ok b.
Proof.
  intros W. apply status_ok. unfold isUserReceiver.
  destruct userName as [|c u]; [reflexivity|].
  destruct W as [W|(re & W)]; [discriminate|].
  cbn [Js.truthy negb]. rewrite status_bind_ok, receiver_sources_status, W. reflexivity.
Qed.

Lemma well_formed_sender userName text :
  well_formed_name userName -> exists b, isUserSender userName text = Ok b.
Proof.
  intros W. apply status_ok. rewrite sender_status.
  destruct (well_formed_receiver userName text W) as (b & ->). reflexivity.
Qed.




Lemma extractDate_found amb text :
  RegExp.test date_pattern text = true ->
  exists g, truthy_capture (RegExp.exec date_pattern text) = Some g
            /\ extractDate amb text = Js.replaceAll "/" "-" g.
Proof.
  unfold RegExp.test, extractDate.
  destruct (RegExp.exec date_pattern text) as [m|] eqn:E; [|discriminate].
  intros _. destruct (truthy_capture_match date_pattern text m eq_refl E) as (g & T & _).
  exists g. rewrite T. auto.
Qed.

Lemma extractDate_fallback amb text :
  RegExp.test date_pattern text = false ->
  extractDate amb text = Js.beforeFirst "T" (now_iso amb).
Proof.
  unfold RegExp.test, extractDate.
  destruct (RegExp.exec date_pattern text); [discriminate|]. reflexivity.
Qed.

Lemma acceptCredit_transactions amb st :
  transactions (acceptCredit amb st) =
  if Qle_bool (extractAmount (smsText st)) 0 then transactions st
  else parseSMS amb (smsText st) :: transactions st.
Proof.
  unfold acceptCredit, persistTransactions_then. cbn [amount parseSMS].
  destruct (Qle_bool (extractAmount (smsText st)) 0); [reflexivity|].
  destruct (storage_ok amb); reflexivity.
Qed.

Lemma acceptCredit_error amb st :
  Qle_bool (extractAmount (smsText st)) 0 = true ->
  error (acceptCredit amb st) = "Could not extract a valid amount from the SMS.".
Proof.
  intros H. unfold acceptCredit. cbn [amount parseSMS]. rewrite H. reflexivity.
Qed.

(** X23. With no profile name, or with a name for which the first
    receiver pattern parses, adding a transaction always ends with a state,
    and every rejection (no text, a debit, an unconfirmed alert, no amount)
    leaves its non-empty reason in the error banner and the transaction list
    as it was. *)
Theorem rejections_are_values :
  forall amb st,
    well_formed_name (userName st) ->
    exists d st',
      classify (userName st) (smsText st) = Ok d
      /\ handleAddTransaction amb st = Ok st'
      /\ match d with
         | RejectedDebit r | RejectedAmbiguous r =>
             r <> EmptyString /\ error st' = r /\ transactions st' = transactions st
         | Accepted =>
             if Qle_bool (extractAmount (smsText st)) 0
             then error st' = "Could not extract a valid amount from the SMS."
                  /\ transactions st' = transactions st
             else transactions st' = parseSMS amb (smsText st) :: transactions st
         end.
Proof.
  intros amb st W.
  rewrite handleAddTransaction_dispatch.
  assert (D : exists d, classify (userName st) (smsText st) = Ok d
                        /\ match d with
                           | RejectedDebit r | RejectedAmbiguous r => r <> EmptyString
                           | Accepted => True
                           end).
  { unfold classify.
    destruct (negb (Js.truthy (Js.trim (smsText st)))).
    { eexists; split; [reflexivity|]. discriminate. }
    destruct (well_formed_receiver _ (smsText st) W) as (r & ->).
    destruct (well_formed_sender _ (smsText st) W) as (s & ->).
    destruct (isDebitTransaction_total (smsText st)) as (b & ->).
    cbn [bind].
    destruct r; [eexists; split; [reflexivity | exact I]|].
    destruct s; cbn [bind].
    { eexists; split; [reflexivity|]. discriminate. }
    destruct b.
    { eexists; split; [reflexivity|]. discriminate. }
    destruct (negb (isCreditTransaction (smsText st))).
    { eexists; split; [reflexivity|]. discriminate. }
    eexists; split; [reflexivity | exact I]. }
  destruct D as (d & -> & R). cbn [bind].
  exists d, (dispatch amb st d). split; [reflexivity|]. split; [reflexivity|].
  destruct d as [|r|r]; cbn [dispatch].
  - pose proof (acceptCredit_transactions amb st) as T.
    pose proof (acceptCredit_error amb st) as E.
    destruct (Qle_bool (extractAmount (smsText st)) 0); auto.
  - auto.
  - auto.
Qed.

Lemma rejections_are_values_witness :
  exists d st',
    classify "John Doe" "Your account was debited N2,000 by John" = Ok d
    /\ handleAddTransaction clock_a
         (state_of "John Doe" "Your account was debited N2,000 by John") = Ok st'
    /\ match d with
       | RejectedDebit r | RejectedAmbiguous r =>
           r <> EmptyString /\ error st' = r /\ transactions st' = []
       | Accepted =>
           if Qle_bool (extractAmount "Your account was debited N2,000 by John") 0
           then error st' = "Could not extract a valid amount from the SMS."
                /\ transactions st' = []
           else transactions st' =
                [parseSMS clock_a "Your account was debited N2,000 by John"]
       end.
Proof.
  apply (rejections_are_values clock_a
           (state_of "John Doe" "Your account was debited N2,000 by John")).
  right. eexists. vm_compute. reflexivity.
Defined.

Lemma Qle_bool_false_lt x y : Qle_bool x y = false -> (y < x)%Q.
Proof.
  intros H. apply Qnot_le_lt. intros L. apply Qle_bool_iff in L. congruence.
Qed.

Lemma acceptCredit_positive amb st :
  all_positive (transactions st) -> all_positive (transactions (acceptCredit amb st)).
Proof.
  intros P. rewrite acceptCredit_transactions.
  destruct (Qle_bool (extractAmount (smsText st)) 0) eqn:E; [exact P|].
  constructor; [|exact P]. apply Qle_bool_false_lt in E. exact E.
Qed.

(** C8. [acceptCredit] does not append a transaction whose amount is 0 or
    less, so a list in which every amount is positive stays so through
    [acceptCredit] and through [handleAddTransaction]. *)
Theorem ledger_amounts_positive :
  forall amb st,
    all_positive (transactions st) ->
    all_positive (transactions (acceptCredit amb st))
    /\ (forall st', handleAddTransaction amb st = Ok st' ->
                    all_positive (transactions st'))
    /\ ((extractAmount (smsText st) <= 0)%Q ->
        transactions (acceptCredit amb st) = transactions st).
Proof.
  intros amb st P. split; [|split].
  - apply acceptCredit_positive, P.
  - intros st' H. rewrite handleAddTransaction_dispatch in H.
    destruct (classify (userName st) (smsText st)) as [d| |]; try discriminate.
    injection H as <-. destruct d; cbn [dispatch]; [apply acceptCredit_positive, P | exact P | exact P].
  - intros L. rewrite acceptCredit_transactions.
    apply Qle_bool_iff in L. rewrite L. reflexivity.
Qed.

Lemma ledger_amounts_positive_witness :
  all_positive (transactions (acceptCredit clock_a (state_of "" "NGN 12,345.50 credited to your account")))
  /\ (forall st', handleAddTransaction clock_a
                    (state_of "" "NGN 12,345.50 credited to your account") = Ok st' ->
                  all_positive (transactions st'))
  /\ ((extractAmount "NGN 12,345.50 credited to your account" <= 0)%Q ->
      transactions (acceptCredit clock_a (state_of "" "NGN 12,345.50 credited to your account"))
      = []).
Proof.
  apply (ledger_amounts_positive clock_a
           (state_of "" "NGN 12,345.50 credited to your account")).
  constructor.
Defined.

(** C5: the code at the failing inputs.  The name goes into the pattern
    source as it is: an unbalanced parenthesis makes the construction of the
    patterns throw, and a dot in the name matches any character. *)
Theorem name_is_not_escaped :
  isUserReceiver "John (Jr" "NGN5,000 credited to John (Jr" = SyntaxError
  /\ handleAddTransaction clock_a
       (state_of "John (Jr" "NGN5,000 credited to John (Jr") = SyntaxError
  /\ isUserReceiver "J. Doe" "NGN500 sent to JA Doe" = Ok true
  /\ classify "J. Doe" "NGN500 sent to JA Doe" = Ok Accepted
  /\ classify EmptyString "NGN500 sent to JA Doe"
     = Ok (RejectedDebit "Debit detected! Only credit income alerts are accepted.").
Proof. repeat split; vm_compute; reflexivity. Qed.

(** C1: the code at the failing inputs.  The rules give a decision for every
    text and name; the handler gives none when the name makes a pattern
    malformed, and a different one when a character of the name is read as
    pattern syntax.  The defect is the one of C5. *)
Theorem decision_order_breaks_on_pattern_syntax :
  classify_by_rules "John (Jr" "DR 500" = RejectedDebit reason_debit
  /\ classify "John (Jr" "DR 500" = SyntaxError
  /\ classify_by_rules "J. Doe" "NGN500 sent to JA Doe" = RejectedDebit reason_debit
  /\ classify "J. Doe" "NGN500 sent to JA Doe" = Ok Accepted.
Proof. repeat split; vm_compute; reflexivity. Qed.

(** C2: the code at the failing inputs.  Both texts name the user as the
    receiver, in so many words; with the first name the handler throws, with
    the second it does not see the phrase and turns the alert away as a
    debit.  The defect is the one of C5. *)
Theorem receiver_override_breaks_on_pattern_syntax :
  receiver_phrase_match "John (Jr" "NGN5,000 credited to John (Jr" = true
  /\ classify_by_rules "John (Jr" "NGN5,000 credited to John (Jr" = Accepted
  /\ classify "John (Jr" "NGN5,000 credited to John (Jr" = SyntaxError
  /\ receiver_phrase_match "Ade (Jnr) Obi" "Debit alert: NGN500 payment to Ade (Jnr) Obi"
     = true
  /\ classify_by_rules "Ade (Jnr) Obi" "Debit alert: NGN500 payment to Ade (Jnr) Obi"
     = Accepted
  /\ classify "Ade (Jnr) Obi" "Debit alert: NGN500 payment to Ade (Jnr) Obi"
     = Ok (RejectedDebit reason_debit).
Proof. repeat split; vm_compute; reflexivity. Qed.

(** C7: the code at the failing input.  A debit alert is a rejection by the
    rules; with a name that makes a pattern malformed the handler throws
    instead of setting the reason, while with no name it sets it.  The
    defect is the one of C5. *)
Theorem rejection_is_thrown_on_malformed_name :
  classify_by_rules "John (Jr" "Your account was debited N2,000 by John"
  = RejectedDebit reason_debit
  /\ handleAddTransaction clock_a
       (state_of "John (Jr" "Your account was debited N2,000 by John")
     = SyntaxError
  /\ handleAddTransaction clock_a
       (state_of EmptyString "Your account was debited N2,000 by John")
     = Ok (flashError reason_debit
             (setShowDebitPopup true
                (state_of EmptyString "Your account was debited N2,000 by John"))).
Proof. repeat split; vm_compute; reflexivity. Qed.

(** * The tax engine *)

Section TaxLemmas.

Local Open Scope Q_scope.

Lemma Qle_bool_false x y : Qle_bool x y = false -> y < x.
Proof.
  intros H. apply Qnot_le_lt. intros L. apply Qle_bool_iff in L. congruence.
Qed.

Lemma clamp_bounds rem cap : 0 <= rem ->
  0 <= Qmax (Qmin rem cap) 0 /\ Qmax (Qmin rem cap) 0 <= rem.
Proof.
  intros H.
  destruct (Q.max_spec (Qmin rem cap) 0) as [[? E]|[? E]];
  destruct (Q.min_spec rem cap) as [[? F]|[? F]];
  rewrite E; try rewrite F; split; lra.
Qed.

Lemma clamp_self rem : 0 <= rem -> Qmax (Qmin rem rem) 0 == rem.
Proof.
  intros H.
  destruct (Q.max_spec (Qmin rem rem) 0) as [[? E]|[? E]];
  destruct (Q.min_spec rem rem) as [[? F]|[? F]];
  rewrite E; try rewrite F; rewrite ?F in *; lra.
Qed.

(** What a row takes when the income reaches [p], the bracket ends at [l]
    and [rem] is the income above [p]. *)
Lemma clamp_finite rem l p : 0 <= rem -> p <= l ->
  Qmax (Qmin rem (Qmax (Qmin (l - p) rem) 0)) 0 == Qmin rem (l - p).
Proof.
  intros H L.
  destruct (Q.min_spec (l - p) rem) as [[? F]|[? F]];
  destruct (Q.max_spec (Qmin (l - p) rem) 0) as [[? E]|[? E]];
  destruct (Q.min_spec rem (Qmax (Qmin (l - p) rem) 0)) as [[? G]|[? G]];
  destruct (Q.max_spec (Qmin rem (Qmax (Qmin (l - p) rem) 0)) 0) as [[? K]|[? K]];
  destruct (Q.min_spec rem (l - p)) as [[? M]|[? M]];
  rewrite K, M; rewrite ?G, ?E, ?F in *; lra.
Qed.

Lemma taxable_bounds bracket prev rem : 0 <= rem ->
  0 <= Qmax (Qmin rem (bracketCap bracket prev rem)) 0
  /\ Qmax (Qmin rem (bracketCap bracket prev rem)) 0 <= rem.
Proof. apply clamp_bounds. Qed.

Lemma breakdown_sum_le brackets : forall rem prev, 0 <= rem ->
  0 <= sumQ (map taxable (taxBreakdown_loop brackets rem prev))
  /\ sumQ (map taxable (taxBreakdown_loop brackets rem prev)) <= rem.
Proof.
  induction brackets as [|b rest IH]; intros rem prev H; simpl.
  - split; lra.
  - destruct (taxable_bounds b prev rem H) as [T0 T1].
    set (t := Qmax (Qmin rem (bracketCap b prev rem)) 0) in *.
    destruct (IH (rem - t) (limit b)) as [S0 S1]; [lra|].
    split; lra.
Qed.

(** Once an unbounded bracket is in the table the rows take the whole
    income. *)
Lemma breakdown_sum brackets : forall rem prev, 0 <= rem ->
  existsb unbounded brackets = true ->
  sumQ (map taxable (taxBreakdown_loop brackets rem prev)) == rem.
Proof.
  induction brackets as [|b rest IH]; intros rem prev H U; simpl in *.
  - discriminate.
  - destruct (taxable_bounds b prev rem H) as [T0 T1].
    unfold unbounded in U at 1. unfold bracketCap in *.
    destruct (limit b) as [l|] eqn:Lb; simpl in U; cbv beta iota in *.
    + set (t := Qmax (Qmin rem match prev with
                               | Finite p => Qmax (Qmin (l - p) rem) 0
                               | Infinity => 0 end) 0) in *.
      rewrite (IH (rem - t) (Finite l)); [lra | lra | exact U].
    + pose proof (clamp_self rem H) as C.
      set (t := Qmax (Qmin rem rem) 0) in *.
      destruct (breakdown_sum_le rest (rem - t) Infinity) as [S0 S1]; [lra|].
      lra.
Qed.

Lemma breakdown_rows brackets : forall rem prev,
  map row_limit (taxBreakdown_loop brackets rem prev) = map limit brackets
  /\ map row_rate (taxBreakdown_loop brackets rem prev) = map rate brackets.
Proof.
  induction brackets as [|b rest IH]; intros rem prev; simpl.
  - split; reflexivity.
  - destruct (IH (rem - Qmax (Qmin rem (bracketCap b prev rem)) 0) (limit b)) as [-> ->].
    split; reflexivity.
Qed.

(** With nothing left, every further row is empty. *)
Lemma breakdown_exhausted brackets : forall rem prev, rem <= 0 ->
  Forall (fun row => taxable row == 0 /\ tax row == 0)
         (taxBreakdown_loop brackets rem prev).
Proof.
  induction brackets as [|b rest IH]; intros rem prev H; simpl.
  - constructor.
  - assert (T : Qmax (Qmin rem (bracketCap b prev rem)) 0 == 0).
    { destruct (Q.max_spec (Qmin rem (bracketCap b prev rem)) 0) as [[? E]|[? E]];
      destruct (Q.min_spec rem (bracketCap b prev rem)) as [[? F]|[? F]];
      rewrite E; rewrite ?F in *; lra. }
    constructor.
    + simpl. split; [exact T | rewrite T; lra].
    + apply IH. rewrite T. lra.
Qed.

Lemma sum_tax_exhausted rows :
  Forall (fun row => taxable row == 0 /\ tax row == 0) rows ->
  sumQ (map tax rows) == 0.
Proof.
  induction 1 as [|row rows [_ T] _ IH]; simpl; [lra|]. rewrite T, IH. lra.
Qed.

(** The scalar loop and the rows agree from any bracket on, when [rem] is
    the income above the previous limit. *)
Lemma calculateTax_loop_breakdown brackets : forall income tax0 prev rem,
  rem == income - prev -> 0 <= rem -> ascending prev brackets ->
  calculateTax_loop brackets income tax0 prev
  == tax0 + sumQ (map tax (taxBreakdown_loop brackets rem (Finite prev))).
Proof.
  induction brackets as [|b rest IH]; intros income tax0 prev rem E H A; simpl in *.
  - lra.
  - unfold bracketCap. destruct (limit b) as [l|] eqn:Lb; cbv beta iota.
    + destruct A as [PL A].
      pose proof (clamp_finite rem l prev H PL) as C.
      set (t := Qmax (Qmin rem (Qmax (Qmin (l - prev) rem) 0)) 0) in *.
      clearbody t.
      destruct (Q.min_spec rem (l - prev)) as [[? M]|[? M]]; rewrite M in C.
      * (* the income ends in this bracket *)
        assert (Hle : Qle_bool income l = true) by (apply Qle_bool_iff; lra).
        rewrite Hle.
        rewrite (sum_tax_exhausted _ (breakdown_exhausted rest (rem - t) (Finite l) ltac:(lra))).
        rewrite C, E. lra.
      * destruct (Qle_bool income l) eqn:Hle.
        -- apply Qle_bool_iff in Hle.
           rewrite (sum_tax_exhausted _ (breakdown_exhausted rest (rem - t) (Finite l) ltac:(lra))).
           rewrite C. assert (income - prev == l - prev) by lra.
           rewrite H1. lra.
        -- apply Qle_bool_false in Hle.
           assert (P : t * rate b == (l - prev) * rate b) by (rewrite C; reflexivity).
           rewrite (IH income _ l (rem - t)); [lra | lra | lra | exact A].
    + pose proof (clamp_self rem H) as C.
      set (t := Qmax (Qmin rem rem) 0) in *. clearbody t.
      rewrite (sum_tax_exhausted _ (breakdown_exhausted rest (rem - t) Infinity ltac:(lra))).
      rewrite C, E. lra.
Qed.

Lemma calculateTax_loop_lower brackets : forall income tax0 prev,
  prev <= income -> ascending prev brackets -> rates_within 0 1 brackets ->
  tax0 <= calculateTax_loop brackets income tax0 prev.
Proof.
  induction brackets as [|b rest IH]; intros income tax0 prev P A R; simpl in *.
  - lra.
  - inversion R as [|? ? [R0 R1] R']; subst.
    assert (0 <= (income - prev) * rate b) by (apply Qmult_le_0_compat; lra).
    destruct (limit b) as [l|]; [|lra].
    destruct A as [PL A].
    destruct (Qle_bool income l) eqn:Hle; [lra|].
    apply Qle_bool_false in Hle.
    eapply Qle_trans; [|apply IH; [lra | exact A | exact R']].
    assert (0 <= (l - prev) * rate b) by (apply Qmult_le_0_compat; lra). lra.
Qed.

Lemma calculateTax_loop_upper brackets : forall income tax0 prev,
  prev <= income -> ascending prev brackets -> rates_within 0 1 brackets ->
  calculateTax_loop brackets income tax0 prev <= tax0 + (income - prev).
Proof.
  induction brackets as [|b rest IH]; intros income tax0 prev P A R; simpl in *.
  - lra.
  - inversion R as [|? ? [R0 R1] R']; subst.
    assert (0 <= (income - prev) * (1 - rate b)) by (apply Qmult_le_0_compat; lra).
    destruct (limit b) as [l|]; [|lra].
    destruct A as [PL A].
    destruct (Qle_bool income l) eqn:Hle; [lra|].
    apply Qle_bool_false in Hle.
    eapply Qle_trans; [apply IH; [lra | exact A | exact R']|].
    assert (0 <= (l - prev) * (1 - rate b)) by (apply Qmult_le_0_compat; lra). lra.
Qed.

Lemma calculateTax_loop_mono brackets : forall a b tax0 prev,
  a <= b -> prev <= a -> ascending prev brackets -> rates_within 0 1 brackets ->
  calculateTax_loop brackets a tax0 prev <= calculateTax_loop brackets b tax0 prev.
Proof.
  induction brackets as [|br rest IH]; intros a b tax0 prev AB P A R; simpl in *.
  - lra.
  - inversion R as [|? ? [R0 R1] R']; subst.
    assert (0 <= (b - a) * rate br) by (apply Qmult_le_0_compat; lra).
    destruct (limit br) as [l|]; [|lra].
    destruct A as [PL A].
    destruct (Qle_bool a l) eqn:Ha, (Qle_bool b l) eqn:Hb.
    + lra.
    + apply Qle_bool_iff in Ha. apply Qle_bool_false in Hb.
      eapply Qle_trans;
        [|apply calculateTax_loop_lower; [lra | exact A | exact R']].
      assert (0 <= (l - a) * rate br) by (apply Qmult_le_0_compat; lra). lra.
    + apply Qle_bool_false in Ha. apply Qle_bool_iff in Hb. lra.
    + apply Qle_bool_false in Ha. apply IH; [lra | lra | exact A | exact R'].
Qed.

Lemma slice_step income rem l p :
  rem == Qmax (income - p) 0 -> p <= l ->
  Qmin rem (l - p) == Qmax (Qmin income l - p) 0
  /\ rem - Qmin rem (l - p) == Qmax (income - l) 0.
Proof.
  intros E L.
  destruct (Q.max_spec (income - p) 0) as [[? A]|[? A]];
  destruct (Q.min_spec rem (l - p)) as [[? B]|[? B]];
  destruct (Q.min_spec income l) as [[? C]|[? C]];
  destruct (Q.max_spec (Qmin income l - p) 0) as [[? D]|[? D]];
  destruct (Q.max_spec (income - l) 0) as [[? F]|[? F]];
  rewrite A in E; rewrite B, D, F; rewrite ?C in *; split; lra.
Qed.

(** Each row takes the part of the income that lies inside its bracket. *)
Lemma breakdown_slices brackets : forall income prev rem,
  rem == Qmax (income - prev) 0 -> ascending prev brackets ->
  Forall2 Qeq (map taxable (taxBreakdown_loop brackets rem (Finite prev)))
              (slices brackets income prev).
Proof.
  induction brackets as [|b rest IH]; intros income prev rem E A; simpl in *.
  - constructor.
  - assert (H : 0 <= rem).
    { destruct (Q.max_spec (income - prev) 0) as [[? M]|[? M]]; rewrite M in E; lra. }
    unfold bracketCap. destruct (limit b) as [l|] eqn:Lb; cbv beta iota.
    + destruct A as [PL A].
      pose proof (clamp_finite rem l prev H PL) as C.
      destruct (slice_step income rem l prev E PL) as [S1 S2].
      set (t := Qmax (Qmin rem (Qmax (Qmin (l - prev) rem) 0)) 0) in *.
      clearbody t.
      constructor; [lra|]. apply IH; [lra | exact A].
    + subst rest. simpl. constructor; [|constructor].
      rewrite (clamp_self rem H). exact E.
Qed.

Lemma remaining_nonpositive income l : income <= l -> Qmax (income - l) 0 <= 0.
Proof.
  intros H. destruct (Q.max_spec (income - l) 0) as [[? M]|[? M]]; rewrite M; lra.
Qed.

(** The rows after a bracket that the income does not exceed are empty. *)
Lemma breakdown_unreached brackets : forall income prev rem n b l,
  rem == Qmax (income - prev) 0 -> ascending prev brackets ->
  nth_error brackets n = Some b -> limit b = Finite l -> income <= l ->
  Forall (fun row => taxable row == 0 /\ tax row == 0)
         (skipn (S n) (taxBreakdown_loop brackets rem (Finite prev))).
Proof.
  induction brackets as [|b0 rest IH]; intros income prev rem n b l E A N Lb I.
  - destruct n; discriminate.
  - assert (H : 0 <= rem).
    { destruct (Q.max_spec (income - prev) 0) as [[? M]|[? M]]; rewrite M in E; lra. }
    cbn [taxBreakdown_loop skipn]. cbn [ascending] in A.
    destruct n as [|n]; cbn [nth_error] in N.
    + injection N as ->. rewrite Lb in *. destruct A as [PL A].
      unfold bracketCap. rewrite Lb.
      pose proof (clamp_finite rem l prev H PL) as C.
      destruct (slice_step income rem l prev E PL) as [_ S2].
      pose proof (remaining_nonpositive income l I).
      apply breakdown_exhausted. lra.
    + destruct (limit b0) as [l0|] eqn:L0.
      * destruct A as [PL A].
        unfold bracketCap. rewrite L0.
        pose proof (clamp_finite rem l0 prev H PL) as C.
        destruct (slice_step income rem l0 prev E PL) as [_ S2].
        apply (IH income l0 _ n b l); [lra | exact A | exact N | exact Lb | exact I].
      * subst rest. destruct n; discriminate.
Qed.

Lemma TAX_BRACKETS_ascending : ascending 0 TAX_BRACKETS.
Proof. simpl. repeat split; try lra. Qed.

Lemma TAX_BRACKETS_rates : rates_within 0 1 TAX_BRACKETS.
Proof. unfold TAX_BRACKETS. repeat constructor; simpl; lra. Qed.

Lemma Qmax_self_0 income : 0 <= income -> income == Qmax (income - 0) 0.
Proof.
  intros H. destruct (Q.max_spec (income - 0) 0) as [[? M]|[? M]]; rewrite M; lra.
Qed.

(** C3. For an income that is not negative the breakdown has one row for
    each bracket of [TAX_BRACKETS], in order; the taxable amounts of the
    rows add up to the income; and the rows after a bracket that the income
    does not exceed have taxable amount and tax 0. *)
Theorem taxBreakdown_covers_income :
  forall income,
    0 <= income ->
    map row_limit (taxBreakdown income) = map limit TAX_BRACKETS
    /\ map row_rate (taxBreakdown income) = map rate TAX_BRACKETS
    /\ sumQ (map taxable (taxBreakdown income)) == income
    /\ (forall n b l,
          nth_error TAX_BRACKETS n = Some b -> limit b = Finite l -> income <= l ->
          Forall (fun row => taxable row == 0 /\ tax row == 0)
                 (skipn (S n) (taxBreakdown income))).
Proof.
  intros income H. unfold taxBreakdown.
  destruct (breakdown_rows TAX_BRACKETS income (Finite 0)) as [R1 R2].
  split; [exact R1|]. split; [exact R2|]. split.
  - apply breakdown_sum; [exact H | reflexivity].
  - intros n b l N Lb I.
    apply (breakdown_unreached TAX_BRACKETS income 0 income n b l);
      [apply Qmax_self_0, H | apply TAX_BRACKETS_ascending | exact N | exact Lb | exact I].
Qed.

Lemma taxBreakdown_covers_income_witness :
  map row_limit (taxBreakdown 1000000) = map limit TAX_BRACKETS
  /\ map row_rate (taxBreakdown 1000000) = map rate TAX_BRACKETS
  /\ sumQ (map taxable (taxBreakdown 1000000)) == 1000000
  /\ (forall n b l,
        nth_error TAX_BRACKETS n = Some b -> limit b = Finite l -> 1000000 <= l ->
        Forall (fun row => taxable row == 0 /\ tax row == 0)
               (skipn (S n) (taxBreakdown 1000000))).
Proof.
  apply (taxBreakdown_covers_income 1000000). lra.
Defined.

(** C4. The tax does not decrease when the income grows, and it never
    exceeds the income. *)
Theorem calculateTax_monotone_bounded :
  forall a b,
    0 <= a -> a <= b ->
    calculateTax a <= calculateTax b
    /\ calculateTax a <= a
    /\ calculateTax b <= b.
Proof.
  intros a b Ha Hab. unfold calculateTax.
  pose proof TAX_BRACKETS_ascending as A. pose proof TAX_BRACKETS_rates as R.
  split; [|split].
  - apply calculateTax_loop_mono; assumption.
  - pose proof (calculateTax_loop_upper TAX_BRACKETS a 0 0 Ha A R). lra.
  - assert (Hb : 0 <= b) by lra.
    pose proof (calculateTax_loop_upper TAX_BRACKETS b 0 0 Hb A R). lra.
Qed.

Lemma calculateTax_monotone_bounded_witness :
  calculateTax 900000 <= calculateTax 4000000
  /\ calculateTax 900000 <= 900000
  /\ calculateTax 4000000 <= 4000000.
Proof.
  apply (calculateTax_monotone_bounded 900000 4000000); lra.
Defined.

(** C10. The tax computed by [calculateTax] is the sum of the taxes of the
    rows of the breakdown of the same income. *)
Theorem calculateTax_is_breakdown_total :
  forall income,
    0 <= income ->
    calculateTax income == sumQ (map tax (taxBreakdown income)).
Proof.
  intros income H. unfold calculateTax, taxBreakdown.
  rewrite (calculateTax_loop_breakdown TAX_BRACKETS income 0 0 income);
    [lra | lra | exact H | apply TAX_BRACKETS_ascending].
Qed.

Lemma calculateTax_is_breakdown_total_witness :
  calculateTax 4000000 == sumQ (map tax (taxBreakdown 4000000)).
Proof.
  apply (calculateTax_is_breakdown_total 4000000). lra.
Defined.

End TaxLemmas.

(** * Further properties of the handlers *)

(** X1. A text that is empty or only white space is turned away before any
    pattern is built: the handler ends normally whatever the profile name
    is, sets the error banner and changes nothing else. *)
Theorem blank_text_is_rejected_first :
  forall amb st,
    whitespace_only (smsText st) = true ->
    handleAddTransaction amb st
    = Ok (flashError "Please enter SMS text or use OCR." st).
Proof.
  intros amb st B. unfold handleAddTransaction.
  rewrite blank_whitespace_only, B. reflexivity.
Qed.

Lemma blank_text_is_rejected_first_witness :
  handleAddTransaction clock_a malformed_name_blank_text
  = Ok (flashError "Please enter SMS text or use OCR." malformed_name_blank_text).
Proof.
  apply (blank_text_is_rejected_first clock_a malformed_name_blank_text).
  reflexivity.
Defined.

Lemma classify_accepted userName text :
  classify userName text = Ok Accepted ->
  whitespace_only text = false
  /\ (isUserReceiver userName text = Ok true
      \/ (isUserReceiver userName text = Ok false
          /\ isUserSender userName text = Ok false
          /\ isDebitTransaction text = Ok false
          /\ isCreditTransaction text = true)).
Proof.
  unfold classify. rewrite blank_whitespace_only.
  destruct (whitespace_only text); [discriminate|]. intros H. split; [reflexivity|].
  destruct (isUserReceiver userName text) as [[|]| |]; cbn [bind] in H; try discriminate.
  - left. reflexivity.
  - right. split; [reflexivity|].
    destruct (isUserSender userName text) as [[|]| |]; cbn [bind] in H; try discriminate.
    destruct (isDebitTransaction text) as [[|]| |]; cbn [bind] in H; try discriminate.
    destruct (isCreditTransaction text); [auto | discriminate].
Qed.

(** X2. The list of transactions changes only by one new transaction at
    its head, with a positive amount, and only if the text is not blank and
    either matches a receiver pattern or has a credit keyword and no sign of
    a debit (no sender pattern, no debit term or keyword). *)
Theorem nothing_is_added_without_a_credit :
  forall amb st st',
    handleAddTransaction amb st = Ok st' ->
    transactions st' <> transactions st ->
    transactions st' = parseSMS amb (smsText st) :: transactions st
    /\ (0 < extractAmount (smsText st))%Q
    /\ whitespace_only (smsText st) = false
    /\ (isUserReceiver (userName st) (smsText st) = Ok true
        \/ (isUserSender (userName st) (smsText st) = Ok false
            /\ isDebitTransaction (smsText st) = Ok false
            /\ isCreditTransaction (smsText st) = true)).
Proof.
  intros amb st st' H N. rewrite handleAddTransaction_dispatch in H.
  destruct (classify (userName st) (smsText st)) as [d| |] eqn:C; try discriminate.
  injection H as <-.
  destruct d; cbn [dispatch] in N |- *; try (exfalso; apply N; reflexivity).
  rewrite acceptCredit_transactions in N |- *.
  destruct (Qle_bool (extractAmount (smsText st)) 0) eqn:A;
    [exfalso; apply N; reflexivity|].
  apply Qle_bool_false_lt in A.
  destruct (classify_accepted _ _ C) as (B & [R|(_ & S & D & K)]); auto 10.
Qed.

Lemma nothing_is_added_without_a_credit_witness :
  transactions (acceptCredit clock_a mary_credit)
  = parseSMS clock_a (smsText mary_credit) :: transactions mary_credit
  /\ (0 < extractAmount (smsText mary_credit))%Q
  /\ whitespace_only (smsText mary_credit) = false
  /\ (isUserReceiver (userName mary_credit) (smsText mary_credit) = Ok true
      \/ (isUserSender (userName mary_credit) (smsText mary_credit) = Ok false
          /\ isDebitTransaction (smsText mary_credit) = Ok false
          /\ isCreditTransaction (smsText mary_credit) = true)).
Proof.
  apply (nothing_is_added_without_a_credit clock_a mary_credit
           (acceptCredit clock_a mary_credit)).
  - vm_compute. reflexivity.
  - vm_compute. discriminate.
Defined.

Lemma decimal_nonneg int frac places : (0 <= Number.decimal int frac places)%Q.
Proof. unfold Number.decimal, Qle; simpl. lia. Qed.

Lemma parseFloat_nonneg s : (0 <= Number.or_zero (Number.parseFloat s))%Q.
Proof.
  unfold Number.parseFloat.
  destruct (Number.digits s 0%N 0) as [[int n_int] rest].
  destruct rest as [|c rest'].
  - destruct (n_int =? 0); simpl; [lra | apply decimal_nonneg].
  - destruct (Ascii.eqb c ".") eqn:E.
    + apply Ascii.eqb_eq in E. subst c.
      destruct (Number.digits rest' 0%N 0) as [[frac n_frac] r2].
      destruct ((n_int =? 0) && (n_frac =? 0)); simpl; [lra | apply decimal_nonneg].
    + assert (X : Number.or_zero
                    match String c rest' with
                    | String "." rest'0 =>
                        let '(frac, n_frac, _) := Number.digits rest'0 0%N 0 in
                        if (n_int =? 0) && (n_frac =? 0) then None
                        else Some (Number.decimal int frac n_frac)
                    | _ => if n_int =? 0 then None else Some (Number.decimal int 0%N 0)
                    end
                  = Number.or_zero
                      (if n_int =? 0 then None else Some (Number.decimal int 0%N 0))).
      { destruct c as [[] [] [] [] [] [] [] []]; try reflexivity. discriminate. }
      rewrite X. destruct (n_int =? 0); simpl; [lra | apply decimal_nonneg].
Qed.

Lemma extractAmount_loop_nonneg patterns text :
  (0 <= extractAmount_loop patterns text)%Q.
Proof.
  induction patterns as [|p l IH]; cbn [extractAmount_loop]; [lra|].
  destruct (truthy_capture (RegExp.exec p text)); [apply parseFloat_nonneg | exact IH].
Qed.

(** X3. The amount taken from a text is never negative, so [acceptCredit]
    turns an alert away exactly when the amount is 0: no pattern matched, or
    the number was not a numeral, or it was zero. *)
Theorem extractAmount_never_negative :
  forall amb st,
    (0 <= extractAmount (smsText st))%Q
    /\ ((extractAmount (smsText st) == 0)%Q ->
        acceptCredit amb st
        = flashError "Could not extract a valid amount from the SMS." st)
    /\ (~ (extractAmount (smsText st) == 0)%Q ->
        transactions (acceptCredit amb st) = parseSMS amb (smsText st) :: transactions st).
Proof.
  intros amb st.
  pose proof (extractAmount_loop_nonneg amount_patterns (smsText st)) as P.
  fold (extractAmount (smsText st)) in P.
  split; [exact P|]. split.
  - intros Z. unfold acceptCredit. cbn [amount parseSMS].
    assert (L : Qle_bool (extractAmount (smsText st)) 0 = true)
      by (apply Qle_bool_iff; lra).
    rewrite L. reflexivity.
  - intros Z. rewrite acceptCredit_transactions.
    destruct (Qle_bool (extractAmount (smsText st)) 0) eqn:L; [|reflexivity].
    apply Qle_bool_iff in L. exfalso. apply Z. lra.
Qed.

Lemma lower_char_idempotent c : Js.lower_char (Js.lower_char c) = Js.lower_char c.
Proof. destruct c as [[] [] [] [] [] [] [] []]; reflexivity. Qed.

Lemma toLowerCase_idempotent s : Js.toLowerCase (Js.toLowerCase s) = Js.toLowerCase s.
Proof.
  unfold Js.toLowerCase. induction s as [|c s IH]; simpl; [reflexivity|].
  rewrite lower_char_idempotent, IH. reflexivity.
Qed.

Lemma extractBank_loop_cases banks text :
  (extractBank_loop banks text = "Unknown"
   /\ Forall (fun bank => Js.includes (Js.toLowerCase text) (Js.toLowerCase bank) = false)
             banks)
  \/ (exists before bank after,
        banks = (before ++ bank :: after)%list
        /\ extractBank_loop banks text = bank
        /\ Js.includes (Js.toLowerCase text) (Js.toLowerCase bank) = true
        /\ Forall (fun b => Js.includes (Js.toLowerCase text) (Js.toLowerCase b) = false)
                  before).
Proof.
  induction banks as [|bank rest IH]; cbn [extractBank_loop].
  - left. split; [reflexivity | constructor].
  - destruct (Js.includes (Js.toLowerCase text) (Js.toLowerCase bank)) eqn:E.
    + right. exists [], bank, rest. repeat split; auto.
    + destruct IH as [[U F]|(before & b & after & -> & R & I & F)].
      * left. split; [exact U | constructor; assumption].
      * right. exists (bank :: before), b, after. repeat split; auto.
Qed.

(** X4. The bank of a transaction is the first name of [BANK_NAMES] that
    occurs in the text, letter case ignored, and "Unknown" exactly when
    none occurs; so it is always one of the eleven configured labels, and it
    does not change when the text is put in lower case. *)
Theorem extractBank_first_known_name :
  forall text,
    In (extractBank text) ("Unknown" :: BANK_NAMES)
    /\ (extractBank text = "Unknown" <->
        Forall (fun bank => Js.includes (Js.toLowerCase text) (Js.toLowerCase bank) = false)
               BANK_NAMES)
    /\ (forall before bank after,
          BANK_NAMES = (before ++ bank :: after)%list ->
          Js.includes (Js.toLowerCase text) (Js.toLowerCase bank) = true ->
          Forall (fun b => Js.includes (Js.toLowerCase text) (Js.toLowerCase b) = false)
                 before ->
          extractBank text = bank)
    /\ extractBank (Js.toLowerCase text) = extractBank text.
Proof.
  intros text. unfold extractBank.
  assert (NU : ~ In "Unknown" BANK_NAMES).
  { unfold BANK_NAMES. cbn [In]. intros H.
    repeat (destruct H as [H|H]; [discriminate|]). exact H. }
  split; [|split; [|split]].
  - destruct (extractBank_loop_cases BANK_NAMES text) as [[U _]|(b0 & b & a & E & R & _)].
    + left. symmetry. exact U.
    + right. rewrite R, E. apply in_or_app. right. left. reflexivity.
  - split.
    + intros U.
      destruct (extractBank_loop_cases BANK_NAMES text) as [[_ F]|(b0 & b & a & E & R & _)];
        [exact F|].
      exfalso. apply NU. rewrite E. apply in_or_app. right. left. congruence.
    + generalize BANK_NAMES. induction 1 as [|b l Hb _ IH]; cbn [extractBank_loop];
        [reflexivity|]. rewrite Hb. exact IH.
  - intros before bank after E I F. rewrite E. clear E NU.
    induction F as [|b l Hb _ IH]; cbn [extractBank_loop app].
    + rewrite I. reflexivity.
    + rewrite Hb. exact IH.
  - generalize BANK_NAMES. induction l as [|b l IH]; cbn [extractBank_loop];
      [reflexivity|]. rewrite toLowerCase_idempotent, IH. reflexivity.
Qed.

Lemma filter_all_positive (f : Transaction -> bool) l :
  all_positive l -> all_positive (filter f l).
Proof.
  unfold all_positive. rewrite !Forall_forall. intros H t I.
  apply filter_In in I. apply H, I.
Qed.

Lemma handleDelete_transactions amb id_ st :
  transactions (handleDelete amb id_ st)
  = filter (fun t => negb (String.eqb (id t) id_)) (transactions st).
Proof.
  unfold handleDelete, persistTransactions_then. destruct (storage_ok amb); reflexivity.
Qed.

(** X5. Deleting by id removes every transaction with that id and no other:
    the others stay, in their order; an id that is absent changes nothing;
    and a list of positive amounts stays one. *)
Theorem handleDelete_removes_exactly_the_id :
  forall amb id_ st,
    (forall t, In t (transactions (handleDelete amb id_ st)) <->
               In t (transactions st) /\ id t <> id_)
    /\ (forall before t after,
          transactions st = (before ++ t :: after)%list -> id t <> id_ ->
          exists before' after',
            transactions (handleDelete amb id_ st) = (before' ++ t :: after')%list
            /\ before' = filter (fun x => negb (String.eqb (id x) id_)) before
            /\ after' = filter (fun x => negb (String.eqb (id x) id_)) after)
    /\ ((forall t, In t (transactions st) -> id t <> id_) ->
        transactions (handleDelete amb id_ st) = transactions st)
    /\ (all_positive (transactions st) ->
        all_positive (transactions (handleDelete amb id_ st))).
Proof.
  intros amb id_ st. rewrite handleDelete_transactions.
  split; [|split; [|split]].
  - intros t. rewrite filter_In. split; intros [I N]; split; auto.
    + intros E. rewrite E, String.eqb_refl in N. discriminate.
    + destruct (String.eqb (id t) id_) eqn:E; [|reflexivity].
      apply String.eqb_eq in E. contradiction.
  - intros before t after E N. rewrite E, filter_app. cbn [filter].
    destruct (String.eqb (id t) id_) eqn:Q; [apply String.eqb_eq in Q; contradiction|].
    cbn [negb]. eauto.
  - intros A. induction (transactions st) as [|t l IH]; cbn [filter]; [reflexivity|].
    destruct (String.eqb (id t) id_) eqn:Q.
    + apply String.eqb_eq in Q. exfalso. exact (A t (or_introl eq_refl) Q).
    + cbn [negb]. rewrite IH; [reflexivity|]. intros x I. apply A. right. exact I.
  - apply filter_all_positive.
Qed.

(** X6. The list in storage follows the list in memory as long as the
    writes succeed.  [handleDelete] writes the list it has just set; and
    [handleAddTransaction] either leaves list and storage alone or puts the
    new transaction in front and writes that list.  After a write that fails,
    storage still holds what it held while the list in memory has changed. *)
Theorem storage_follows_the_list :
  forall amb id_ st,
    stored (handleDelete amb id_ st)
    = (if storage_ok amb then Some (transactions (handleDelete amb id_ st))
       else stored st)
    /\ forall st',
         handleAddTransaction amb st = Ok st' ->
         (transactions st' = transactions st /\ stored st' = stored st)
         \/ (transactions st' = parseSMS amb (smsText st) :: transactions st
             /\ stored st' = (if storage_ok amb then Some (transactions st')
                              else stored st)).
Proof.
  intros amb id_ st. split.
  - unfold handleDelete, persistTransactions_then.
    destruct (storage_ok amb); reflexivity.
  - intros st' H. rewrite handleAddTransaction_dispatch in H.
    destruct (classify (userName st) (smsText st)) as [d| |]; try discriminate.
    injection H as <-. destruct d; cbn [dispatch]; auto.
    unfold acceptCredit, persistTransactions_then. cbn [amount parseSMS].
    destruct (Qle_bool _ 0); auto.
    destruct (storage_ok amb); right; split; reflexivity.
Qed.

(** X7. An accepted alert with a positive amount, when the write to
    storage succeeds: the new transaction, holding the whole text and the
    fresh id, is put in front of the list and written to storage, the text
    box and the image are cleared and the success banner is set; the error
    banner is left as it was. *)
Theorem accepted_alert_is_recorded :
  forall amb st,
    classify (userName st) (smsText st) = Ok Accepted ->
    (0 < extractAmount (smsText st))%Q ->
    storage_ok amb = true ->
    exists st' t,
      handleAddTransaction amb st = Ok st'
      /\ transactions st' = t :: transactions st
      /\ stored st' = Some (t :: transactions st)
      /\ rawSMS t = smsText st /\ id t = randomUUID amb
      /\ (amount t == extractAmount (smsText st))%Q
      /\ smsText st' = EmptyString /\ selectedImage st' = None
      /\ success st' = "Income transaction added successfully"
      /\ error st' = error st /\ userName st' = userName st.
Proof.
  intros amb st C A S. rewrite handleAddTransaction_dispatch, C. cbn [bind dispatch].
  assert (L : Qle_bool (extractAmount (smsText st)) 0 = false).
  { destruct (Qle_bool (extractAmount (smsText st)) 0) eqn:L; [|reflexivity].
    apply Qle_bool_iff in L. lra. }
  exists (acceptCredit amb st), (parseSMS amb (smsText st)).
  unfold acceptCredit, persistTransactions_then. cbn [amount parseSMS].
  rewrite L, S. cbn. repeat split; reflexivity.
Qed.

Lemma accepted_alert_is_recorded_witness :
  exists st' t,
    handleAddTransaction clock_a mary_credit = Ok st'
    /\ transactions st' = t :: transactions mary_credit
    /\ stored st' = Some (t :: transactions mary_credit)
    /\ rawSMS t = smsText mary_credit /\ id t = randomUUID clock_a
    /\ (amount t == extractAmount (smsText mary_credit))%Q
    /\ smsText st' = EmptyString /\ selectedImage st' = None
    /\ success st' = "Income transaction added successfully"
    /\ error st' = error mary_credit /\ userName st' = userName mary_credit.
Proof.
  apply (accepted_alert_is_recorded clock_a mary_credit).
  - vm_compute. reflexivity.
  - vm_compute. reflexivity.
  - reflexivity.
Defined.

(** * Further properties of the tax engine *)

Section TaxFacts.

Local Open Scope Q_scope.

Lemma breakdown_tax_of_taxable brackets : forall rem prev,
  Forall (fun row => tax row = taxable row * row_rate row)
         (taxBreakdown_loop brackets rem prev).
Proof.
  induction brackets as [|b rest IH]; intros rem prev; simpl; constructor.
  - reflexivity.
  - apply IH.
Qed.

Lemma slices_nonpositive brackets : forall income prev,
  income <= 0 -> 0 <= prev -> ascending prev brackets ->
  Forall (fun q => q == 0) (slices brackets income prev).
Proof.
  induction brackets as [|b rest IH]; intros income prev I P A; simpl in *.
  - constructor.
  - destruct (limit b) as [l|].
    + destruct A as [PL A]. constructor.
      * destruct (Q.min_spec income l) as [[? M]|[? M]];
        destruct (Q.max_spec (Qmin income l - prev) 0) as [[? X]|[? X]];
        rewrite X; rewrite ?M in *; lra.
      * apply IH; [exact I | lra | exact A].
    + constructor; [|constructor].
      destruct (Q.max_spec (income - prev) 0) as [[? X]|[? X]]; rewrite X; lra.
Qed.

Lemma Forall2_zero (rows : list BreakdownRow) (qs : list Q) :
  length rows = length qs ->
  Forall (fun row => taxable row == 0 /\ tax row == 0) rows ->
  Forall (fun q => q == 0) qs ->
  Forall2 Qeq (map taxable rows) qs.
Proof.
  revert qs. induction rows as [|r rows IH]; intros [|q qs] L R Q;
    simpl in *; try discriminate; constructor.
  - inversion R as [|? ? [T _] _]; inversion Q; subst. lra.
  - apply IH; [lia | inversion R; assumption | inversion Q; assumption].
Qed.

Lemma taxBreakdown_slices_all income :
  Forall2 Qeq (map taxable (taxBreakdown income)) (slices TAX_BRACKETS income 0).
Proof.
  destruct (Qlt_le_dec income 0) as [N|P].
  - apply Forall2_zero.
    + reflexivity.
    + apply breakdown_exhausted. lra.
    + apply slices_nonpositive; [lra | lra | apply TAX_BRACKETS_ascending].
  - apply breakdown_slices; [apply Qmax_self_0, P | apply TAX_BRACKETS_ascending].
Qed.

(** X8. For every income, negative ones included, the taxable amount of a
    row is the part of the income that lies between the previous limit and
    the limit of its bracket, and its tax is that amount times the rate. *)
Theorem taxBreakdown_rows_are_slices :
  forall income,
    Forall2 Qeq (map taxable (taxBreakdown income))
      [ Qmax (Qmin income 800000 - 0) 0;
        Qmax (Qmin income 3000000 - 800000) 0;
        Qmax (Qmin income 12000000 - 3000000) 0;
        Qmax (Qmin income 25000000 - 12000000) 0;
        Qmax (Qmin income 50000000 - 25000000) 0;
        Qmax (income - 50000000) 0 ]
    /\ Forall (fun row => tax row = taxable row * row_rate row) (taxBreakdown income).
Proof.
  intros income. split; [|apply breakdown_tax_of_taxable].
  exact (taxBreakdown_slices_all income).
Qed.

Lemma calculateTax_loop_within b rest income tax0 prev l :
  limit b = Finite l -> income <= l ->
  calculateTax_loop (b :: rest) income tax0 prev = tax0 + (income - prev) * rate b.
Proof.
  intros L I. cbn [calculateTax_loop]. rewrite L.
  apply Qle_bool_iff in I. rewrite I. reflexivity.
Qed.

Lemma calculateTax_loop_beyond b rest income tax0 prev l :
  limit b = Finite l -> l < income ->
  calculateTax_loop (b :: rest) income tax0 prev
  = calculateTax_loop rest income (tax0 + (l - prev) * rate b) l.
Proof.
  intros L I. cbn [calculateTax_loop]. rewrite L.
  destruct (Qle_bool income l) eqn:E; [|reflexivity].
  apply Qle_bool_iff in E. lra.
Qed.

(** X9. No tax is due exactly when the income is at most 800,000 (negative
    incomes included). *)
Theorem calculateTax_zero_iff :
  forall income, calculateTax income == 0 <-> income <= 800000.
Proof.
  intros income. unfold calculateTax, TAX_BRACKETS. split.
  - intros Z. destruct (Qlt_le_dec 800000 income) as [G|L]; [exfalso | exact L].
    erewrite calculateTax_loop_beyond in Z; [| reflexivity | exact G].
    cbn [rate] in Z.
    destruct (Qlt_le_dec 3000000 income) as [G2|L2].
    + erewrite calculateTax_loop_beyond in Z; [| reflexivity | exact G2].
      cbn [rate] in Z.
      match type of Z with
      | calculateTax_loop ?bs ?i ?t ?p == 0 =>
          assert (B : t <= calculateTax_loop bs i t p)
      end.
      { apply calculateTax_loop_lower; [lra | simpl; repeat split; lra |].
        repeat constructor; simpl; lra. }
      lra.
    + erewrite calculateTax_loop_within in Z; [| reflexivity | exact L2].
      cbn [rate] in Z. lra.
  - intros L. erewrite calculateTax_loop_within; [| reflexivity | exact L].
    cbn [rate]. lra.
Qed.

(** Between two incomes the tax grows by at most the highest rate of the
    table times the difference. *)
Lemma calculateTax_loop_slope brackets : forall top a b tax0 prev,
  0 <= top -> a <= b -> prev <= a -> ascending prev brackets ->
  rates_within 0 top brackets ->
  calculateTax_loop brackets b tax0 prev - calculateTax_loop brackets a tax0 prev
  <= (b - a) * top.
Proof.
  induction brackets as [|br rest IH]; intros top a b tax0 prev T AB P A R; simpl in *.
  - assert (0 <= (b - a) * top) by (apply Qmult_le_0_compat; lra). lra.
  - inversion R as [|? ? [R0 R1] R']; subst.
    assert (0 <= (b - a) * (top - rate br)) by (apply Qmult_le_0_compat; lra).
    destruct (limit br) as [l|]; [|lra].
    destruct A as [PL A].
    destruct (Qle_bool a l) eqn:Ha, (Qle_bool b l) eqn:Hb.
    + lra.
    + apply Qle_bool_iff in Ha. apply Qle_bool_false in Hb.
      (* the tax at [b] is at most what the rest adds above [l] *)
      assert (U : calculateTax_loop rest b (tax0 + (l - prev) * rate br) l
                  - calculateTax_loop rest l (tax0 + (l - prev) * rate br) l
                  <= (b - l) * top).
      { apply IH; [exact T | lra | lra | exact A | exact R']. }
      assert (E : calculateTax_loop rest l (tax0 + (l - prev) * rate br) l
                  == tax0 + (l - prev) * rate br).
      { clear - A R'. destruct rest as [|b2 rest2]; simpl in *; [lra|].
        destruct (limit b2) as [l2|]; [|lra].
        destruct A as [L2 _].
        assert (Q : Qle_bool l l2 = true) by (apply Qle_bool_iff; exact L2).
        rewrite Q. lra. }
      assert (0 <= (l - a) * (top - rate br)) by (apply Qmult_le_0_compat; lra).
      lra.
    + apply Qle_bool_false in Ha. apply Qle_bool_iff in Hb. lra.
    + apply Qle_bool_false in Ha. apply IH; [exact T | lra | lra | exact A | exact R'].
Qed.

Lemma TAX_BRACKETS_top_rate : rates_within 0 0.25 TAX_BRACKETS.
Proof. unfold TAX_BRACKETS. repeat constructor; simpl; lra. Qed.

Lemma calculateTax_0 : calculateTax 0 == 0.
Proof.
  unfold calculateTax, TAX_BRACKETS.
  erewrite calculateTax_loop_within; [| reflexivity | lra]. cbn [rate]. lra.
Qed.

Lemma calculateTax_quarter a b :
  0 <= a -> a <= b -> calculateTax b - calculateTax a <= (b - a) * 0.25.
Proof.
  intros Ha Hab. unfold calculateTax.
  apply calculateTax_loop_slope;
    [lra | exact Hab | exact Ha | apply TAX_BRACKETS_ascending | apply TAX_BRACKETS_top_rate].
Qed.

(** X10. Between two incomes that are not negative the tax grows by at most
    a quarter of the difference.  So the tax is at most a quarter of the
    income, and what is left after tax does not shrink when the income
    grows. *)
Theorem calculateTax_marginal_rate :
  forall a b,
    0 <= a -> a <= b ->
    calculateTax b - calculateTax a <= (b - a) * 0.25
    /\ calculateTax b <= b * 0.25
    /\ a - calculateTax a <= b - calculateTax b.
Proof.
  intros a b Ha Hab.
  pose proof (calculateTax_quarter a b Ha Hab) as S1.
  pose proof (calculateTax_quarter 0 b ltac:(lra) ltac:(lra)) as S2.
  pose proof calculateTax_0 as Z.
  repeat split; lra.
Qed.

Lemma calculateTax_marginal_rate_witness :
  calculateTax 60000000 - calculateTax 2000000 <= (60000000 - 2000000) * 0.25
  /\ calculateTax 60000000 <= 60000000 * 0.25
  /\ 2000000 - calculateTax 2000000 <= 60000000 - calculateTax 60000000.
Proof.
  apply (calculateTax_marginal_rate 2000000 60000000); lra.
Defined.

Lemma fold_left_sum (l : list Transaction) : forall acc,
  fold_left (fun sum t => sum + amount t) l acc
  == acc + fold_left (fun sum t => sum + amount t) l 0.
Proof.
  induction l as [|t l IH]; intros acc; simpl; [lra|].
  rewrite (IH (acc + amount t)), (IH (0 + amount t)). lra.
Qed.

Lemma totalIncome_cons t l : totalIncome (t :: l) == amount t + totalIncome l.
Proof.
  unfold totalIncome. simpl. rewrite fold_left_sum. lra.
Qed.

Lemma totalIncome_nonneg l : all_positive l -> 0 <= totalIncome l.
Proof.
  induction 1 as [|t l P _ IH]; [unfold totalIncome; simpl; lra|].
  rewrite totalIncome_cons. lra.
Qed.


Lemma calculateTax_mono a b : 0 <= a -> a <= b -> calculateTax a <= calculateTax b.
Proof.
  intros Ha Hab. unfold calculateTax.
  apply calculateTax_loop_mono;
    [exact Hab | exact Ha | apply TAX_BRACKETS_ascending | apply TAX_BRACKETS_rates].
Qed.

(** X11. For a list of positive amounts the summary is within bounds: the
    tax is between 0 and a quarter of the total income, the net income
    between three quarters of the total and the total, and the effective
    rate between 0 and 25 percent.  For the empty list all four are 0. *)
Theorem summary_within_bounds :
  forall l,
    all_positive l ->
    0 <= totalIncome l
    /\ 0 <= annualTax l /\ annualTax l <= totalIncome l * 0.25
    /\ totalIncome l * 0.75 <= netIncome l /\ netIncome l <= totalIncome l
    /\ 0 <= effectiveRate l /\ effectiveRate l <= 25
    /\ (l = [] -> totalIncome l == 0 /\ annualTax l == 0 /\ netIncome l == 0
                  /\ effectiveRate l == 0).
Proof.
  intros l P. pose proof (totalIncome_nonneg l P) as T.
  assert (A0 : 0 <= annualTax l).
  { unfold annualTax. pose proof calculateTax_0.
    pose proof (calculateTax_mono 0 (totalIncome l) ltac:(lra) T). lra. }
  assert (A1 : annualTax l <= totalIncome l * 0.25).
  { unfold annualTax. pose proof calculateTax_0.
    pose proof (calculateTax_quarter 0 (totalIncome l) ltac:(lra) T). lra. }
  split; [exact T|]. split; [exact A0|]. split; [exact A1|].
  unfold netIncome. split; [lra|]. split; [lra|].
  unfold effectiveRate.
  destruct (Qlt_le_dec 0 (totalIncome l)) as [G|Z].
  - assert (D0 : 0 <= annualTax l / totalIncome l).
    { apply Qle_shift_div_l; [exact G | lra]. }
    assert (D1 : annualTax l / totalIncome l <= 0.25).
    { apply Qle_shift_div_r; [exact G | lra]. }
    split; [lra|]. split; [lra|].
    intros ->. exfalso. unfold totalIncome in G. simpl in G. lra.
  - split; [lra|]. split; [lra|].
    intros ->. unfold annualTax, totalIncome. simpl.
    pose proof calculateTax_0. repeat split; lra.
Qed.

Lemma summary_within_bounds_witness :
  0 <= totalIncome (transactions (acceptCredit clock_a mary_credit))
  /\ 0 <= annualTax (transactions (acceptCredit clock_a mary_credit))
  /\ annualTax (transactions (acceptCredit clock_a mary_credit))
     <= totalIncome (transactions (acceptCredit clock_a mary_credit)) * 0.25
  /\ totalIncome (transactions (acceptCredit clock_a mary_credit)) * 0.75
     <= netIncome (transactions (acceptCredit clock_a mary_credit))
  /\ netIncome (transactions (acceptCredit clock_a mary_credit))
     <= totalIncome (transactions (acceptCredit clock_a mary_credit))
  /\ 0 <= effectiveRate (transactions (acceptCredit clock_a mary_credit))
  /\ effectiveRate (transactions (acceptCredit clock_a mary_credit)) <= 25
  /\ (transactions (acceptCredit clock_a mary_credit) = [] ->
      totalIncome (transactions (acceptCredit clock_a mary_credit)) == 0
      /\ annualTax (transactions (acceptCredit clock_a mary_credit)) == 0
      /\ netIncome (transactions (acceptCredit clock_a mary_credit)) == 0
      /\ effectiveRate (transactions (acceptCredit clock_a mary_credit)) == 0).
Proof.
  apply (summary_within_bounds (transactions (acceptCredit clock_a mary_credit))).
  apply acceptCredit_positive. constructor.
Defined.



Lemma sum_tax_of_slices (rows : list BreakdownRow) : forall (qs rs : list Q),
  Forall2 Qeq (map taxable rows) qs ->
  map row_rate rows = rs ->
  Forall (fun row => tax row = taxable row * row_rate row) rows ->
  sumQ (map tax rows) == sumQ (map (fun p => fst p * snd p) (combine qs rs)).
Proof.
  induction rows as [|row rows IH]; intros qs rs F R T.
  - inversion F; subst. simpl. lra.
  - inversion F as [|? q ? qs' E F']; subst. inversion T as [|? ? Tr T']; subst.
    cbn [map combine sumQ fold_right fst snd]. rewrite Tr, E.
    pose proof (IH qs' (map row_rate rows) F' eq_refl T') as S.
    unfold sumQ in S. rewrite S. reflexivity.
Qed.

(** X17. The tax of an income that is not negative is 15 percent of the
    part of the income between 800,000 and 3,000,000, plus 18 percent of the
    part up to 12,000,000, 21 percent of the part up to 25,000,000, 23
    percent of the part up to 50,000,000 and 25 percent of the rest. *)
Theorem calculateTax_formula :
  forall income,
    0 <= income ->
    calculateTax income
    == Qmax (Qmin income 3000000 - 800000) 0 * 0.15
       + Qmax (Qmin income 12000000 - 3000000) 0 * 0.18
       + Qmax (Qmin income 25000000 - 12000000) 0 * 0.21
       + Qmax (Qmin income 50000000 - 25000000) 0 * 0.23
       + Qmax (income - 50000000) 0 * 0.25.
Proof.
  intros income H. unfold calculateTax.
  rewrite (calculateTax_loop_breakdown TAX_BRACKETS income 0 0 income);
    [| lra | exact H | apply TAX_BRACKETS_ascending].
  fold (taxBreakdown income).
  rewrite (sum_tax_of_slices (taxBreakdown income) (slices TAX_BRACKETS income 0)
             (map rate TAX_BRACKETS)
             (taxBreakdown_slices_all income)
             (proj2 (breakdown_rows TAX_BRACKETS income (Finite 0)))
             (breakdown_tax_of_taxable TAX_BRACKETS income (Finite 0))).
  cbn [slices TAX_BRACKETS limit rate map combine sumQ fold_right fst snd].
  lra.
Qed.

Lemma calculateTax_formula_witness :
  calculateTax 4000000
  == Qmax (Qmin 4000000 3000000 - 800000) 0 * 0.15
     + Qmax (Qmin 4000000 12000000 - 3000000) 0 * 0.18
     + Qmax (Qmin 4000000 25000000 - 12000000) 0 * 0.21
     + Qmax (Qmin 4000000 50000000 - 25000000) 0 * 0.23
     + Qmax (4000000 - 50000000) 0 * 0.25.
Proof.
  apply (calculateTax_formula 4000000). lra.
Defined.

End TaxFacts.

(** * Names without pattern syntax *)

Lemma step_plain c st :
  pmode st = MNormal -> syntax_char c = false ->
  step c st = Ok (push_atom (Lit c) st).
Proof.
  intros M S. unfold step. rewrite M. unfold step_normal.
  unfold syntax_char in S. cbn [existsb] in S.
  repeat (apply orb_false_elim in S; destruct S as [E S]; rewrite ?E; clear E).
  reflexivity.
Qed.

Lemma run_plain s : forall st,
  pmode st = MNormal -> plain s = true ->
  exists st', run s st = Ok st' /\ pmode st' = MNormal /\ stack st' = stack st.
Proof.
  induction s as [|c s IH]; intros st M P; cbn [run plain] in *.
  - eauto.
  - apply andb_prop in P. destruct P as [C P]. apply negb_true_iff in C.
    rewrite (step_plain c st M C). cbn [bind].
    destruct (IH (push_atom (Lit c) st) eq_refl P) as (st' & R & M' & K).
    exists st'. auto.
Qed.

Lemma plain_lower s : plain s = true -> plain (Js.toLowerCase s) = true.
Proof.
  unfold Js.toLowerCase. induction s as [|c s IH]; cbn [plain Js.map]; [reflexivity|].
  intros P. apply andb_prop in P. destruct P as [C P]. rewrite (IH P), andb_true_r.
  revert C. destruct c as [[] [] [] [] [] [] [] []]; vm_compute; auto.
Qed.

Lemma plain_rev_onto s : forall acc,
  plain (Js.rev_onto s acc) = plain s && plain acc.
Proof.
  induction s as [|c s IH]; intros acc; cbn [Js.rev_onto plain]; [reflexivity|].
  rewrite IH. cbn [plain].
  destruct (negb (syntax_char c)), (plain s), (plain acc); reflexivity.
Qed.

Lemma plain_trimStart s : plain s = true -> plain (Js.trimStart s) = true.
Proof.
  induction s as [|c s IH]; cbn [Js.trimStart plain]; [reflexivity|].
  intros P. destruct (Js.is_space c); [|exact P].
  apply andb_prop in P. apply IH, P.
Qed.

Lemma plain_trim s : plain s = true -> plain (Js.trim s) = true.
Proof.
  intros P. unfold Js.trim, Js.rev.
  rewrite plain_rev_onto, andb_true_r. apply plain_trimStart.
  rewrite plain_rev_onto, andb_true_r. apply plain_trimStart, P.
Qed.

Lemma plain_well_formed userName : plain userName = true -> well_formed_name userName.
Proof.
  intros P. right.
  pose proof (plain_lower _ (plain_trim _ P)) as N.
  set (name := Js.toLowerCase (Js.trim userName)) in *. clearbody name.
  unfold compile, parse.
  change ("\bto\s+" ++ name ++ "\b") with ("\bto\s+" ++ (name ++ "\b")).
  rewrite !run_app.
  destruct (run "\bto\s+" init) as [st0| |] eqn:R0; try (vm_compute in R0; discriminate).
  assert (M0 : pmode st0 = MNormal /\ stack st0 = []).
  { vm_compute in R0. injection R0 as <-. split; reflexivity. }
  destruct M0 as [M0 K0]. cbn [bind]. rewrite run_app.
  destruct (run_plain name st0 M0 N) as (st1 & -> & M1 & K1). cbn [bind run].
  unfold step at 1. rewrite M1. cbn [step_normal Ascii.eqb]. cbn [bind].
  eexists. cbn. unfold finish. cbn. rewrite K1, K0. reflexivity.
Qed.

Lemma classify_total userName text :
  well_formed_name userName -> exists d, classify userName text = Ok d.
Proof.
  intros W. unfold classify.
  destruct (negb (Js.truthy (Js.trim text))); [eauto|].
  destruct (well_formed_receiver _ text W) as (r & ->).
  destruct (well_formed_sender _ text W) as (s & ->).
  destruct (isDebitTransaction_total text) as (b & ->).
  cbn [bind]. destruct r; [eauto|]. destruct s; cbn [bind]; [eauto|].
  destruct b; [eauto|]. destruct (negb (isCreditTransaction text)); eauto.
Qed.

(** X13. A profile name without any of the characters
    [\ ( ) | * + ? [ . ^ $ {] never makes a pattern malformed: the
    receiver and sender checks give an answer and the handler ends normally,
    for every text. *)
Theorem plain_names_never_throw :
  forall amb st,
    plain (userName st) = true ->
    (exists r, isUserReceiver (userName st) (smsText st) = Ok r)
    /\ (exists s, isUserSender (userName st) (smsText st) = Ok s)
    /\ (exists d, classify (userName st) (smsText st) = Ok d)
    /\ (exists st', handleAddTransaction amb st = Ok st').
Proof.
  intros amb st P. pose proof (plain_well_formed _ P) as W.
  split; [apply well_formed_receiver, W|].
  split; [apply well_formed_sender, W|].
  destruct (classify_total _ (smsText st) W) as (d & C).
  split; [eauto|].
  rewrite handleAddTransaction_dispatch, C. cbn [bind]. eauto.
Qed.

Lemma plain_names_never_throw_witness :
  (exists r, isUserReceiver "Ada-Mary O'Neil Jr" "NGN500 sent to Ada" = Ok r)
  /\ (exists s, isUserSender "Ada-Mary O'Neil Jr" "NGN500 sent to Ada" = Ok s)
  /\ (exists d, classify "Ada-Mary O'Neil Jr" "NGN500 sent to Ada" = Ok d)
  /\ (exists st', handleAddTransaction clock_a
                    (state_of "Ada-Mary O'Neil Jr" "NGN500 sent to Ada") = Ok st').
Proof.
  apply (plain_names_never_throw clock_a
           (state_of "Ada-Mary O'Neil Jr" "NGN500 sent to Ada")).
  reflexivity.
Defined.

(** * What a match has read *)

Lemma append_assoc (a b c : string) : (a ++ b) ++ c = a ++ (b ++ c).
Proof. induction a as [|x a IH]; simpl; [reflexivity | rewrite IH; reflexivity]. Qed.

Lemma append_empty_r (a : string) : a ++ EmptyString = a.
Proof. induction a as [|x a IH]; simpl; [reflexivity | rewrite IH; reflexivity]. Qed.

Lemma length_append (a b : string) :
  String.length (a ++ b) = String.length a + String.length b.
Proof. induction a as [|x a IH]; simpl; [reflexivity | rewrite IH; reflexivity]. Qed.

Lemma take_append (a b : string) : Js.take (String.length a) (a ++ b) = a.
Proof. induction a as [|x a IH]; simpl; [destruct b; reflexivity | rewrite IH; reflexivity]. Qed.

Lemma span_refl s : span s s EmptyString.
Proof. unfold span; simpl. split; [reflexivity | lia]. Qed.

Lemma span_trans s1 s2 s3 w1 w2 :
  span s1 s2 w1 -> span s2 s3 w2 -> span s1 s3 (w1 ++ w2).
Proof.
  unfold span. intros [R1 P1] [R2 P2]. split.
  - rewrite R1, R2, append_assoc. reflexivity.
  - rewrite length_append. lia.
Qed.

Lemma repeat_loop_sound (body : cont -> cont) (L : string -> Prop) :
  (forall k s e, body k s = Some e ->
                 exists s' w, k s' = Some e /\ span s s' w /\ L w) ->
  forall fuel mn mx greedy k s e,
    repeat_loop body fuel mn mx greedy k s = Some e ->
    exists s' w, k s' = Some e /\ span s s' w /\ reps L mn mx w.
Proof.
  intros Hbody. induction fuel as [|fuel IH]; intros mn mx greedy k s e H;
    cbn [repeat_loop] in H.
  - discriminate.
  - destruct (max_is_zero mx) eqn:Z.
    + exists s, EmptyString. split; [exact H|]. split; [apply span_refl|].
      constructor. right. exact Z.
    + assert (Hiter : forall x,
                 body (fun s1 =>
                         if (mn =? 0) && (m_pos s1 =? m_pos s) then None
                         else repeat_loop body fuel (pred mn) (option_map pred mx) greedy k s1) s
                 = Some x ->
                 exists s' w, k s' = Some x /\ span s s' w /\ reps L mn mx w).
      { intros x Hx. apply Hbody in Hx. destruct Hx as (s1 & w1 & Hs1 & S1 & L1).
        destruct ((mn =? 0) && (m_pos s1 =? m_pos s)); [discriminate|].
        apply IH in Hs1. destruct Hs1 as (s' & w2 & Hk & S2 & R2).
        exists s', (w1 ++ w2). split; [exact Hk|]. split; [exact (span_trans _ _ _ _ _ S1 S2)|].
        apply reps_more; assumption. }
      destruct (0 <? mn) eqn:M.
      * apply Hiter, H.
      * apply Nat.ltb_ge in M. assert (mn = 0) by lia. subst mn.
        destruct greedy; unfold orelse in H.
        -- destruct (body _ s) as [x|] eqn:B.
           ++ injection H as <-. apply (Hiter x eq_refl).
           ++ exists s, EmptyString. split; [exact H|]. split; [apply span_refl|].
              constructor. left. reflexivity.
        -- destruct (k s) eqn:K.
           ++ injection H as <-. exists s, EmptyString.
              split; [exact K|]. split; [apply span_refl|]. constructor. left. reflexivity.
           ++ apply Hiter, H.
Qed.

(** Soundness of the matcher: a successful match has called its
    continuation after reading a word of the pattern. *)
Lemma matcher_sound ic r : forall k s e,
  matcher ic r k s = Some e ->
  exists s' w, k s' = Some e /\ span s s' w /\ lang ic r w.
Proof.
  assert (One : forall r0 k s e, one_char ic r0 k s = Some e ->
                exists s' w, k s' = Some e /\ span s s' w
                             /\ exists c, w = String c EmptyString /\ accepts ic r0 c = true).
  { intros r0 k s e H. unfold one_char in H.
    destruct (m_rest s) as [|c rest] eqn:R; [discriminate|].
    destruct (accepts ic r0 c) eqn:A; [|discriminate].
    eexists; exists (String c EmptyString). split; [exact H|]. split.
    - unfold span; simpl. rewrite R. split; [reflexivity | lia].
    - eauto. }
  induction r as [| | | |r1 IH1 r2 IH2|r1 IH1 r2 IH2|mn mx g r1 IH1|n r1 IH1|a];
    intros k s e H; cbn [matcher] in H; cbn [lang].
  - exists s, EmptyString. split; [exact H|]. split; [apply span_refl | reflexivity].
  - apply One in H. exact H.
  - apply One in H. exact H.
  - apply One in H. exact H.
  - apply IH1 in H. destruct H as (s1 & w1 & H & S1 & L1).
    apply IH2 in H. destruct H as (s2 & w2 & H & S2 & L2).
    exists s2, (w1 ++ w2). split; [exact H|]. split; [exact (span_trans _ _ _ _ _ S1 S2)|].
    eauto.
  - unfold orelse in H. destruct (matcher ic r1 k s) eqn:M.
    + injection H as <-. apply IH1 in M. destruct M as (s' & w & Hk & S & L).
      exists s', w. auto.
    + apply IH2 in H. destruct H as (s' & w & Hk & S & L). exists s', w. auto.
  - eapply repeat_loop_sound in H; [exact H|].
    intros k1 s1 e1 H1. apply IH1 in H1. destruct H1 as (s' & w & Hk & S & L).
    exists s', w. split; [exact Hk|]. split; [exact S | exact L].
  - apply IH1 in H. destruct H as (s1 & w & Hk & S & L).
    exists (set_cap n s s1), w. split; [exact Hk|]. split; [exact S | exact L].
  - destruct (holds a s); [|discriminate].
    exists s, EmptyString. split; [exact H|]. split; [apply span_refl | reflexivity].
Qed.

Lemma last_group_match ic n r body : last_group n r = Some body ->
  forall s e, matcher ic r Some s = Some e ->
  exists g, find (fun p => fst p =? n) (m_caps e) = Some (n, g) /\ lang ic body g.
Proof.
  induction r as [| | | |r1 _ r2 IH2| | |k r1 _|]; cbn [last_group matcher];
    intros C s e H; try discriminate.
  - apply matcher_sound in H. destruct H as (s1 & _ & H & _). exact (IH2 C s1 e H).
  - destruct (k =? n) eqn:Kn; [|discriminate]. injection C as ->.
    apply Nat.eqb_eq in Kn. subst k.
    apply matcher_sound in H. destruct H as (s1 & w & H & [R P] & L).
    injection H as <-. cbn [set_cap m_caps find fst]. rewrite Nat.eqb_refl.
    exists w. split; [|exact L].
    rewrite R. replace (m_pos s1 - m_pos s) with (String.length w) by lia.
    rewrite take_append. reflexivity.
Qed.

(** What [match[1]] holds for a pattern that ends with its first group. *)
Lemma first_group_lang re text m body :
  last_group 1 (ast re) = Some body -> exec re text = Some m ->
  exists g, capture 1 m = Some g /\ lang (ignoreCase re) body g.
Proof.
  intros C H. unfold exec in H. apply scan_match in H. destruct H as (s & e & M & Ce).
  destruct (last_group_match _ _ _ _ C s e M) as (g & F & L).
  exists g. unfold capture. rewrite Ce, F. auto.
Qed.

Lemma scan_match_at ic r : forall rest prev pos m,
  scan ic r prev rest pos = Some m ->
  exists before s e,
    rest = before ++ m_rest s /\ matcher ic r Some s = Some e /\ captures m = m_caps e.
Proof.
  induction rest as [|c rest IH]; intros prev pos m H; simpl in H.
  - destruct (matcher ic r Some _) eqn:M; [|discriminate].
    injection H as <-. exists EmptyString. eexists. eexists.
    split; [|split; [exact M | reflexivity]]. reflexivity.
  - destruct (matcher ic r Some _) eqn:M.
    + injection H as <-. exists EmptyString. eexists. eexists.
      split; [|split; [exact M | reflexivity]]. reflexivity.
    + destruct (IH _ _ _ H) as (before & s & e & R & Ms & Ce).
      exists (String c before), s, e. split; [|split; assumption].
      cbn [append]. rewrite <- R. reflexivity.
Qed.

Lemma last_group_part ic n r body : last_group n r = Some body ->
  forall s e, matcher ic r Some s = Some e ->
  exists before g after,
    m_rest s = before ++ g ++ after
    /\ find (fun p => fst p =? n) (m_caps e) = Some (n, g) /\ lang ic body g.
Proof.
  induction r as [| | | |r1 _ r2 IH2| | |k r1 _|]; cbn [last_group matcher];
    intros C s e H; try discriminate.
  - apply matcher_sound in H. destruct H as (s1 & w & H & [R _] & _).
    destruct (IH2 C s1 e H) as (before & g & after & R1 & F & L).
    exists (w ++ before), g, after. split; [|split; assumption].
    rewrite R, R1, append_assoc. reflexivity.
  - destruct (k =? n) eqn:Kn; [|discriminate]. injection C as ->.
    apply Nat.eqb_eq in Kn. subst k.
    apply matcher_sound in H. destruct H as (s1 & w & H & [R P] & L).
    injection H as <-. cbn [set_cap m_caps find fst]. rewrite Nat.eqb_refl.
    exists EmptyString, w, (m_rest s1). split; [exact R|]. split; [|exact L].
    rewrite R. replace (m_pos s1 - m_pos s) with (String.length w) by lia.
    rewrite take_append. reflexivity.
Qed.

(** For a pattern that ends with its first group, [match[1]] is a part of
    the text. *)
Lemma first_group_in_text re text m body :
  last_group 1 (ast re) = Some body -> exec re text = Some m ->
  exists before g after,
    text = before ++ g ++ after
    /\ capture 1 m = Some g /\ lang (ignoreCase re) body g.
Proof.
  intros C H. unfold exec in H. apply scan_match_at in H.
  destruct H as (b0 & s & e & R & M & Ce).
  destruct (last_group_part _ _ _ _ C s e M) as (b1 & g & after & R1 & F & L).
  exists (b0 ++ b1), g, after. split; [|split; [|exact L]].
  - rewrite R, R1, append_assoc. reflexivity.
  - unfold capture. rewrite Ce, F. reflexivity.
Qed.

(** * The shape of the extracted fields *)

Lemma all_chars_append p a b : all_chars p (a ++ b) = all_chars p a && all_chars p b.
Proof.
  induction a as [|x a IH]; simpl; [reflexivity|]. rewrite IH, andb_assoc. reflexivity.
Qed.

Lemma reps_all_chars (L : string -> Prop) p :
  (forall w, L w -> all_chars p w = true) ->
  forall mn mx w, reps L mn mx w -> all_chars p w = true.
Proof.
  intros HL mn mx w R. induction R as [|mn mx w1 w2 _ L1 _ IH]; [reflexivity|].
  rewrite all_chars_append, (HL _ L1), IH. reflexivity.
Qed.

Lemma reps_exact_length (L : string -> Prop) :
  (forall w, L w -> String.length w = 1) ->
  forall n w, reps L n (Some n) w -> String.length w = n.
Proof.
  intros HL. induction n as [|n IH]; intros w R; inversion R as [? ? S|? ? w1 w2 Z L1 R2]; subst.
  - reflexivity.
  - discriminate.
  - destruct S; discriminate.
  - rewrite length_append, (HL _ L1). cbn [pred option_map] in R2.
    rewrite (IH _ R2). reflexivity.
Qed.

Lemma digit_word w :
  lang false (CharSet false [CClass false Digit]) w ->
  String.length w = 1 /\ all_chars Js.is_digit w = true.
Proof.
  intros (c & -> & A). cbn in A. rewrite orb_false_r in A.
  split; [reflexivity|]. cbn. rewrite A. reflexivity.
Qed.

Lemma digits_word n w :
  lang false (Repeat n (Some n) true (CharSet false [CClass false Digit])) w ->
  String.length w = n /\ all_chars Js.is_digit w = true.
Proof.
  cbn [lang]. intros R. split.
  - apply (reps_exact_length _ (fun w H => proj1 (digit_word w H)) _ _ R).
  - apply (reps_all_chars _ _ (fun w H => proj2 (digit_word w H)) _ _ _ R).
Qed.

Lemma literal_word a w : lang false (Lit a) w -> w = String a EmptyString.
Proof.
  intros (c & -> & A). cbn in A. apply Ascii.eqb_eq in A. subst. reflexivity.
Qed.

Lemma separated_word n1 sep n2 n3 w :
  lang false
    (Seq (Repeat n1 (Some n1) true (CharSet false [CClass false Digit]))
       (Seq (Lit sep)
          (Seq (Repeat n2 (Some n2) true (CharSet false [CClass false Digit]))
             (Seq (Lit sep)
                (Repeat n3 (Some n3) true (CharSet false [CClass false Digit])))))) w ->
  exists a b c,
    w = a ++ String sep (b ++ String sep c)
    /\ (String.length a = n1 /\ all_chars Js.is_digit a = true)
    /\ (String.length b = n2 /\ all_chars Js.is_digit b = true)
    /\ (String.length c = n3 /\ all_chars Js.is_digit c = true).
Proof.
  cbn [lang]. intros (a & r1 & -> & A & s1 & r2 & -> & S1 & b & r3 & -> & B & s2 & c & -> & S2 & C).
  apply (literal_word sep) in S1. apply (literal_word sep) in S2. subst s1 s2.
  exists a, b, c. split; [reflexivity|].
  split; [apply digits_word, A|]. split; [apply digits_word, B | apply digits_word, C].
Qed.

Lemma replaceAll_digits a rest :
  all_chars Js.is_digit a = true ->
  Js.replaceAll "/" "-" (a ++ rest) = a ++ Js.replaceAll "/" "-" rest.
Proof.
  induction a as [|x a IH]; cbn [all_chars append Js.replaceAll]; [reflexivity|].
  intros D. apply andb_prop in D. destruct D as [Dx Da].
  assert (N : Ascii.eqb x "/" = false).
  { destruct (Ascii.eqb x "/") eqn:E; [|reflexivity].
    apply Ascii.eqb_eq in E. subst x. discriminate. }
  rewrite N, (IH Da). reflexivity.
Qed.

Lemma replaceAll_separated sep a b c :
  sep = "-"%char \/ sep = "/"%char ->
  all_chars Js.is_digit a = true -> all_chars Js.is_digit b = true ->
  all_chars Js.is_digit c = true ->
  Js.replaceAll "/" "-" (a ++ String sep (b ++ String sep c))
  = a ++ "-" ++ b ++ "-" ++ c.
Proof.
  intros S A B C.
  rewrite (replaceAll_digits a _ A).
  assert (E : forall rest, Js.replaceAll "/" "-" (String sep rest)
                           = "-" ++ Js.replaceAll "/" "-" rest).
  { intros rest. destruct S; subst sep; reflexivity. }
  rewrite E, (replaceAll_digits b _ B), E.
  rewrite <- (append_empty_r c) at 1. rewrite (replaceAll_digits c _ C).
  cbn [Js.replaceAll]. rewrite append_empty_r. reflexivity.
Qed.

Lemma date_pattern_tree :
  date_pattern = {| ast := date_ast; ignoreCase := false |}.
Proof. vm_compute. reflexivity. Qed.

Lemma description_pattern_tree :
  description_pattern = {| ast := description_ast; ignoreCase := true |}.
Proof. vm_compute. reflexivity. Qed.

Lemma separated_date w :
  lang false date_group w ->
  exists a b c sep,
    w = a ++ String sep (b ++ String sep c)
    /\ all_chars Js.is_digit a = true
    /\ all_chars Js.is_digit b = true
    /\ all_chars Js.is_digit c = true
    /\ ((String.length a = 4 /\ String.length b = 2 /\ String.length c = 2
         /\ sep = "-"%char)
        \/ (String.length a = 2 /\ String.length b = 2 /\ String.length c = 4
            /\ (sep = "/"%char \/ sep = "-"%char))).
Proof.
  unfold date_group. cbn [lang]. intros [L|[L|L]];
    apply separated_word in L;
    destruct L as (a & b & c & -> & [La Da] & [Lb Db] & [Lc Dc]);
    exists a, b, c; eexists; (split; [reflexivity|]); auto 12.
Qed.

(** The date of a text that holds one: a part of the text, and what
    [extractDate] makes of it. *)
Lemma extractDate_part amb text :
  RegExp.test date_pattern text = true ->
  exists m g before after,
    RegExp.exec date_pattern text = Some m
    /\ RegExp.capture 1 m = Some g
    /\ text = before ++ g ++ after
    /\ lang false date_group g
    /\ extractDate amb text = Js.replaceAll "/" "-" g.
Proof.
  intros T. unfold RegExp.test in T.
  destruct (RegExp.exec date_pattern text) as [m|] eqn:E; [|discriminate].
  pose proof E as E'. rewrite date_pattern_tree in E'.
  destruct (first_group_in_text {| ast := date_ast; ignoreCase := false |} text m _ eq_refl E')
    as (before & g & after & R & C & L).
  destruct (truthy_capture_match {| ast := date_ast; ignoreCase := false |} text m eq_refl E')
    as (g' & G' & C').
  rewrite C in C'. injection C' as <-.
  exists m, g, before, after.
  split; [reflexivity|]. split; [exact C|]. split; [exact R|]. split; [exact L|].
  unfold extractDate. rewrite E, G'. reflexivity.
Qed.

(** X14. A date found in the text is a part of the text made of three
    groups of digits with the same separator between them, 4-2-2 digits with
    hyphens or 2-2-4 digits with slashes or hyphens; what comes back is
    these three groups, in the order they are written, joined by hyphens. *)
Theorem extractDate_shape :
  forall amb text,
    RegExp.test date_pattern text = true ->
    exists before a b c sep after,
      text = before ++ (a ++ String sep (b ++ String sep c)) ++ after
      /\ all_chars Js.is_digit a = true
      /\ all_chars Js.is_digit b = true
      /\ all_chars Js.is_digit c = true
      /\ ((String.length a = 4 /\ String.length b = 2 /\ String.length c = 2
           /\ sep = "-"%char)
          \/ (String.length a = 2 /\ String.length b = 2 /\ String.length c = 4
              /\ (sep = "/"%char \/ sep = "-"%char)))
      /\ extractDate amb text = a ++ "-" ++ b ++ "-" ++ c.
Proof.
  intros amb text T.
  destruct (extractDate_part amb text T) as (m & g & before & after & _ & _ & R & L & ->).
  destruct (separated_date g L) as (a & b & c & sep & -> & Da & Db & Dc & S).
  exists before, a, b, c, sep, after.
  split; [exact R|]. split; [exact Da|]. split; [exact Db|]. split; [exact Dc|].
  split; [exact S|].
  apply replaceAll_separated; auto.
  destruct S as [(_ & _ & _ & ->)|(_ & _ & _ & [->| ->])]; auto.
Qed.

Lemma extractDate_shape_witness :
  exists before a b c sep after,
    dated_text = before ++ (a ++ String sep (b ++ String sep c)) ++ after
    /\ all_chars Js.is_digit a = true
    /\ all_chars Js.is_digit b = true
    /\ all_chars Js.is_digit c = true
    /\ ((String.length a = 4 /\ String.length b = 2 /\ String.length c = 2
         /\ sep = "-"%char)
        \/ (String.length a = 2 /\ String.length b = 2 /\ String.length c = 4
            /\ (sep = "/"%char \/ sep = "-"%char)))
    /\ extractDate clock_a dated_text = a ++ "-" ++ b ++ "-" ++ c.
Proof.
  apply (extractDate_shape clock_a dated_text). vm_compute. reflexivity.
Defined.

Lemma all_chars_rev_onto p s : forall acc,
  all_chars p (Js.rev_onto s acc) = all_chars p s && all_chars p acc.
Proof.
  induction s as [|c s IH]; intros acc; cbn [Js.rev_onto all_chars]; [reflexivity|].
  rewrite IH. cbn [all_chars]. destruct (p c), (all_chars p s), (all_chars p acc); reflexivity.
Qed.

Lemma all_chars_trimStart p s : all_chars p s = true -> all_chars p (Js.trimStart s) = true.
Proof.
  induction s as [|c s IH]; cbn [Js.trimStart all_chars]; [reflexivity|].
  intros P. destruct (Js.is_space c); [|exact P]. apply andb_prop in P. apply IH, P.
Qed.

Lemma all_chars_trim p s : all_chars p s = true -> all_chars p (Js.trim s) = true.
Proof.
  intros P. unfold Js.trim, Js.rev.
  rewrite all_chars_rev_onto, andb_true_r. apply all_chars_trimStart.
  rewrite all_chars_rev_onto, andb_true_r. apply all_chars_trimStart, P.
Qed.

Lemma length_rev_onto s : forall acc,
  String.length (Js.rev_onto s acc) = String.length s + String.length acc.
Proof.
  induction s as [|c s IH]; intros acc; cbn [Js.rev_onto String.length]; [reflexivity|].
  rewrite IH. cbn [String.length]. lia.
Qed.

Lemma length_trimStart s : String.length (Js.trimStart s) <= String.length s.
Proof.
  induction s as [|c s IH]; cbn [Js.trimStart String.length]; [lia|].
  destruct (Js.is_space c); cbn [String.length]; lia.
Qed.

Lemma length_trim s : String.length (Js.trim s) <= String.length s.
Proof.
  unfold Js.trim, Js.rev. rewrite length_rev_onto. cbn [String.length].
  pose proof (length_trimStart (Js.rev_onto (Js.trimStart s) EmptyString)) as A.
  rewrite length_rev_onto in A. cbn [String.length] in A.
  pose proof (length_trimStart s). lia.
Qed.

Lemma units_append a b : Js.length (a ++ b) = Js.length a + Js.length b.
Proof.
  induction a as [|x a IH]; cbn [append Js.length]; [reflexivity|]. rewrite IH. lia.
Qed.

Lemma units_rev_onto s : forall acc,
  Js.length (Js.rev_onto s acc) = Js.length s + Js.length acc.
Proof.
  induction s as [|c s IH]; intros acc; cbn [Js.rev_onto Js.length]; [reflexivity|].
  rewrite IH. cbn [Js.length]. lia.
Qed.

Lemma units_trimStart s : Js.length (Js.trimStart s) <= Js.length s.
Proof.
  induction s as [|c s IH]; cbn [Js.trimStart Js.length]; [lia|].
  destruct (Js.is_space c); cbn [Js.length]; lia.
Qed.

Lemma units_trim s : Js.length (Js.trim s) <= Js.length s.
Proof.
  unfold Js.trim, Js.rev. rewrite units_rev_onto. cbn [Js.length].
  pose proof (units_trimStart (Js.rev_onto (Js.trimStart s) EmptyString)) as A.
  rewrite units_rev_onto in A. cbn [Js.length] in A.
  pose proof (units_trimStart s). lia.
Qed.

Lemma units_continuation k : Js.units (ascii_of_nat (128 + k mod 64)) = 0.
Proof.
  pose proof (Nat.mod_upper_bound k 64 ltac:(lia)) as B.
  unfold Js.units, Js.code. rewrite nat_ascii_embedding by lia.
  destruct (128 + k mod 64 <? 128) eqn:E1; [apply Nat.ltb_lt in E1; lia|].
  destruct (128 + k mod 64 <? 192) eqn:E2; [reflexivity|].
  apply Nat.ltb_ge in E2. lia.
Qed.

Lemma units_high_surrogate b1 b2 b3 : Js.length (Js.high_surrogate b1 b2 b3) = 1.
Proof.
  unfold Js.high_surrogate. cbn [Js.length]. rewrite !units_continuation. reflexivity.
Qed.

Lemma units_slice0 s : forall n, Js.length (Js.slice0 n s) <= n.
Proof.
  induction s as [|c s IH]; intros n; cbn [Js.slice0 Js.length]; [lia|].
  destruct (Js.units c <=? n) eqn:U.
  - apply Nat.leb_le in U. cbn [Js.length]. specialize (IH (n - Js.units c)). lia.
  - destruct (n =? 1) eqn:N; [|cbn [Js.length]; lia].
    apply Nat.eqb_eq in N. subst n.
    destruct s as [|b2 [|b3 s]]; cbn [Js.length]; try lia.
    rewrite units_high_surrogate. lia.
Qed.

Lemma slice0_all s : forall n, Js.length s <= n -> Js.slice0 n s = s.
Proof.
  induction s as [|c s IH]; intros n; cbn [Js.slice0 Js.length]; intros H; [reflexivity|].
  assert (U : (Js.units c <=? n) = true) by (apply Nat.leb_le; lia).
  rewrite U. rewrite IH by lia. reflexivity.
Qed.

Lemma not_dot_word w :
  lang true (CharSet true [CChar "."; CChar (ascii_of_nat 10)]) w ->
  all_chars not_dot_or_newline w = true.
Proof.
  intros (c & -> & A). cbn [all_chars]. rewrite andb_true_r.
  revert A. destruct c as [[] [] [] [] [] [] [] []]; vm_compute; auto.
Qed.

(** The naira sign is one code unit (three bytes), and a cut through a
    character of two code units keeps the first of them. *)
Example length_counts_code_units :
  Js.length "₦5,000" = 6
  /\ Js.slice0 2 "₦5,000" = "₦5"
  /\ Js.length "😀" = 2
  /\ Js.slice0 1 "😀"
     = String (ascii_of_nat 237) (String (ascii_of_nat 160)
         (String (ascii_of_nat 189) EmptyString)).
Proof. repeat split; vm_compute; reflexivity. Qed.

(** X15. With a label ("from", "narration", "desc", "description") in the
    text, the description has no full stop and no line feed in it.  Without
    one it is the trimmed text when the text has at most 60 code units, and
    otherwise the trimmed first 60 code units followed by three dots: never
    more than 63 code units. *)
Theorem extractDescription_shape :
  forall text,
    (RegExp.test description_pattern text = true ->
     all_chars not_dot_or_newline (extractDescription text) = true)
    /\ (RegExp.test description_pattern text = false ->
        Js.length (extractDescription text) <= 63
        /\ (Js.length text <= 60 -> extractDescription text = Js.trim text)
        /\ (60 < Js.length text ->
            extractDescription text = Js.trim (Js.slice0 60 text) ++ "...")).
Proof.
  intros text. unfold RegExp.test, extractDescription. split.
  - destruct (RegExp.exec description_pattern text) as [m|] eqn:E; [|discriminate].
    intros _.
    rewrite description_pattern_tree in E.
    destruct (first_group_lang {| ast := description_ast; ignoreCase := true |}
                text m _ eq_refl E) as (g & C & L).
    destruct (truthy_capture_match {| ast := description_ast; ignoreCase := true |}
                text m eq_refl E) as (g' & G' & C').
    rewrite G'.
    rewrite C in C'. injection C' as <-.
    apply all_chars_trim.
    cbn [ignoreCase lang] in L.
    apply (reps_all_chars _ _ not_dot_word _ _ _ L).
  - destruct (RegExp.exec description_pattern text); [discriminate|]. intros _.
    cbn [truthy_capture].
    pose proof (units_trim (Js.slice0 60 text)) as T.
    pose proof (units_slice0 text 60) as K.
    split; [|split].
    + assert (D : Js.length "..." = 3) by reflexivity.
      rewrite units_append. destruct (60 <? Js.length text); [rewrite D | cbn [Js.length]]; lia.
    + intros S. rewrite slice0_all by exact S.
      apply Nat.ltb_ge in S. rewrite S. apply append_empty_r.
    + intros S. apply Nat.ltb_lt in S. rewrite S. reflexivity.
Qed.

Lemma extractDescription_shape_witness :
  String.length naira_alert = 61
  /\ Js.length naira_alert = 59
  /\ extractDescription naira_alert = Js.trim naira_alert.
Proof.
  split; [reflexivity|]. split; [reflexivity|].
  pose proof (extractDescription_shape naira_alert) as [_ H].
  assert (T : RegExp.test description_pattern naira_alert = false)
    by (vm_compute; reflexivity).
  destruct (H T) as (_ & E & _). apply E. vm_compute. lia.
Defined.

(** * Letter case *)

Lemma lower_is_space c : Js.is_space (Js.lower_char c) = Js.is_space c.
Proof. destruct c as [[] [] [] [] [] [] [] []]; reflexivity. Qed.

Lemma lower_is_word c : Js.is_word (Js.lower_char c) = Js.is_word c.
Proof. destruct c as [[] [] [] [] [] [] [] []]; reflexivity. Qed.

Lemma lower_is_digit c : Js.is_digit (Js.lower_char c) = Js.is_digit c.
Proof. destruct c as [[] [] [] [] [] [] [] []]; reflexivity. Qed.

Lemma lower_is_line_terminator c :
  Js.is_line_terminator (Js.lower_char c) = Js.is_line_terminator c.
Proof. destruct c as [[] [] [] [] [] [] [] []]; reflexivity. Qed.

Lemma upper_lower c : Js.upper_char (Js.lower_char c) = Js.upper_char c.
Proof. destruct c as [[] [] [] [] [] [] [] []]; reflexivity. Qed.

Lemma lower_or_upper c : Js.lower_char c = c \/ Js.upper_char c = c.
Proof. destruct c as [[] [] [] [] [] [] [] []]; auto. Qed.

Lemma in_item_lower c i : in_item true (Js.lower_char c) i = in_item true c i.
Proof.
  destruct i as [a|lo hi|neg k]; cbn [in_item].
  - unfold same_char, canonicalize. rewrite upper_lower. reflexivity.
  - rewrite upper_lower, lower_char_idempotent. cbn [andb].
    destruct (lower_or_upper c) as [E|E]; rewrite ?E;
      destruct (in_range lo hi c), (in_range lo hi (Js.upper_char c)),
               (in_range lo hi (Js.lower_char c)); try reflexivity;
      rewrite E in *; congruence.
  - destruct k; cbn [in_class];
      rewrite ?lower_is_digit, ?lower_is_space, ?lower_is_word; reflexivity.
Qed.

Lemma accepts_lower r c : accepts true r (Js.lower_char c) = accepts true r c.
Proof.
  destruct r; cbn [accepts]; try reflexivity.
  - unfold same_char, canonicalize. rewrite upper_lower. reflexivity.
  - rewrite lower_is_line_terminator. reflexivity.
  - f_equal. induction items as [|i l IH]; cbn [existsb]; [reflexivity|].
    rewrite in_item_lower, IH. reflexivity.
Qed.

Lemma holds_case a s s' : same_but_case s s' -> holds a s' = holds a s.
Proof.
  intros (P & R & _). unfold holds, next_char. rewrite P, R.
  destruct (m_prev s) as [p|], (m_rest s) as [|c rest]; destruct a; cbn;
    rewrite ?lower_is_word; reflexivity.
Qed.

Lemma length_toLowerCase s : String.length (Js.toLowerCase s) = String.length s.
Proof.
  unfold Js.toLowerCase. induction s as [|c s IH]; simpl; [reflexivity | rewrite IH; reflexivity].
Qed.

Lemma succeeds_orelse a b : succeeds (orelse a b) = succeeds a || succeeds (b tt).
Proof. destruct a; reflexivity. Qed.

Lemma repeat_loop_case (body body' : cont -> cont) :
  (forall k k' s s', agree_on_case k k' -> same_but_case s s' ->
                     succeeds (body k s) = succeeds (body' k' s')) ->
  forall fuel mn mx greedy k k' s s',
    agree_on_case k k' -> same_but_case s s' ->
    succeeds (repeat_loop body fuel mn mx greedy k s)
    = succeeds (repeat_loop body' fuel mn mx greedy k' s').
Proof.
  intros Hbody. induction fuel as [|fuel IH]; intros mn mx greedy k k' s s' K S;
    cbn [repeat_loop]; [reflexivity|].
  destruct (max_is_zero mx); [apply K, S|].
  assert (A : agree_on_case
                (fun s1 => if (mn =? 0) && (m_pos s1 =? m_pos s) then None
                           else repeat_loop body fuel (pred mn) (option_map pred mx) greedy k s1)
                (fun s1 => if (mn =? 0) && (m_pos s1 =? m_pos s') then None
                           else repeat_loop body' fuel (pred mn) (option_map pred mx) greedy k' s1)).
  { intros s1 s1' S1. destruct S as (_ & _ & P). destruct S1 as (P1 & R1 & Q1).
    rewrite P, Q1. destruct ((mn =? 0) && (m_pos s1 =? m_pos s)); [reflexivity|].
    apply IH; [exact K | repeat split; assumption]. }
  pose proof (Hbody _ _ s s' A S) as B.
  destruct (0 <? mn); [exact B|].
  destruct greedy; rewrite !succeeds_orelse, B, (K s s' S); reflexivity.
Qed.

(** With the [i] flag a pattern matches a text exactly when it matches the
    text in lower case. *)
Lemma matcher_case r : forall k k' s s',
  agree_on_case k k' -> same_but_case s s' ->
  succeeds (matcher true r k s) = succeeds (matcher true r k' s').
Proof.
  assert (One : forall r0 k k' s s', agree_on_case k k' -> same_but_case s s' ->
                succeeds (one_char true r0 k s) = succeeds (one_char true r0 k' s')).
  { intros r0 k k' s s' K (P & R & Q). unfold one_char. rewrite R.
    destruct (m_rest s) as [|c rest]; cbn [Js.toLowerCase Js.map]; [reflexivity|].
    rewrite accepts_lower. destruct (accepts true r0 c); [|reflexivity].
    apply K. unfold same_but_case; cbn. rewrite Q. auto. }
  induction r as [| | | |r1 IH1 r2 IH2|r1 IH1 r2 IH2|mn mx g r1 IH1|n r1 IH1|a];
    intros k k' s s' K S; cbn [matcher].
  - apply K, S.
  - apply One; assumption.
  - apply One; assumption.
  - apply One; assumption.
  - apply IH1; [|exact S]. intros s1 s1' S1. apply IH2; assumption.
  - rewrite !succeeds_orelse, (IH1 k k' s s' K S), (IH2 k k' s s' K S). reflexivity.
  - destruct S as (P & R & Q). rewrite R, length_toLowerCase.
    apply repeat_loop_case; [|exact K | repeat split; assumption].
    intros k1 k1' s1 s1' K1 (P1 & R1 & Q1). apply IH1; [exact K1|].
    repeat split; assumption.
  - apply IH1; [|exact S]. intros s1 s1' (P1 & R1 & Q1). apply K.
    repeat split; assumption.
  - rewrite (holds_case a s s' S). destruct (holds a s); [apply K, S | reflexivity].
Qed.

Lemma scan_case r : forall rest prev pos,
  match scan true r (option_map Js.lower_char prev) (Js.toLowerCase rest) pos with
  | Some _ => true | None => false
  end
  = match scan true r prev rest pos with Some _ => true | None => false end.
Proof.
  induction rest as [|c rest IH]; intros prev pos; cbn [scan Js.toLowerCase Js.map].
  - match goal with
    | |- context [matcher true r Some ?a] =>
        match goal with
        | |- _ = match match matcher true r Some ?b with _ => _ end with _ => _ end =>
            pose proof (matcher_case r Some Some b a (fun _ _ _ => eq_refl)
                          ltac:(repeat split; reflexivity)) as M
        end
    end.
    destruct (matcher true r Some _), (matcher true r Some _); cbn in M;
      try discriminate; reflexivity.
  - match goal with
    | |- context [matcher true r Some ?a] =>
        match goal with
        | |- _ = match match matcher true r Some ?b with _ => _ end with _ => _ end =>
            pose proof (matcher_case r Some Some b a (fun _ _ _ => eq_refl)
                          ltac:(repeat split; reflexivity)) as M
        end
    end.
    destruct (matcher true r Some _), (matcher true r Some _); cbn in M;
      try discriminate; try reflexivity.
    exact (IH (Some c) (S pos)).
Qed.

Lemma test_case re text :
  ignoreCase re = true -> test re (Js.toLowerCase text) = test re text.
Proof.
  intros I. unfold test, exec. rewrite I. exact (scan_case (ast re) text None 0).
Qed.

Lemma compile_flag src re : compile src true = Ok re -> ignoreCase re = true.
Proof.
  unfold compile. destruct (parse src); cbn [bind]; try discriminate.
  intros H. injection H as <-. reflexivity.
Qed.

Lemma compile_all_flag sources : forall res,
  compile_all sources = Ok res -> Forall (fun re => ignoreCase re = true) res.
Proof.
  induction sources as [|src l IH]; cbn [compile_all]; intros res H.
  - injection H as <-. constructor.
  - destruct (compile src true) as [re| |] eqn:C; cbn [bind] in H; try discriminate.
    destruct (compile_all l) as [res'| |]; cbn [bind] in H; try discriminate.
    injection H as <-. constructor; [exact (compile_flag _ _ C) | apply IH; reflexivity].
Qed.

Lemma some_test_case res text :
  Forall (fun re => ignoreCase re = true) res ->
  existsb (fun pattern => test pattern (Js.toLowerCase text)) res
  = existsb (fun pattern => test pattern text) res.
Proof.
  induction 1 as [|re l I _ IH]; cbn [existsb]; [reflexivity|].
  rewrite (test_case re text I), IH. reflexivity.
Qed.

Lemma isUserReceiver_text_case userName text :
  isUserReceiver userName (Js.toLowerCase text) = isUserReceiver userName text.
Proof.
  unfold isUserReceiver. destruct (negb (Js.truthy userName)); [reflexivity|].
  destruct (compile_all _) as [res| |] eqn:C; cbn [bind]; try reflexivity.
  rewrite (some_test_case res text (compile_all_flag _ _ C)). reflexivity.
Qed.

Lemma isUserSender_text_case userName text :
  isUserSender userName (Js.toLowerCase text) = isUserSender userName text.
Proof.
  unfold isUserSender. destruct (negb (Js.truthy userName)); [reflexivity|].
  destruct (compile_all _) as [res| |] eqn:C; cbn [bind]; try reflexivity.
  rewrite (some_test_case res text (compile_all_flag _ _ C)). reflexivity.
Qed.

Lemma critical_loop_case keywords text :
  critical_loop keywords (Js.toLowerCase text) = critical_loop keywords text.
Proof.
  induction keywords as [|k l IH]; cbn [critical_loop]; [reflexivity|].
  destruct (compile ("\b" ++ k ++ "\b") true) as [re| |] eqn:C; cbn [bind]; try reflexivity.
  rewrite (test_case re text (compile_flag _ _ C)), IH. reflexivity.
Qed.

Lemma whitespace_only_lower s : whitespace_only (Js.toLowerCase s) = whitespace_only s.
Proof.
  unfold Js.toLowerCase. induction s as [|c s IH]; cbn [whitespace_only Js.map]; [reflexivity|].
  rewrite lower_is_space, IH. reflexivity.
Qed.

Lemma classify_text_case userName text :
  classify userName (Js.toLowerCase text) = classify userName text.
Proof.
  unfold classify, isDebitTransaction, isCreditTransaction.
  rewrite !blank_whitespace_only, whitespace_only_lower.
  rewrite isUserReceiver_text_case, isUserSender_text_case, critical_loop_case.
  rewrite !toLowerCase_idempotent. reflexivity.
Qed.

Lemma map_rev_onto f s : forall acc,
  Js.map f (Js.rev_onto s acc) = Js.rev_onto (Js.map f s) (Js.map f acc).
Proof.
  induction s as [|c s IH]; intros acc; cbn [Js.rev_onto Js.map]; [reflexivity|].
  rewrite IH. reflexivity.
Qed.

Lemma trimStart_lower s :
  Js.trimStart (Js.toLowerCase s) = Js.toLowerCase (Js.trimStart s).
Proof.
  unfold Js.toLowerCase. induction s as [|c s IH]; cbn [Js.trimStart Js.map]; [reflexivity|].
  rewrite lower_is_space. destruct (Js.is_space c); [exact IH | reflexivity].
Qed.

Lemma trim_lower s : Js.trim (Js.toLowerCase s) = Js.toLowerCase (Js.trim s).
Proof.
  unfold Js.trim, Js.rev.
  rewrite trimStart_lower. unfold Js.toLowerCase.
  change EmptyString with (Js.map Js.lower_char EmptyString).
  rewrite <- map_rev_onto. fold (Js.toLowerCase (Js.rev_onto (Js.trimStart s) EmptyString)).
  rewrite trimStart_lower. unfold Js.toLowerCase. rewrite <- map_rev_onto. reflexivity.
Qed.

Lemma truthy_lower s : Js.truthy (Js.toLowerCase s) = Js.truthy s.
Proof. destruct s; reflexivity. Qed.

Lemma classify_name_case n1 n2 text :
  Js.toLowerCase n1 = Js.toLowerCase n2 -> classify n1 text = classify n2 text.
Proof.
  intros E.
  assert (T : Js.truthy n1 = Js.truthy n2)
    by (rewrite <- (truthy_lower n1), <- (truthy_lower n2), E; reflexivity).
  assert (N : Js.toLowerCase (Js.trim n1) = Js.toLowerCase (Js.trim n2))
    by (rewrite <- !trim_lower, E; reflexivity).
  unfold classify, isUserReceiver, isUserSender. rewrite T, N. reflexivity.
Qed.

(** X16. The decision does not depend on letter case: two alerts that are
    equal once put in lower case get the same decision, and so do two
    profile names that are equal once put in lower case. *)
Theorem classify_ignores_case :
  forall name1 name2 text1 text2,
    Js.toLowerCase name1 = Js.toLowerCase name2 ->
    Js.toLowerCase text1 = Js.toLowerCase text2 ->
    classify name1 text1 = classify name2 text2.
Proof.
  intros name1 name2 text1 text2 N T.
  rewrite (classify_name_case name1 name2 text1 N).
  rewrite <- (classify_text_case name2 text1), <- (classify_text_case name2 text2), T.
  reflexivity.
Qed.

Lemma classify_ignores_case_witness :
  classify "JOHN DOE" "NGN10,000 CREDITED TO John Doe"
  = classify "john doe" "ngn10,000 credited to JOHN DOE".
Proof.
  apply (classify_ignores_case "JOHN DOE" "john doe"
           "NGN10,000 CREDITED TO John Doe" "ngn10,000 credited to JOHN DOE");
    reflexivity.
Defined.

(** * Text from the OCR service and the export *)

(** X18. A response of the OCR service without content, or without a block
    of type "text", leaves the text box empty, and adding a transaction then
    ends with the empty-input error whatever the profile name is; a response
    with one text block puts exactly its text in the box. *)
Theorem response_without_text_is_empty_input :
  forall amb content st,
    (forall block,
       In block (match content with Some blocks => blocks | None => [] end) ->
       block_type block <> "text") ->
    smsText (receiveExtractedText content st) = EmptyString
    /\ handleAddTransaction amb (receiveExtractedText content st)
       = Ok (flashError "Please enter SMS text or use OCR."
               (receiveExtractedText content st))
    /\ forall text before after,
         (forall block, In block (before ++ after)%list -> block_type block <> "text") ->
         smsText (receiveExtractedText
                    (Some (before ++ {| block_type := "text"; block_text := text |} :: after)%list)
                    st)
         = text.
Proof.
  intros amb content st H.
  assert (F : forall blocks,
             (forall block, In block blocks -> block_type block <> "text") ->
             filter (fun block => String.eqb (block_type block) "text") blocks = []).
  { induction blocks as [|b l IH]; intros N; cbn [filter]; [reflexivity|].
    destruct (String.eqb (block_type b) "text") eqn:E.
    - apply String.eqb_eq in E. exfalso. exact (N b (or_introl eq_refl) E).
    - apply IH. intros x I. apply N. right. exact I. }
  assert (E : smsText (receiveExtractedText content st) = EmptyString).
  { unfold receiveExtractedText, extractedText. cbn [smsText flashSuccess setSmsText].
    rewrite (F _ H). reflexivity. }
  split; [exact E|]. split.
  - unfold handleAddTransaction. rewrite E. reflexivity.
  - intros text before after N.
    unfold receiveExtractedText, extractedText. cbn [smsText flashSuccess setSmsText].
    rewrite filter_app. cbn [filter block_type]. cbn [String.eqb].
    rewrite (F before), (F after).
    + reflexivity.
    + intros x I. apply N, in_or_app. right. exact I.
    + intros x I. apply N, in_or_app. left. exact I.
Qed.

Lemma response_without_text_is_empty_input_witness :
  smsText (receiveExtractedText None malformed_name_blank_text) = EmptyString
  /\ handleAddTransaction clock_a (receiveExtractedText None malformed_name_blank_text)
     = Ok (flashError "Please enter SMS text or use OCR."
             (receiveExtractedText None malformed_name_blank_text))
  /\ forall text before after,
       (forall block, In block (before ++ after)%list -> block_type block <> "text") ->
       smsText (receiveExtractedText
                  (Some (before ++ {| block_type := "text"; block_text := text |} :: after)%list)
                  malformed_name_blank_text)
       = text.
Proof.
  apply (response_without_text_is_empty_input clock_a None malformed_name_blank_text).
  intros block I. destruct I.
Defined.

Lemma escape_injective d1 : forall d2,
  Js.replaceAll double_quote (String double_quote (String double_quote EmptyString)) d1
  = Js.replaceAll double_quote (String double_quote (String double_quote EmptyString)) d2 ->
  d1 = d2.
Proof.
  induction d1 as [|a d1 IH]; intros [|b d2]; cbn [Js.replaceAll append]; intros H.
  - reflexivity.
  - destruct (Ascii.eqb b double_quote); discriminate.
  - destruct (Ascii.eqb a double_quote); discriminate.
  - destruct (Ascii.eqb a double_quote) eqn:A, (Ascii.eqb b double_quote) eqn:B.
    + apply Ascii.eqb_eq in A, B. subst a b. cbn [append] in H.
      injection H as H. f_equal. apply IH, H.
    + apply Ascii.eqb_eq in A. cbn [append] in H. injection H as Hb _.
      subst b. rewrite Ascii.eqb_refl in B. discriminate.
    + apply Ascii.eqb_eq in B. cbn [append] in H. injection H as Ha _.
      subst a. rewrite Ascii.eqb_refl in A. discriminate.
    + injection H as -> H. f_equal. apply IH, H.
Qed.

Lemma append_cancel_r (a b c : string) : a ++ c = b ++ c -> a = b.
Proof.
  revert b. induction a as [|x a IH]; intros [|y b] H; cbn [append] in H.
  - reflexivity.
  - exfalso. apply (f_equal String.length) in H. cbn [String.length] in H.
    rewrite length_append in H. lia.
  - exfalso. apply (f_equal String.length) in H. cbn [String.length] in H.
    rewrite length_append in H. lia.
  - injection H as -> H. f_equal. apply IH, H.
Qed.

(** X19. In the export a description stands between quotes with each of its
    quotes doubled; two different descriptions never give the same field, and
    a description without quotes is exported as it is. *)
Theorem quoted_description_is_faithful :
  forall d1 d2,
    (quoted d1 = quoted d2 -> d1 = d2)
    /\ (all_chars (fun c => negb (Ascii.eqb c double_quote)) d1 = true ->
        quoted d1 = String double_quote (d1 ++ String double_quote EmptyString)).
Proof.
  intros d1 d2. split.
  - unfold quoted. intros H. injection H as H.
    apply append_cancel_r in H. apply escape_injective, H.
  - intros N. unfold quoted. f_equal. f_equal.
    induction d1 as [|a d IH]; cbn [Js.replaceAll all_chars] in *; [reflexivity|].
    apply andb_prop in N. destruct N as [Na Nd]. apply negb_true_iff in Na.
    rewrite Na, (IH Nd). reflexivity.
Qed.

(** * The fuel of the repetition loop is enough *)

Lemma one_char_agree ic r0 k k' s :
  agree_from s k k' -> one_char ic r0 k s = one_char ic r0 k' s.
Proof.
  intros K. unfold one_char.
  destruct (m_rest s) as [|c rest] eqn:R; [reflexivity|].
  destruct (accepts ic r0 c); [|reflexivity].
  apply K. unfold advanced; cbn. rewrite R. cbn. split; lia.
Qed.

Lemma agree_from_advanced s s1 k k' :
  advanced 0 s s1 -> agree_from s k k' -> agree_from s1 k k'.
Proof.
  intros A K s2 A2. apply K.
  exact (advanced_trans 0 0 _ _ _ A A2).
Qed.

Lemma repeat_loop_agree (body : cont -> cont) :
  (forall k k' s, agree_from s k k' -> body k s = body k' s) ->
  forall fuel mn mx greedy k k' s,
    agree_from s k k' ->
    repeat_loop body fuel mn mx greedy k s = repeat_loop body fuel mn mx greedy k' s.
Proof.
  intros Hbody. induction fuel as [|fuel IH]; intros mn mx greedy k k' s K;
    cbn [repeat_loop]; [reflexivity|].
  rewrite (K s (advanced_refl s)).
  destruct (max_is_zero mx); [reflexivity|].
  assert (B : body (fun s1 => if (mn =? 0) && (m_pos s1 =? m_pos s) then None
                              else repeat_loop body fuel (pred mn) (option_map pred mx)
                                     greedy k s1) s
              = body (fun s1 => if (mn =? 0) && (m_pos s1 =? m_pos s) then None
                                else repeat_loop body fuel (pred mn) (option_map pred mx)
                                       greedy k' s1) s).
  { apply Hbody. intros s1 A1.
    destruct ((mn =? 0) && (m_pos s1 =? m_pos s)); [reflexivity|].
    apply IH. exact (agree_from_advanced _ _ _ _ A1 K). }
  rewrite B. reflexivity.
Qed.

(** The result of a match depends on the continuation only through the
    states the match can reach. *)
Lemma matcher_agree ic r : forall k k' s,
  agree_from s k k' -> matcher ic r k s = matcher ic r k' s.
Proof.
  induction r as [| | | |r1 IH1 r2 IH2|r1 IH1 r2 IH2|mn mx g r1 IH1|n r1 IH1|a];
    intros k k' s K; cbn [matcher].
  - apply K, advanced_refl.
  - apply one_char_agree, K.
  - apply one_char_agree, K.
  - apply one_char_agree, K.
  - apply IH1. intros s1 A1. apply IH2. exact (agree_from_advanced _ _ _ _ A1 K).
  - rewrite (IH1 k k' s K), (IH2 k k' s K). reflexivity.
  - apply repeat_loop_agree; [|exact K].
    intros k1 k1' s1 K1. apply IH1. exact K1.
  - apply IH1. intros s1 A1. apply K. exact A1.
  - rewrite (K s (advanced_refl s)). reflexivity.
Qed.

(** More fuel than the minimum plus the length of the input changes
    nothing: the loop never stops for lack of fuel. *)
Lemma repeat_loop_fuel ic r1 greedy : forall fuel1 fuel2 mn mx k s,
  mn + String.length (m_rest s) < fuel1 ->
  mn + String.length (m_rest s) < fuel2 ->
  repeat_loop (fun k1 s1 => matcher ic r1 k1 (clear_caps (groups r1) s1))
              fuel1 mn mx greedy k s
  = repeat_loop (fun k1 s1 => matcher ic r1 k1 (clear_caps (groups r1) s1))
                fuel2 mn mx greedy k s.
Proof.
  induction fuel1 as [|fuel1 IH]; intros fuel2 mn mx k s F1 F2; [lia|].
  destruct fuel2 as [|fuel2]; [lia|]. cbn [repeat_loop].
  destruct (max_is_zero mx); [reflexivity|].
  match goal with
  | |- (if _ then ?a else if _ then orelse ?a _ else orelse _ (fun _ => ?a))
       = (if _ then ?b else _) => assert (B : a = b)
  end.
  { apply matcher_agree. intros s1 [A1 A2]. cbn [clear_caps m_pos m_rest] in A1, A2.
    destruct ((mn =? 0) && (m_pos s1 =? m_pos s)) eqn:E; [reflexivity|].
    apply IH.
    - destruct mn as [|mn]; cbn [pred].
      + cbn [Nat.eqb andb] in E. apply Nat.eqb_neq in E. lia.
      + lia.
    - destruct mn as [|mn]; cbn [pred].
      + cbn [Nat.eqb andb] in E. apply Nat.eqb_neq in E. lia.
      + lia. }
  rewrite B. reflexivity.
Qed.

(** * Saving the profile name *)

Lemma rev_onto_twice s : forall a b,
  Js.rev_onto (Js.rev_onto s a) b = Js.rev_onto a (s ++ b).
Proof.
  induction s as [|c s IH]; intros a b; cbn [Js.rev_onto append]; [reflexivity|].
  rewrite IH. reflexivity.
Qed.

Lemma rev_rev s : Js.rev (Js.rev s) = s.
Proof. unfold Js.rev. rewrite rev_onto_twice. cbn. apply append_empty_r. Qed.

Lemma trimStart_idempotent s : Js.trimStart (Js.trimStart s) = Js.trimStart s.
Proof.
  induction s as [|c s IH]; cbn [Js.trimStart]; [reflexivity|].
  destruct (Js.is_space c) eqn:E; [exact IH|]. cbn [Js.trimStart]. rewrite E. reflexivity.
Qed.

Lemma rev_onto_append s : forall acc, Js.rev_onto s acc = Js.rev s ++ acc.
Proof.
  unfold Js.rev. induction s as [|c s IH]; intros acc; cbn [Js.rev_onto append];
    [reflexivity|].
  rewrite IH, (IH (String c EmptyString)), append_assoc. reflexivity.
Qed.

Lemma trimStart_append_fixed a b :
  a <> EmptyString -> Js.trimStart (a ++ b) = a ++ b -> Js.trimStart a = a.
Proof.
  destruct a as [|c a]; [congruence|]. intros _. cbn [append Js.trimStart].
  destruct (Js.is_space c); [|reflexivity].
  intros H. exfalso.
  pose proof (length_trimStart (a ++ b)) as L. rewrite H in L. cbn [String.length] in L. lia.
Qed.

Lemma trimStart_suffix s : exists ws, s = ws ++ Js.trimStart s.
Proof.
  induction s as [|c s (ws & IH)]; cbn [Js.trimStart].
  - exists EmptyString. reflexivity.
  - destruct (Js.is_space c).
    + exists (String c ws). cbn [append]. rewrite <- IH. reflexivity.
    + exists EmptyString. reflexivity.
Qed.

Lemma rev_append a b : Js.rev (a ++ b) = Js.rev b ++ Js.rev a.
Proof.
  induction a as [|c a IH]; cbn [append].
  - unfold Js.rev at 3. cbn. rewrite append_empty_r. reflexivity.
  - unfold Js.rev at 1 3. cbn [Js.rev_onto].
    rewrite !rev_onto_append, IH, append_assoc. reflexivity.
Qed.

(** Trimming the start keeps a string free of white space at its end. *)
Lemma no_trailing_space_trimStart x :
  Js.trimStart (Js.rev x) = Js.rev x ->
  Js.trimStart (Js.rev (Js.trimStart x)) = Js.rev (Js.trimStart x).
Proof.
  intros H. destruct (trimStart_suffix x) as (ws & E).
  destruct (Js.trimStart x) as [|c t] eqn:T; [reflexivity|].
  rewrite E, rev_append in H.
  apply (trimStart_append_fixed _ _) in H; [exact H|].
  intros Z. apply rev_empty in Z. discriminate.
Qed.

Lemma trim_idempotent s : Js.trim (Js.trim s) = Js.trim s.
Proof.
  unfold Js.trim.
  set (a := Js.trimStart s).
  set (b := Js.trimStart (Js.rev a)).
  assert (B1 : Js.trimStart (Js.rev b) = Js.rev b).
  { apply no_trailing_space_trimStart. rewrite rev_rev. apply trimStart_idempotent. }
  rewrite B1, rev_rev. unfold b. rewrite trimStart_idempotent. reflexivity.
Qed.

(** X20. A successful save stores the name without the white space around
    it, and that makes no difference to the decisions: for a name that is
    not blank, every alert is classified with the saved name as with the
    name as typed.  The transactions and the text box are not touched and
    the dialog closes. *)
Theorem saved_name_classifies_as_typed :
  forall amb failure dialog st text,
    storage_ok amb = true ->
    Js.trim (tempName dialog) <> EmptyString ->
    userName (fst (saveUserName amb failure dialog st)) = Js.trim (tempName dialog)
    /\ Js.trim (userName (fst (saveUserName amb failure dialog st)))
       = userName (fst (saveUserName amb failure dialog st))
    /\ classify (userName (fst (saveUserName amb failure dialog st))) text
       = classify (tempName dialog) text
    /\ transactions (fst (saveUserName amb failure dialog st)) = transactions st
    /\ smsText (fst (saveUserName amb failure dialog st)) = smsText st
    /\ showNameInput (snd (saveUserName amb failure dialog st)) = false.
Proof.
  intros amb failure dialog st text S N. unfold saveUserName. rewrite S.
  cbn [fst snd userName transactions smsText flashSuccess setUserName showNameInput].
  split; [reflexivity|]. split; [apply trim_idempotent|]. split; [|auto].
  unfold classify, isUserReceiver, isUserSender. rewrite trim_idempotent.
  assert (T1 : Js.truthy (Js.trim (tempName dialog)) = true)
    by (destruct (Js.trim (tempName dialog)); [congruence | reflexivity]).
  assert (T2 : Js.truthy (tempName dialog) = true).
  { destruct (tempName dialog); [exfalso; apply N; reflexivity | reflexivity]. }
  rewrite T1, T2. reflexivity.
Qed.

Lemma saved_name_classifies_as_typed_witness :
  userName (fst (saveUserName clock_a "quota" padded_name mary_credit))
  = Js.trim (tempName padded_name)
  /\ Js.trim (userName (fst (saveUserName clock_a "quota" padded_name mary_credit)))
     = userName (fst (saveUserName clock_a "quota" padded_name mary_credit))
  /\ classify (userName (fst (saveUserName clock_a "quota" padded_name mary_credit)))
       "NGN10,000 credited to John Doe"
     = classify (tempName padded_name) "NGN10,000 credited to John Doe"
  /\ transactions (fst (saveUserName clock_a "quota" padded_name mary_credit))
     = transactions mary_credit
  /\ smsText (fst (saveUserName clock_a "quota" padded_name mary_credit))
     = smsText mary_credit
  /\ showNameInput (snd (saveUserName clock_a "quota" padded_name mary_credit)) = false.
Proof.
  apply (saved_name_classifies_as_typed clock_a "quota" padded_name mary_credit
           "NGN10,000 credited to John Doe").
  - reflexivity.
  - vm_compute. discriminate.
Defined.

(** * The date and the clock *)

(** C9, as amended.  A date found in the text is returned whatever the
    clock says: it is the part of the text the date pattern has matched,
    with every slash replaced by a hyphen.  Without one the result is the
    date part of [new Date().toISOString()], so two runs agree when that
    date is the same. *)
Theorem extractDate_clock :
  forall amb1 amb2 text,
    RegExp.test date_pattern text = true
    \/ Js.beforeFirst "T" (now_iso amb1) = Js.beforeFirst "T" (now_iso amb2) ->
    extractDate amb1 text = extractDate amb2 text
    /\ (RegExp.test date_pattern text = false ->
        extractDate amb1 text = Js.beforeFirst "T" (now_iso amb1))
    /\ (RegExp.test date_pattern text = true ->
        exists m g before after,
          RegExp.exec date_pattern text = Some m
          /\ RegExp.capture 1 m = Some g
          /\ text = before ++ g ++ after
          /\ lang false date_group g
          /\ extractDate amb1 text = Js.replaceAll "/" "-" g).
Proof.
  intros amb1 amb2 text H. split; [|split].
  - destruct (RegExp.test date_pattern text) eqn:T.
    + destruct (extractDate_found amb1 text T) as (g & G & ->).
      destruct (extractDate_found amb2 text T) as (g' & G' & ->).
      congruence.
    + rewrite !extractDate_fallback by assumption.
      destruct H as [H|H]; [discriminate | exact H].
  - apply extractDate_fallback.
  - apply extractDate_part.
Qed.

Lemma extractDate_clock_witness :
  extractDate clock_a "Paid 12/03/2024 NGN5,000" = extractDate clock_b "Paid 12/03/2024 NGN5,000"
  /\ (RegExp.test date_pattern "Paid 12/03/2024 NGN5,000" = false ->
      extractDate clock_a "Paid 12/03/2024 NGN5,000" = Js.beforeFirst "T" (now_iso clock_a))
  /\ (RegExp.test date_pattern "Paid 12/03/2024 NGN5,000" = true ->
      exists m g before after,
        RegExp.exec date_pattern "Paid 12/03/2024 NGN5,000" = Some m
        /\ RegExp.capture 1 m = Some g
        /\ "Paid 12/03/2024 NGN5,000" = before ++ g ++ after
        /\ lang false date_group g
        /\ extractDate clock_a "Paid 12/03/2024 NGN5,000" = Js.replaceAll "/" "-" g).
Proof.
  apply (extractDate_clock clock_a clock_b "Paid 12/03/2024 NGN5,000").
  left. vm_compute. reflexivity.
Defined.

(** C9, as stated, fails: [extractDate] has the text as its only argument
    and reads the clock itself, so the same text gives different dates at
    different times. *)
Lemma extractDate_reads_the_clock :
  extractDate clock_a "Credit alert NGN5,000" <> extractDate clock_b "Credit alert NGN5,000".
Proof. vm_compute. discriminate. Qed.

(** * The rule list and the handler on names without pattern syntax *)

Lemma run_plain_terms s : forall st,
  pmode st = MNormal -> plain s = true ->
  exists st',
    run s st = Ok st' /\ pmode st' = MNormal /\ stack st' = stack st
    /\ f_alts (cur st') = f_alts (cur st)
    /\ forall X, fold_left (fun acc x => Seq x acc) (f_terms (cur st')) X
                 = fold_left (fun acc x => Seq x acc) (f_terms (cur st)) (lits s X).
Proof.
  induction s as [|c s IH]; intros st M P; cbn [run plain] in *.
  - exists st. repeat split; auto.
  - apply andb_prop in P. destruct P as [C P]. apply negb_true_iff in C.
    rewrite (step_plain c st M C). cbn [bind].
    destruct (IH (push_atom (Lit c) st) eq_refl P) as (st' & R & M' & K & A & F).
    exists st'. split; [exact R|]. split; [exact M'|]. split; [exact K|].
    split; [exact A|]. intros X. rewrite F. reflexivity.
Qed.

(** A source made of a prefix, a name without pattern syntax and [\b]
    parses to the terms of the prefix followed by the characters of the
    name, each one a literal, and a word boundary. *)
Lemma compile_template prefix name st0 :
  run prefix init = Ok st0 -> pmode st0 = MNormal -> stack st0 = [] ->
  f_alts (cur st0) = [] -> plain name = true ->
  compile (prefix ++ name ++ "\b") true
  = Ok (as_pattern (fold_left (fun acc x => Seq x acc) (f_terms (cur st0))
                      (lits name boundary))).
Proof.
  intros R0 M0 K0 A0 P. unfold compile, parse. rewrite run_app, R0. cbn [bind].
  rewrite run_app.
  destruct (run_plain_terms name st0 M0 P) as (st1 & -> & M1 & K1 & A1 & F).
  cbn [bind run].
  unfold step at 1. rewrite M1. cbn [step_normal Ascii.eqb]. cbn [bind].
  cbn. unfold finish. cbn. rewrite K1, K0. cbn [bind].
  unfold mk_disj. cbn. rewrite A1, A0. cbn [fold_left]. rewrite F. reflexivity.
Qed.

Lemma receiver_patterns name :
  plain name = true ->
  compile_all (receiver_sources name) = Ok (List.map as_pattern (receiver_phrases name)).
Proof.
  intros P. unfold receiver_sources. cbn [compile_all].
  repeat (erewrite compile_template;
          [ | vm_compute; reflexivity | reflexivity | reflexivity | reflexivity | exact P];
          cbn [bind]).
  reflexivity.
Qed.

Lemma sender_patterns name :
  plain name = true ->
  compile_all (sender_sources name) = Ok (List.map as_pattern (sender_phrases name)).
Proof.
  intros P. unfold sender_sources. cbn [compile_all].
  repeat (erewrite compile_template;
          [ | vm_compute; reflexivity | reflexivity | reflexivity | reflexivity | exact P];
          cbn [bind]).
  reflexivity.
Qed.

(** ** Letter case of the name *)

Lemma matcher_lits_lower n X :
  same_matches (lits (Js.toLowerCase n) X) (lits n X).
Proof.
  unfold same_matches.
  induction n as [|c n IH]; intros k s; cbn [Js.toLowerCase Js.map lits matcher];
    [reflexivity|].
  unfold one_char. destruct (m_rest s) as [|a rest]; [reflexivity|].
  cbn [accepts]. unfold same_char, canonicalize. rewrite upper_lower.
  destruct (Ascii.eqb (Js.upper_char a) (Js.upper_char c)); [|reflexivity].
  apply IH.
Qed.

Lemma seq_congr r1 r2 r2' :
  same_matches r2 r2' -> same_matches (Seq r1 r2) (Seq r1 r2').
Proof.
  intros E k s. cbn [matcher]. apply matcher_agree. intros s1 _. apply E.
Qed.

Lemma lits_congr w r r' :
  same_matches r r' -> same_matches (lits w r) (lits w r').
Proof.
  intros E. induction w as [|c w IH]; cbn [lits]; [exact E|].
  apply seq_congr, IH.
Qed.

Lemma scan_congr r r' :
  same_matches r r' ->
  forall rest prev pos, scan true r prev rest pos = scan true r' prev rest pos.
Proof.
  intros E. induction rest as [|c rest IH]; intros prev pos; cbn [scan]; rewrite E.
  - reflexivity.
  - rewrite IH. reflexivity.
Qed.

Lemma occurs_congr r r' text :
  same_matches r r' -> occurs r text = occurs r' text.
Proof.
  intros E. unfold occurs, RegExp.test, exec. cbn [ast ignoreCase].
  rewrite (scan_congr r r' E). reflexivity.
Qed.

Lemma word_name_lower w n :
  same_matches (word_name w (Js.toLowerCase n)) (word_name w n).
Proof.
  unfold word_name. apply seq_congr, lits_congr, seq_congr, matcher_lits_lower.
Qed.

Lemma two_words_name_lower w1 w2 n :
  same_matches (two_words_name w1 w2 (Js.toLowerCase n)) (two_words_name w1 w2 n).
Proof.
  unfold two_words_name.
  apply seq_congr, lits_congr, seq_congr, lits_congr, seq_congr, matcher_lits_lower.
Qed.

Lemma label_name_lower l n :
  same_matches (label_name l (Js.toLowerCase n)) (label_name l n).
Proof.
  unfold label_name. apply seq_congr, lits_congr, seq_congr, matcher_lits_lower.
Qed.

Lemma existsb_patterns text phrases :
  existsb (fun pattern => RegExp.test pattern text) (List.map as_pattern phrases)
  = existsb (fun phrase => occurs phrase text) phrases.
Proof.
  induction phrases as [|p l IH]; cbn [List.map existsb]; [reflexivity|].
  rewrite IH. reflexivity.
Qed.

Lemma receiver_phrases_lower n text :
  existsb (fun phrase => occurs phrase text) (receiver_phrases (Js.toLowerCase n))
  = existsb (fun phrase => occurs phrase text) (receiver_phrases n).
Proof.
  unfold receiver_phrases. cbn [existsb].
  rewrite !(occurs_congr _ _ text (word_name_lower _ n)),
          !(occurs_congr _ _ text (two_words_name_lower _ _ n)),
          !(occurs_congr _ _ text (label_name_lower _ n)).
  reflexivity.
Qed.

Lemma sender_phrases_lower n text :
  existsb (fun phrase => occurs phrase text) (sender_phrases (Js.toLowerCase n))
  = existsb (fun phrase => occurs phrase text) (sender_phrases n).
Proof.
  unfold sender_phrases. cbn [existsb].
  rewrite !(occurs_congr _ _ text (word_name_lower _ n)),
          !(occurs_congr _ _ text (two_words_name_lower _ _ n)),
          !(occurs_congr _ _ text (label_name_lower _ n)).
  reflexivity.
Qed.

(** ** The checks of the handler and the tests of the rules *)

Lemma isUserReceiver_plain userName text :
  plain userName = true ->
  isUserReceiver userName text = Ok (receiver_phrase_match userName text).
Proof.
  intros P. unfold isUserReceiver, receiver_phrase_match.
  destruct (Js.truthy userName); cbn [negb andb]; [|reflexivity].
  rewrite (receiver_patterns _ (plain_lower _ (plain_trim _ P))). cbn [bind].
  rewrite existsb_patterns, receiver_phrases_lower. reflexivity.
Qed.

Lemma isUserSender_plain userName text :
  plain userName = true ->
  isUserSender userName text = Ok (sender_phrase_match userName text).
Proof.
  intros P. unfold isUserSender, sender_phrase_match.
  destruct (Js.truthy userName); cbn [negb andb]; [|reflexivity].
  rewrite (sender_patterns _ (plain_lower _ (plain_trim _ P))). cbn [bind].
  rewrite existsb_patterns, sender_phrases_lower. reflexivity.
Qed.

Lemma critical_loop_whole_words text :
  critical_loop CRITICAL_DEBIT_KEYWORDS text = Ok (has_critical_debit_term text).
Proof.
  assert (C1 : compile ("\b" ++ "debit" ++ "\b") true
               = Ok (as_pattern (Seq boundary (lits "debit" boundary))))
    by (vm_compute; reflexivity).
  assert (C2 : compile ("\b" ++ "dr" ++ "\b") true
               = Ok (as_pattern (Seq boundary (lits "dr" boundary))))
    by (vm_compute; reflexivity).
  unfold CRITICAL_DEBIT_KEYWORDS, has_critical_debit_term, whole_word, occurs.
  cbn [critical_loop existsb]. rewrite C1, C2. cbn [bind]. unfold as_pattern.
  destruct (RegExp.test _ text); [reflexivity|].
  destruct (RegExp.test _ text); reflexivity.
Qed.

Lemma isDebitTransaction_by_rules text :
  isDebitTransaction text = Ok (has_critical_debit_term text || has_debit_keyword text).
Proof.
  unfold isDebitTransaction. rewrite critical_loop_whole_words. cbn [bind].
  destruct (has_critical_debit_term text); reflexivity.
Qed.

Lemma classify_plain userName text :
  plain userName = true ->
  classify userName text = Ok (classify_by_rules userName text).
Proof.
  intros P. unfold classify, classify_by_rules, decision_rules.
  cbn [first_match applies decision].
  rewrite blank_whitespace_only.
  destruct (whitespace_only text); [reflexivity|].
  rewrite (isUserReceiver_plain _ text P). cbn [bind].
  destruct (receiver_phrase_match userName text); [reflexivity|].
  rewrite (isUserSender_plain _ text P), isDebitTransaction_by_rules. cbn [bind].
  change (isCreditTransaction text) with (has_credit_keyword text).
  destruct (sender_phrase_match userName text), (has_critical_debit_term text),
           (has_debit_keyword text), (has_credit_keyword text); reflexivity.
Qed.

(** X21. With a profile name without pattern syntax (or none) the handler
    takes the decision of the seven rules, the first rule that applies
    winning, and acts on it: for every text, classification follows the
    rule list. *)
Theorem plain_names_follow_the_rules :
  forall amb st,
    plain (userName st) = true ->
    classify (userName st) (smsText st)
    = Ok (classify_by_rules (userName st) (smsText st))
    /\ handleAddTransaction amb st
       = Ok (dispatch amb st (classify_by_rules (userName st) (smsText st))).
Proof.
  intros amb st P. pose proof (classify_plain _ (smsText st) P) as C.
  split; [exact C|].
  rewrite handleAddTransaction_dispatch, C. reflexivity.
Qed.

Lemma plain_names_follow_the_rules_witness :
  classify "John Doe" "Transfer from John Doe: NGN500 received"
  = Ok (classify_by_rules "John Doe" "Transfer from John Doe: NGN500 received")
  /\ handleAddTransaction clock_a
       (state_of "John Doe" "Transfer from John Doe: NGN500 received")
     = Ok (dispatch clock_a
             (state_of "John Doe" "Transfer from John Doe: NGN500 received")
             (classify_by_rules "John Doe" "Transfer from John Doe: NGN500 received")).
Proof.
  apply (plain_names_follow_the_rules clock_a
           (state_of "John Doe" "Transfer from John Doe: NGN500 received")).
  reflexivity.
Defined.

(** ** The receiver phrases *)

Lemma space_upper a : Js.is_space a = true -> Js.upper_char a = a.
Proof. destruct a as [[] [] [] [] [] [] [] []]; vm_compute; auto; discriminate. Qed.

Lemma whitespace_only_append a b :
  whitespace_only (a ++ b) = whitespace_only a && whitespace_only b.
Proof.
  induction a as [|x a IH]; cbn [append whitespace_only]; [reflexivity|].
  rewrite IH, andb_assoc. reflexivity.
Qed.

(** A phrase that begins, at a word boundary, with a character that is
    no white space does not occur in a text of white space. *)
Lemma occurs_not_blank c r text :
  Js.is_space (Js.upper_char c) = false ->
  occurs (Seq boundary (Seq (Lit c) r)) text = true ->
  whitespace_only text = false.
Proof.
  intros Hc H. unfold occurs, RegExp.test, exec in H. cbn [ast ignoreCase] in H.
  destruct (scan true _ None text 0) as [m|] eqn:E; [|discriminate].
  apply scan_match_at in E. destruct E as (before & s & e & R & M & _).
  cbn [matcher] in M. unfold boundary in M. cbn [matcher] in M.
  destruct (holds WordB s); [|discriminate].
  unfold one_char in M. destruct (m_rest s) as [|a rest]; [discriminate|].
  destruct (accepts true (Lit c) a) eqn:A; [|discriminate].
  rewrite R, whitespace_only_append. cbn [whitespace_only].
  destruct (Js.is_space a) eqn:Sa; [|apply andb_false_r].
  cbn [accepts] in A. unfold same_char, canonicalize in A.
  apply Ascii.eqb_eq in A. rewrite (space_upper a Sa) in A.
  rewrite <- A in Hc. congruence.
Qed.

Lemma receiver_phrase_not_blank userName text :
  receiver_phrase_match userName text = true -> whitespace_only text = false.
Proof.
  unfold receiver_phrase_match, receiver_phrases. intros H.
  apply andb_prop in H. destruct H as [_ H]. cbn [existsb] in H.
  repeat (apply orb_prop in H; destruct H as [H|H]);
    try discriminate;
    revert H; apply occurs_not_blank; reflexivity.
Qed.

(** X22. With a profile name without pattern syntax, a text that holds one
    of the receiver phrases for that name (to NAME, credited to NAME,
    beneficiary: NAME, receiver: NAME, recipient: NAME, payment to NAME) is
    not blank and is accepted, whatever debit terms it also holds: the two
    alerts to John Doe are accepted, the second one with its debit clause. *)
Theorem plain_receiver_override :
  forall userName text,
    plain userName = true ->
    receiver_phrase_match userName text = true ->
    whitespace_only text = false
    /\ classify userName text = Ok Accepted
    /\ classify "John Doe" "NGN10,000 credited to John Doe" = Ok Accepted
    /\ has_debit_keyword "NGN10,000 credited to John Doe, debited from sender" = true
    /\ classify "John Doe" "NGN10,000 credited to John Doe, debited from sender"
       = Ok Accepted.
Proof.
  intros userName text P H.
  pose proof (receiver_phrase_not_blank _ _ H) as W.
  split; [exact W|]. split.
  - rewrite (classify_plain _ text P). unfold classify_by_rules, decision_rules.
    cbn [first_match applies decision]. rewrite W, H. reflexivity.
  - repeat split; vm_compute; reflexivity.
Qed.

Lemma plain_receiver_override_witness :
  whitespace_only "Debit alert: payment to Ada Obi, DR NGN500" = false
  /\ classify "Ada Obi" "Debit alert: payment to Ada Obi, DR NGN500" = Ok Accepted
  /\ classify "John Doe" "NGN10,000 credited to John Doe" = Ok Accepted
  /\ has_debit_keyword "NGN10,000 credited to John Doe, debited from sender" = true
  /\ classify "John Doe" "NGN10,000 credited to John Doe, debited from sender"
     = Ok Accepted.
Proof.
  apply (plain_receiver_override "Ada Obi" "Debit alert: payment to Ada Obi, DR NGN500");
    vm_compute; reflexivity.
Defined.
